(** * HugeCSV: the parsing and coordination pipeline of [src/data/DataTools.js]

    A shallow embedding of the orchestrating functions of the CSV ingestion
    engine ([readRow], [readHeader], [sliceFile], [analyzeBlobs],
    [iterateBlobs], [binaryChunksFromBlobs], [mergeChunksIntoBuffer]) and the
    properties its specification states about them.

    Conventions.
    - A byte view is a [list byte]; an index into it is a [nat].
    - JavaScript numbers that hold sizes, counts and offsets are exact
      integers here ([Z], [N] or [nat]); a number that can be [NaN] is an
      [option Z] with [None] for [NaN].
    - An object used as a dictionary is the [gmap] of its own properties.
    - The worker pool and the code that runs inside a worker are not part of
      [DataTools.js]; what a task answers is a parameter of the model.
    - The pattern [readHeader] builds is described for a qualifier that
      stands for itself in it; for any other qualifier what the engine makes
      of the source, a SyntaxError included, is a parameter of the model. *)

From Stdlib Require Import ZArith Lia Strings.Byte Strings.Ascii Strings.String.
From stdpp Require Import base option list gmap strings pretty.

Local Open Scope nat_scope.

(** ** Configuration *)

(** The two kinds of buffer the merge tells apart with [instanceof]. *)
Inductive Buffer :=
| SharedArrayBuffer (byteLength : N)
| ArrayBuffer (byteLength : N).

(** [config.output]: [buffer] may be missing, and so may [offset]
    ([undefined] is falsy like 0, and 0 stands for both). *)
Record Output := { out_buffer : option Buffer; out_offset : N }.

Record Config := {
  separator : string;
  qualifier : string;
  linebreak : string;
  firstRowHeader : bool;
  maxRowSize : Z;
  chunkSize : Z;
  maxLoadedChunks : Z;
  encoding : string;
  output : option Output;
}.

Definition sizeOf1KB : Z := 1024.
Definition sizeOf1MB : Z := sizeOf1KB * 1024.

Definition defaultConfig : Config := {|
  separator := ",";
  qualifier := String (Ascii.ascii_of_byte x22) EmptyString;
  linebreak := String (Ascii.ascii_of_byte x0a) EmptyString;
  firstRowHeader := true;
  maxRowSize := sizeOf1KB * 128;
  chunkSize := sizeOf1MB * 4;
  maxLoadedChunks := 32;
  encoding := "utf8";
  output := None;
|}.

(** [s.charCodeAt(0)]: the code of the first character, [NaN] ([None]) for
    the empty string. *)
Definition charCodeAt0 (s : string) : option N :=
  match s with
  | EmptyString => None
  | String a _ => Some (Ascii.N_of_ascii a)
  end.

(** [char === code] for a byte read with [getUint8] and a character code. *)
Definition is_code (code : option N) (char : byte) : bool :=
  match code with
  | Some n => (Byte.to_N char =? n)%N
  | None => false
  end.

(** ** readRow *)

(** [new Uint8Array(view.buffer, fieldOffset, length)]: a field is a window
    on the buffer, not a copy.  The view is taken to start at byte 0 of its
    buffer, as the one [readHeader] builds does. *)
Record Field := { f_offset : nat; f_length : nat }.

Definition field_bytes (view : list byte) (f : Field) : list byte :=
  take (f_length f) (drop (f_offset f) view).

(** The two messages [readRow] can pass to [console.warn]. *)
Inductive Warning :=
| RogueQualifier
| UnterminatedQualifier.

(** The mutable locals of [readRow], the collector and the console. *)
Record Scan := {
  fieldOffset : nat;
  isInQuotes : bool;
  collector : list Field;
  console : list Warning;
}.

Definition set_quotes (b : bool) (s : Scan) : Scan :=
  {| fieldOffset := fieldOffset s; isInQuotes := b;
     collector := collector s; console := console s |}.

Definition warn (w : Warning) (s : Scan) : Scan :=
  {| fieldOffset := fieldOffset s; isInQuotes := isInQuotes s;
     collector := collector s; console := console s ++ [w] |}.

(** [result.push(new Uint8Array(view.buffer, fieldOffset, i - fieldOffset))] *)
Definition push_field (i : nat) (s : Scan) : Scan :=
  {| fieldOffset := fieldOffset s; isInQuotes := isInQuotes s;
     collector := collector s ++ [{| f_offset := fieldOffset s; f_length := i - fieldOffset s |}];
     console := console s |}.

Definition set_fieldOffset (o : nat) (s : Scan) : Scan :=
  {| fieldOffset := o; isInQuotes := isInQuotes s;
     collector := collector s; console := console s |}.

Inductive Flow :=
| Continue (s : Scan)
| Return (ret : nat) (s : Scan).

Section ReadRow.
Variable view : list byte.
Variables sep qual lb : option N.

(** One pass through the body of the [for] loop, at index [i] with
    [char = view.getUint8(i)].  [i - fieldOffset] is falsy exactly when
    [i = fieldOffset].  The second branch assigns the code of a quote to
    [char], which nothing reads afterwards, and does not move [i]. *)
Definition readRow_body (i : nat) (char : byte) (s : Scan) : Flow :=
  if is_code qual char then
    if (i =? fieldOffset s) && negb (isInQuotes s) then
      Continue (set_quotes true s)
    else if negb (i =? fieldOffset s) &&
            match view !! (i + 1) with
            | Some next => is_code qual next
            | None => false
            end then
      Continue s
    else if negb (i =? fieldOffset s) && isInQuotes s then
      Continue (set_quotes false s)
    else
      Continue (warn RogueQualifier s)
  else if is_code sep char && negb (isInQuotes s) then
    Continue (set_fieldOffset (i + 1) (push_field i s))
  else if is_code lb char && negb (isInQuotes s) then
    let s' := if isInQuotes s
              then set_quotes false (warn UnterminatedQualifier s)
              else s in
    Return (i + 1) (push_field i s')
  else
    Continue s.

(** [for (i = offset; i < view.byteLength; ++i) { ... }]; the loop leaves
    with [Continue] when the condition fails, and the first component is
    the value of [i] then. *)
Fixpoint readRow_loop (fuel i : nat) (s : Scan) : nat * Flow :=
  match fuel with
  | 0 => (i, Continue s)
  | S fuel' =>
      match view !! i with
      | None => (i, Continue s)
      | Some char =>
          match readRow_body i char s with
          | Continue s' => readRow_loop fuel' (S i) s'
          | Return r s' => (i, Return r s')
          end
      end
  end.

End ReadRow.

(** What a call leaves behind: the returned offset, the collector and what
    was written to the console. *)
Record RowResult := {
  row_ret : nat;
  row_fields : list Field;
  row_console : list Warning;
}.

Definition readRow (view : list byte) (offset : nat) (result : list Field)
    (config : Config) : RowResult :=
  let separator := charCodeAt0 (separator config) in
  let qualifier := charCodeAt0 (qualifier config) in
  let lineBreak := charCodeAt0 (linebreak config) in
  let start := {| fieldOffset := offset; isInQuotes := false;
                  collector := result; console := [] |} in
  match readRow_loop view separator qualifier lineBreak
          (length view - offset) offset start with
  | (_, Return r s) =>
      {| row_ret := r; row_fields := collector s; row_console := console s |}
  | (i, Continue s) =>
      if fieldOffset s <? i
      then {| row_ret := i; row_fields := collector (push_field i s);
              row_console := console s |}
      else {| row_ret := i; row_fields := collector s; row_console := console s |}
  end.

(** ** The byte source

    Modelled from the spec: the byte source is an external collaborator
    with [size], [slice(start, end)] and an asynchronous [load].  A file is
    its bytes; [file.slice(start, end)] is the byte range it was asked for;
    loading a range reads the bytes of the file in it. *)
Record File := { file_bytes : list byte }.

Definition file_size (file : File) : Z := Z.of_nat (length (file_bytes file)).

Record Blob := { blob_start : Z; blob_end : Z }.

Definition file_slice (file : File) (s e : Z) : Blob :=
  {| blob_start := s; blob_end := e |}.

Definition load (file : File) (b : Blob) : list byte :=
  take (Z.to_nat (blob_end b) - Z.to_nat (blob_start b))
       (drop (Z.to_nat (blob_start b)) (file_bytes file)).

(** ** readHeader *)

(** A JavaScript number that may be [NaN]. *)
Definition num := option Z.

Definition MAX_SAFE_INTEGER : Z := 2 ^ 53 - 1.
Definition MIN_SAFE_INTEGER : Z := - (2 ^ 53 - 1).

Record ColumnStat := {
  name : string;
  minLength : num;
  maxLength : num;
  emptyCount : num;
  stringCount : num;
  intCount : num;
  floatCount : num;
}.

(** [String.fromCharCode(...bytes)]: one character per byte. *)
Definition fromCharCode (bytes : list byte) : list ascii :=
  map Ascii.ascii_of_byte bytes.

(** The characters [trim] removes, among the codes a byte can have: TAB, LF,
    VT, FF, CR, SPACE and NO-BREAK SPACE. *)
Definition is_js_space (a : ascii) : bool :=
  let n := Ascii.N_of_ascii a in
  ((n =? 9) || (n =? 10) || (n =? 11) || (n =? 12) || (n =? 13) ||
   (n =? 32) || (n =? 160))%N.

Fixpoint trimStart (s : list ascii) : list ascii :=
  match s with
  | a :: s' => if is_js_space a then trimStart s' else s
  | [] => []
  end.

Definition trim (s : list ascii) : list ascii :=
  reverse (trimStart (reverse (trimStart s))).

(** The characters [.] does not match, among the codes a byte can have. *)
Definition is_line_terminator (a : ascii) : bool :=
  let n := Ascii.N_of_ascii a in ((n =? 10) || (n =? 13))%N.

(** The characters with a meaning in the syntax of a regular expression. *)
Definition is_rx_syntax (a : ascii) : bool :=
  bool_decide (a ∈ list_ascii_of_string "^$\.*+?()[]{}|").

(** The qualifier stands for itself in the pattern built from it. *)
Definition rx_literal (q : string) : Prop :=
  forallb (fun a => negb (is_rx_syntax a)) (list_ascii_of_string q) = true.

(** The source of the pattern, [`^${q}(.+(?=${q}$))${q}$`]. *)
Definition rx_source (q : list ascii) : list ascii :=
  list_ascii_of_string "^" ++ q ++ list_ascii_of_string "(.+(?=" ++ q ++
  list_ascii_of_string "$))" ++ q ++ list_ascii_of_string "$".

(** [s.replace(rx, '$1')] for
    [rx = new RegExp(`^${q}(.+(?=${q}$))${q}$`)], the meaning of the
    pattern when [rx_literal q], and then only: the whole of [s] is [q],
    then one or more characters that are no line terminators, then [q]; the
    group is what stands between. *)
Definition replace_rx (q : list ascii) (s : list ascii) : list ascii :=
  let inner := take (length s - 2 * length q) (drop (length q) s) in
  if bool_decide (s = q ++ inner ++ q) &&
     negb (bool_decide (inner = [])) &&
     forallb (fun a => negb (is_line_terminator a)) inner
  then inner
  else s.

Definition new_ColumnStat (name : string) : ColumnStat := {|
  name := name;
  minLength := Some MAX_SAFE_INTEGER;
  maxLength := Some MIN_SAFE_INTEGER;
  emptyCount := Some 0%Z;
  stringCount := Some 0%Z;
  intCount := Some 0%Z;
  floatCount := Some 0%Z;
|}.

Record HeaderResult := {
  hr_header : list ColumnStat;
  hr_offset : nat;
}.

Section ReadHeader.
(** The regular expressions of the engine for the sources [replace_rx]
    does not describe, those of a qualifier with a character of the syntax
    in it: [None] is the SyntaxError [new RegExp] throws for a source that
    is no pattern, [Some replace] is [s.replace(rx, '$1')] for the pattern
    the source is. *)
Variable RegExp_replace : list ascii → option (list ascii → list ascii).

(** [new RegExp(`^${config.qualifier}(.+(?=${config.qualifier}$))${config.qualifier}$`)]
    with its use [s.replace(rx, '$1')]. *)
Definition new_RegExp (q : string) : option (list ascii → list ascii) :=
  if forallb (fun a => negb (is_rx_syntax a)) (list_ascii_of_string q)
  then Some (replace_rx (list_ascii_of_string q))
  else RegExp_replace (rx_source (list_ascii_of_string q)).

(** The value of [cleanValue] for the field [col] of [view]. *)
Definition cleanValue (replace : list ascii → list ascii)
    (view : list byte) (col : Field) : string :=
  string_of_list_ascii (replace (trim (fromCharCode (field_bytes view col)))).

(** [None] is the SyntaxError of [new RegExp], thrown before the loop over
    the columns whatever [firstRowHeader] is. *)
Definition readHeader (file : File) (config : Config) : option HeaderResult :=
  let chunk := file_slice file 0 (Z.min (maxRowSize config) (file_size file)) in
  let buffer := load file chunk in
  let view := buffer in
  let row := readRow view 0 [] config in
  let columns := row_fields row in
  let offset := row_ret row in
  match new_RegExp (qualifier config) with
  | None => None
  | Some replace =>
      let header :=
        imap (fun i col =>
                new_ColumnStat (if firstRowHeader config
                                then cleanValue replace view col
                                else "Column" +:+ pretty i)) columns in
      Some {| hr_header := header;
              hr_offset := if firstRowHeader config then offset else 0 |}
  end.

End ReadHeader.

(** ** sliceFile *)

(** An element of [offsets]: a window on the file. *)
Record Window := { w_start : Z; w_end : Z }.

(** The options of a [calculateOffsets] task and what the task answers. *)
Record OffsetsOptions := {
  oo_start : Z;
  oo_end : Z;
  oo_linebreak : option N;
  oo_maxRowSize : Z;
  oo_file : File;
  oo_index : nat;
}.

Record OffsetsResult := { or_index : nat; or_offset : Z }.

(** [while (offset < file.size) { offsets.push(...); offset += chunkSize; }]
    The loop does not end when [chunkSize] is not positive: [None] is a
    loop still running when the fuel is spent. *)
Fixpoint tentative_windows (fuel : nat) (size chunkSize offset : Z)
    : option (list Window) :=
  if (offset <? size)%Z then
    match fuel with
    | 0 => None
    | S fuel' =>
        option_map
          (cons {| w_start := offset; w_end := Z.min (offset + chunkSize) size |})
          (tentative_windows fuel' size chunkSize (offset + chunkSize))
    end
  else Some [].

(** The tasks of the first [for] loop: one for each window but the last. *)
Definition offsets_tasks (file : File) (config : Config) (offsets : list Window)
    : list OffsetsOptions :=
  imap (fun i w =>
          {| oo_start := w_start w; oo_end := w_end w;
             oo_linebreak := charCodeAt0 (linebreak config);
             oo_maxRowSize := maxRowSize config;
             oo_file := file; oo_index := i |})
       (take (length offsets - 1) offsets).

(** [offsets[r.index].end += r.offset; offsets[r.index + 1].start += r.offset;]
    [None] is the TypeError of an index with no window. *)
Definition apply_offset (offsets : list Window) (r : OffsetsResult)
    : option (list Window) :=
  match offsets !! or_index r with
  | None => None
  | Some lw =>
      let offsets1 :=
        <[or_index r := {| w_start := w_start lw;
                           w_end := (w_end lw + or_offset r)%Z |}]> offsets in
      match offsets1 !! (or_index r + 1) with
      | None => None
      | Some rw =>
          Some (<[or_index r + 1 := {| w_start := (w_start rw + or_offset r)%Z;
                                       w_end := w_end rw |}]> offsets1)
      end
  end.

Fixpoint apply_offsets (offsets : list Window) (results : list OffsetsResult)
    : option (list Window) :=
  match results with
  | [] => Some offsets
  | r :: results' =>
      match apply_offset offsets r with
      | None => None
      | Some offsets' => apply_offsets offsets' results'
      end
  end.

Section SliceFile.
(** What the [calculateOffsets] task of the worker pool answers. *)
Variable calculateOffsets : OffsetsOptions → OffsetsResult.

(** [await Promise.all(promises)] keeps the order of the promises. *)
Definition sliceFile (fuel : nat) (file : File) (start : Z) (config : Config)
    : option (list Blob) :=
  match tentative_windows fuel (file_size file) (chunkSize config) start with
  | None => None
  | Some offsets =>
      let results := map calculateOffsets (offsets_tasks file config offsets) in
      match apply_offsets offsets results with
      | None => None
      | Some offsets' =>
          Some (map (fun w => file_slice file (w_start w) (w_end w)) offsets')
      end
  end.

End SliceFile.

(** Modelled from the spec: the boundary scan of the worker, "scans forward
    from the tentative end, bounded by [maxRowSize], to find the first
    line-break at or after that offset", the reported offset being the
    distance from the tentative end to just past that line-break, and 0 when
    there is none. *)
Fixpoint find_linebreak (lb : option N) (bytes : list byte) (n : nat) : option nat :=
  match bytes with
  | [] => None
  | c :: rest => if is_code lb c then Some (S n) else find_linebreak lb rest (S n)
  end.

Definition boundary_scan (o : OffsetsOptions) : OffsetsResult :=
  let bytes := take (Z.to_nat (oo_maxRowSize o))
                 (drop (Z.to_nat (oo_end o)) (file_bytes (oo_file o))) in
  {| or_index := oo_index o;
     or_offset := match find_linebreak (oo_linebreak o) bytes 0 with
                  | Some d => Z.of_nat d
                  | None => 0%Z
                  end |}.

(** ** The parse tasks of the worker pool *)

(** [PARSING_MODE], from [ParsingModes.js]. *)
Inductive ParsingMode := ANALYZE | LOAD | BINARY.

(** [Object.assign({}, optionsBase, { blob: blobs[i], index: i })] *)
Record ParseOptions := {
  po_linebreak : option N;
  po_separator : option N;
  po_qualifier : option N;
  po_columnCount : nat;
  po_mode : ParsingMode;
  po_blob : Blob;
  po_index : nat;
}.

Definition parse_tasks (mode : ParsingMode) (blobs : list Blob)
    (header : list ColumnStat) (config : Config) : list ParseOptions :=
  imap (fun i blob =>
          {| po_linebreak := charCodeAt0 (linebreak config);
             po_separator := charCodeAt0 (separator config);
             po_qualifier := charCodeAt0 (qualifier config);
             po_columnCount := length header;
             po_mode := mode;
             po_blob := blob;
             po_index := i |}) blobs.

(** ** analyzeBlobs *)

Record Stats := { rowCount : Z; malformedRows : Z }.

(** The answer of a [parseBlob] task in [ANALYZE] mode; [ar_columns] is the
    content of [new Uint32Array(result.columns)], six entries per column. *)
Record AnalyzeResult := {
  ar_index : nat;
  ar_stats : Stats;
  ar_columns : list Z;
}.

(** [new DataChunk(blob, columnCount, rowCount, config)], from
    [DataChunk.js]; [blobs[index]] is [undefined] out of range. *)
Record DataChunk := {
  dc_blob : option Blob;
  dc_columnCount : nat;
  dc_rowCount : Z;
  dc_config : Config;
}.

(** [Math.min], [Math.max] and [+]: [NaN] if an argument is [NaN] or
    [undefined]. *)
Definition js_min (a b : num) : num :=
  match a, b with Some x, Some y => Some (Z.min x y) | _, _ => None end.

Definition js_max (a b : num) : num :=
  match a, b with Some x, Some y => Some (Z.max x y) | _, _ => None end.

Definition js_add (a b : num) : num :=
  match a, b with Some x, Some y => Some (x + y)%Z | _, _ => None end.

(** The body of the inner loop for column [ii], with [mi = 6 * ii]; a read
    past the end of [metaView] is [undefined]. *)
Definition fold_column (metaView : list Z) (ii : nat) (c : ColumnStat) : ColumnStat :=
  let mi := 6 * ii in
  {| name := name c;
     minLength := js_min (minLength c) (metaView !! mi);
     maxLength := js_max (maxLength c) (metaView !! (mi + 1));
     emptyCount := js_add (emptyCount c) (metaView !! (mi + 5));
     stringCount := js_add (stringCount c) (metaView !! (mi + 4));
     intCount := js_add (intCount c) (metaView !! (mi + 2));
     floatCount := js_add (floatCount c) (metaView !! (mi + 3)) |}.

(** What the loop over [results] updates: the [chunks] array, [aggregated]
    and the caller's [header], which is changed in place. *)
Record Analysis := {
  an_chunks : gmap nat DataChunk;
  an_meta : Stats;
  an_header : list ColumnStat;
}.

Definition fold_result (blobs : list Blob) (config : Config)
    (acc : Analysis) (r : AnalyzeResult) : Analysis :=
  {| an_chunks :=
       <[ar_index r := {| dc_blob := blobs !! ar_index r;
                          dc_columnCount := length (an_header acc);
                          dc_rowCount := rowCount (ar_stats r);
                          dc_config := config |}]> (an_chunks acc);
     an_meta :=
       {| rowCount := (rowCount (an_meta acc) + rowCount (ar_stats r))%Z;
          malformedRows :=
            (malformedRows (an_meta acc) + malformedRows (ar_stats r))%Z |};
     an_header := imap (fold_column (ar_columns r)) (an_header acc) |}.

Definition fold_results (blobs : list Blob) (header : list ColumnStat)
    (config : Config) (results : list AnalyzeResult) : Analysis :=
  foldl (fold_result blobs config)
    {| an_chunks := ∅;
       an_meta := {| rowCount := 0; malformedRows := 0 |};
       an_header := header |}
    results.

Section AnalyzeBlobs.
(** What a [parseBlob] task answers in [ANALYZE] mode. *)
Variable parseBlob : ParseOptions → AnalyzeResult.

Definition analyzeBlobs (blobs : list Blob) (header : list ColumnStat)
    (config : Config) : Analysis :=
  let results := map parseBlob (parse_tasks ANALYZE blobs header config) in
  fold_results blobs header config results.

End AnalyzeBlobs.

(** ** iterateBlobs *)

(** The answer of a [parseBlob] task in [LOAD] mode, as far as the iterator
    reads it: [result.index] and the [rowCount] of
    [DataChunk.fromLoadResult(result)]. *)
Record LoadResult := { lr_index : nat; lr_rowCount : nat }.

(** One call [itr(row, index)]: [row] is the one shared [DataChunkRow],
    bound at that moment to the chunk of [call_chunk] and positioned by
    [setIndex] at [call_row]. *)
Record Call := { call_chunk : nat; call_row : nat; call_index : nat }.

(** The state the closures [invokeIterator] and [handleResult] share, the
    tasks the pool has not answered yet ([None] is a task scheduled with
    [undefined] options, what [tasks.shift()] gives on an empty array), and
    what the outside sees: the calls of [itr] and whether [resolve] ran. *)
Record Iter := {
  it_tasks : list ParseOptions;
  it_pending : list (option ParseOptions);
  it_results : gmap nat LoadResult;
  it_blobIndex : nat;
  it_index : nat;
  it_calls : list Call;
  it_resolved : bool;
}.

Section IterateBlobs.
(** What a [parseBlob] task answers in [LOAD] mode. *)
Variable parseBlob : ParseOptions → LoadResult.
(** [workerPool.workers.length] *)
Variable workers : nat.
Variable blobs : list Blob.

Definition invokeIterator (st : Iter) (result : LoadResult) : Iter :=
  {| it_tasks := it_tasks st;
     it_pending := it_pending st;
     it_results := it_results st;
     it_blobIndex := it_blobIndex st;
     it_index := it_index st + lr_rowCount result;
     it_calls := it_calls st ++
       map (fun i => {| call_chunk := lr_index result; call_row := i;
                        call_index := it_index st + i |})
           (seq 0 (lr_rowCount result));
     it_resolved :=
       if (Z.of_nat (length blobs) - 1 <=? Z.of_nat (it_blobIndex st))%Z
       then true else it_resolved st |}.

(** [workerPool.scheduleTask('parseBlob', tasks.shift()).then(handleResult)] *)
Definition schedule_shift (st : Iter) : Iter :=
  {| it_tasks := tail (it_tasks st);
     it_pending := it_pending st ++ [head (it_tasks st)];
     it_results := it_results st;
     it_blobIndex := it_blobIndex st;
     it_index := it_index st;
     it_calls := it_calls st;
     it_resolved := it_resolved st |}.

(** [if (tasks.length) { ...scheduleTask(...) }] *)
Definition schedule_next (st : Iter) : Iter :=
  match it_tasks st with
  | [] => st
  | _ :: _ => schedule_shift st
  end.

Definition set_blobIndex (b : nat) (st : Iter) : Iter :=
  {| it_tasks := it_tasks st;
     it_pending := it_pending st;
     it_results := it_results st;
     it_blobIndex := b;
     it_index := it_index st;
     it_calls := it_calls st;
     it_resolved := it_resolved st |}.

Definition set_results (m : gmap nat LoadResult) (st : Iter) : Iter :=
  {| it_tasks := it_tasks st;
     it_pending := it_pending st;
     it_results := m;
     it_blobIndex := it_blobIndex st;
     it_index := it_index st;
     it_calls := it_calls st;
     it_resolved := it_resolved st |}.

(** [while (results.hasOwnProperty(++blobIndex)) { ... }]; each turn
    deletes a key of [results], so a fuel of [size results] is never spent. *)
Fixpoint drain (fuel : nat) (st : Iter) : Iter :=
  let st1 := set_blobIndex (S (it_blobIndex st)) st in
  match it_results st1 !! it_blobIndex st1 with
  | None => st1
  | Some buffered =>
      match fuel with
      | 0 => st1
      | S fuel' =>
          let st2 := invokeIterator st1 buffered in
          let st3 := set_results (delete (it_blobIndex st2) (it_results st2)) st2 in
          drain fuel' (schedule_next st3)
      end
  end.

Definition handleResult (st : Iter) (result : LoadResult) : Iter :=
  if lr_index result =? it_blobIndex st then
    let st1 := schedule_next (invokeIterator st result) in
    drain (size (it_results st1)) st1
  else
    set_results (<[lr_index result := result]> (it_results st)) st.

(** The state when the executor of the promise returns: every blob has its
    options in [tasks], and one task per worker was scheduled. *)
Definition iterate_start (header : list ColumnStat) (config : Config) : Iter :=
  Nat.iter workers schedule_shift
    {| it_tasks := parse_tasks LOAD blobs header config;
       it_pending := [];
       it_results := ∅;
       it_blobIndex := 0;
       it_index := 0;
       it_calls := [];
       it_resolved := false |}.

Definition drop_pending (k : nat) (st : Iter) : Iter :=
  {| it_tasks := it_tasks st;
     it_pending := delete k (it_pending st);
     it_results := it_results st;
     it_blobIndex := it_blobIndex st;
     it_index := it_index st;
     it_calls := it_calls st;
     it_resolved := it_resolved st |}.

(** The pool answers the [k]-th task it still holds.  A task with options
    answers with the result of [parseBlob], which [handleResult] receives; a
    task scheduled with [undefined] never reaches [handleResult].  [None]:
    there is no such task. *)
Definition answer (st : Iter) (k : nat) : option Iter :=
  match it_pending st !! k with
  | None => None
  | Some task =>
      let st' := drop_pending k st in
      match task with
      | Some options => Some (handleResult st' (parseBlob options))
      | None => Some st'
      end
  end.

(** The tasks complete in the order [order], each entry the position of the
    completing task among those not answered yet. *)
Fixpoint iterate_run (st : Iter) (order : list nat) : option Iter :=
  match order with
  | [] => Some st
  | k :: order' =>
      match answer st k with
      | None => None
      | Some st' => iterate_run st' order'
      end
  end.

Definition iterateBlobs (header : list ColumnStat) (config : Config)
    (order : list nat) : option Iter :=
  iterate_run (iterate_start header config) order.

End IterateBlobs.

(** ** binaryChunksFromBlobs *)

(** Modelled from the spec: the value-type tag of a column, "integer/float/
    string", decided inside the worker. *)
Inductive ColumnType := IntegerType | FloatType | StringType.

(** [result.header] of a [parseBlob] task in [BINARY] mode. *)
Record ChunkHeader := {
  ch_rowCount : N;
  ch_lengths : list N;
  ch_types : list ColumnType;
  ch_order : list nat;
}.

Record BinaryResult := {
  br_index : nat;
  br_header : ChunkHeader;
  br_data : list byte;
}.

(** [type] is [undefined] ([None]) when the first result has no entry for
    the column. *)
Record BinaryColumn := {
  bc_name : string;
  bc_length : N;
  bc_offset : N;
  bc_type : option ColumnType;
}.

Record BinaryHeader := {
  bh_columns : list BinaryColumn;
  bh_names : gmap string nat;
  bh_rowCount : N;
  bh_rowLength : N;
  bh_dataLength : N;
  bh_dataOffset : N;
}.

Definition set_length (w : N) (c : BinaryColumn) : BinaryColumn :=
  {| bc_name := bc_name c; bc_length := w;
     bc_offset := bc_offset c; bc_type := bc_type c |}.

Definition set_offset (o : N) (c : BinaryColumn) : BinaryColumn :=
  {| bc_name := bc_name c; bc_length := bc_length c;
     bc_offset := o; bc_type := bc_type c |}.

(** The first loop over [header]: [None] is the TypeError of
    [results[0].header] when there is a column and no result. *)
Definition initial_columns (header : list ColumnStat) (results : list BinaryResult)
    : option (list BinaryColumn) :=
  match header with
  | [] => Some []
  | _ :: _ =>
      match results !! 0 with
      | None => None
      | Some first =>
          Some (imap (fun i h =>
                        {| bc_name := name h; bc_length := 0; bc_offset := 0;
                           bc_type := ch_types (br_header first) !! i |}) header)
      end
  end.

(** [names[key] = value] on the plain object [names], which is kept as its
    own properties: the key [__proto__] is the accessor of
    [Object.prototype], whose setter ignores a number and makes no
    property; any other key becomes an own property with that value. *)
Definition object_set (names : gmap string nat) (key : string) (value : nat)
    : gmap string nat :=
  if decide (key = "__proto__") then names else <[key := value]> names.

(** [binaryHeader.names[header[i].name] = binaryHeader.columns.length] *)
Definition initial_names (header : list ColumnStat) : gmap string nat :=
  foldl (fun names ih => object_set names (name ih.2) ih.1) ∅ (imap pair header).

(** The inner loop over the columns from column [ii] on:
    [length = Math.max(length, lengths[ii])].  [None]: [lengths] has no
    entry for a column, which leaves [NaN] in the layout. *)
Fixpoint widen_columns (lengths : list N) (ii : nat) (columns : list BinaryColumn)
    : option (list BinaryColumn) :=
  match columns with
  | [] => Some []
  | c :: columns' =>
      match lengths !! ii with
      | None => None
      | Some w =>
          option_map (cons (set_length (N.max (bc_length c) w) c))
                     (widen_columns lengths (S ii) columns')
      end
  end.

(** What the loop over [results] updates. *)
Record Measure := {
  ms_rowCount : N;
  ms_columns : list BinaryColumn;
  ms_ordered : gmap nat BinaryResult;
}.

Definition measure_result (acc : option Measure) (r : BinaryResult) : option Measure :=
  match acc with
  | None => None
  | Some m =>
      match widen_columns (ch_lengths (br_header r)) 0 (ms_columns m) with
      | None => None
      | Some columns =>
          Some {| ms_rowCount := ms_rowCount m + ch_rowCount (br_header r);
                  ms_columns := columns;
                  ms_ordered := <[br_index r := r]> (ms_ordered m) |}
      end
  end.

(** One turn of the layout loop:
    [columns[order[i]].offset = offset; offset += columns[order[i]].length].
    [None] is the TypeError of a missing first result or of an [order[i]]
    that names no column. *)
Definition layout_step (results : list BinaryResult)
    (acc : option (list BinaryColumn * N)) (i : nat) : option (list BinaryColumn * N) :=
  match acc with
  | None => None
  | Some (columns, offset) =>
      match results !! 0 with
      | None => None
      | Some first =>
          match ch_order (br_header first) !! i with
          | None => None
          | Some k =>
              match columns !! k with
              | None => None
              | Some c =>
                  Some (<[k := set_offset offset c]> columns,
                        (offset + bc_length c)%N)
              end
          end
      end
  end.

(** The code after [await Promise.all(promises)], on the results in the
    order of the promises. *)
Definition binary_header (header : list ColumnStat) (results : list BinaryResult)
    : option (BinaryHeader * gmap nat BinaryResult) :=
  match initial_columns header results with
  | None => None
  | Some columns0 =>
      match foldl measure_result
              (Some {| ms_rowCount := 0; ms_columns := columns0; ms_ordered := ∅ |})
              results with
      | None => None
      | Some m =>
          match foldl (layout_step results) (Some (ms_columns m, 0%N))
                  (seq 0 (length header)) with
          | None => None
          | Some (columns, offset) =>
              Some ({| bh_columns := columns;
                       bh_names := initial_names header;
                       bh_rowCount := ms_rowCount m;
                       bh_rowLength := offset;
                       bh_dataLength := offset * ms_rowCount m;
                       bh_dataOffset := 0 |}, ms_ordered m)
          end
      end
  end.

Section BinaryChunksFromBlobs.
(** What a [parseBlob] task answers in [BINARY] mode. *)
Variable parseBlob : ParseOptions → BinaryResult.

Definition binaryChunksFromBlobs (blobs : list Blob) (header : list ColumnStat)
    (config : Config) : option (BinaryHeader * gmap nat BinaryResult) :=
  let results := map parseBlob (parse_tasks BINARY blobs header config) in
  binary_header header results.

End BinaryChunksFromBlobs.

(** ** mergeChunksIntoBuffer *)

(** The tasks the merge hands to the pool, with their options. *)
Inductive MergeTask :=
| mergeIntoBuffer (buffer : Buffer) (binaryHeader : BinaryHeader)
    (dataOffset : N) (parsed : BinaryResult)
| mergeParsedResults (buffer : Buffer) (binaryHeader : BinaryHeader)
    (dataOffset : N) (parsed : list BinaryResult).

Definition set_dataOffset (o : N) (h : BinaryHeader) : BinaryHeader :=
  {| bh_columns := bh_columns h; bh_names := bh_names h;
     bh_rowCount := bh_rowCount h; bh_rowLength := bh_rowLength h;
     bh_dataLength := bh_dataLength h; bh_dataOffset := o |}.

(** The loop of the shared-memory path, from chunk to chunk:
    [dataOffset += chunks[i].header.rowCount * binaryHeader.rowLength]. *)
Fixpoint merge_tasks (buffer : Buffer) (binaryHeader : BinaryHeader)
    (dataOffset : N) (chunks : list BinaryResult) : list MergeTask :=
  match chunks with
  | [] => []
  | chunk :: chunks' =>
      mergeIntoBuffer buffer binaryHeader dataOffset chunk ::
      merge_tasks buffer binaryHeader
        (dataOffset + ch_rowCount (br_header chunk) * bh_rowLength binaryHeader)
        chunks'
  end.

Definition is_shared (b : Buffer) : bool :=
  match b with SharedArrayBuffer _ => true | ArrayBuffer _ => false end.

Record Merged := {
  mg_header : BinaryHeader;
  mg_buffer : Buffer;
  mg_tasks : list MergeTask;
}.

Section MergeChunksIntoBuffer.
(** The module constant [supportsSharedMemory]. *)
Variable supportsSharedMemory : bool.

Definition mergeChunksIntoBuffer (chunks : list BinaryResult)
    (binaryHeader : BinaryHeader) (config : Config) : Merged :=
  let '(buffer, binaryHeader) :=
    match output config with
    | Some {| out_buffer := Some buffer; out_offset := offset |} =>
        (buffer, if (offset =? 0)%N then binaryHeader
                 else set_dataOffset offset binaryHeader)
    | _ =>
        (if supportsSharedMemory
         then SharedArrayBuffer (bh_dataLength binaryHeader)
         else ArrayBuffer (bh_dataLength binaryHeader), binaryHeader)
    end in
  let dataOffset := bh_dataOffset binaryHeader in
  if supportsSharedMemory && is_shared buffer then
    {| mg_header := binaryHeader; mg_buffer := buffer;
       mg_tasks := merge_tasks buffer binaryHeader dataOffset chunks |}
  else
    {| mg_header := binaryHeader; mg_buffer := buffer;
       mg_tasks := [mergeParsedResults buffer binaryHeader dataOffset chunks] |}.

End MergeChunksIntoBuffer.

(** Modelled from the spec: the write region of a merge task,
    "[offset, offset + rowCount × rowLength)". *)
Definition write_region (t : MergeTask) : N * N :=
  match t with
  | mergeIntoBuffer _ h o parsed =>
      (o, o + ch_rowCount (br_header parsed) * bh_rowLength h)%N
  | mergeParsedResults _ h o parsed =>
      (o, o + foldr (fun c acc => ch_rowCount (br_header c) + acc) 0 parsed
              * bh_rowLength h)%N
  end.

(** ** combineTypedArrays and combineBuffers *)

(** [new ArrayBuffer(length)]: [length] bytes, all 0. *)
Definition new_ArrayBuffer (length : nat) : list byte := replicate length x00.

(** [view.set(source, offset)] on a [Uint8Array]: the bytes of [source]
    over those of [view] from [offset] on.  [None] is the RangeError of a
    source that does not fit. *)
Definition uint8_set (view source : list byte) (offset : nat) : option (list byte) :=
  if offset + length source <=? length view
  then Some (take offset view ++ source ++ drop (offset + length source) view)
  else None.

(** The second loop of both functions, from [off] on:
    [view.set(views[i], off); off += views[i].byteLength]. *)
Fixpoint copy_views (views : list (list byte)) (view : list byte) (off : nat)
    : option (list byte) :=
  match views with
  | [] => Some view
  | v :: views' =>
      match uint8_set view v off with
      | None => None
      | Some view' => copy_views views' view' (off + length v)
      end
  end.

(** A buffer is its bytes; [new Uint8Array(buffer)] views all of them. *)
Definition combineBuffers (buffers : list (list byte)) : option (list byte) :=
  let views := buffers in
  let length := foldl (fun length buffer => length + List.length buffer) 0 buffers in
  let buffer := new_ArrayBuffer length in
  copy_views views buffer 0.

(** A typed array: whether it is a [Uint8Array], its buffer, and the window
    [byteOffset], [byteLength] it shows of it. *)
Record TypedArray := {
  ta_isUint8 : bool;
  ta_buffer : list byte;
  ta_byteOffset : nat;
  ta_byteLength : nat;
}.

(** The bytes a [Uint8Array] on the window of [a] shows: the array itself
    when it is one, [new Uint8Array(a.buffer, a.byteOffset, a.byteLength)]
    otherwise. *)
Definition ta_bytes (a : TypedArray) : list byte :=
  take (ta_byteLength a) (drop (ta_byteOffset a) (ta_buffer a)).

Definition as_Uint8Array (a : TypedArray) : TypedArray :=
  if ta_isUint8 a then a
  else {| ta_isUint8 := true; ta_buffer := ta_buffer a;
          ta_byteOffset := ta_byteOffset a; ta_byteLength := ta_byteLength a |}.

(** The second loop with typed arrays as sources: a source is copied as the
    bytes it shows and [off] moves by its [byteLength]. *)
Fixpoint copy_arrays (views : list TypedArray) (view : list byte) (off : nat)
    : option (list byte) :=
  match views with
  | [] => Some view
  | v :: views' =>
      match uint8_set view (ta_bytes v) off with
      | None => None
      | Some view' => copy_arrays views' view' (off + ta_byteLength v)
      end
  end.

Definition combineTypedArrays (arrays : list TypedArray) : option (list byte) :=
  let views := map as_Uint8Array arrays in
  let length := foldl (fun length a => length + ta_byteLength a) 0 arrays in
  let buffer := new_ArrayBuffer length in
  copy_arrays views buffer 0.

(** ** writeOptionsToBuffer *)

(** The byte with the value [z mod 256]. *)
Definition byte_of_Z (z : Z) : byte :=
  default x00 (Byte.of_N (Z.to_N (z mod 256))).

(** The four bytes [setUint32] stores for [value] in little-endian order:
    those of [value] modulo [2^32]. *)
Definition uint32_le (value : Z) : list byte :=
  let v := (value mod 2 ^ 32)%Z in
  [byte_of_Z v; byte_of_Z (v / 2 ^ 8); byte_of_Z (v / 2 ^ 16); byte_of_Z (v / 2 ^ 24)].

(** [view.setUint32(byteOffset, value, true)]; [None] is the RangeError of
    four bytes that do not fit. *)
Definition setUint32_le (view : list byte) (byteOffset : nat) (value : Z)
    : option (list byte) :=
  if byteOffset + 4 <=? length view
  then Some (take byteOffset view ++ uint32_le value ++ drop (byteOffset + 4) view)
  else None.

(** The loop over [options], from [offset] on. *)
Fixpoint write_options (view : list byte) (ptr offset : nat) (options : list Z)
    : option (list byte * nat) :=
  match options with
  | [] => Some (view, offset)
  | option :: options' =>
      match setUint32_le view (ptr + offset) option with
      | None => None
      | Some view' => write_options view' ptr (offset + 4) options'
      end
  end.

(** The view as the call leaves it and the offset it returns. *)
Definition writeOptionsToBuffer (view : list byte) (ptr : nat) (options : list Z)
    : option (list byte * nat) :=
  write_options view ptr 0 options.

(** ** Vocabulary of the statements *)

(** Fields closed by a separator, one after the other from [start]: each
    begins where the one before ended plus the separator, and the byte that
    follows it is a separator.  The value is where the next field starts. *)
Fixpoint separated (view : list byte) (sep : option N) (start : nat)
    (fs : list Field) : option nat :=
  match fs with
  | [] => Some start
  | f :: fs' =>
      if (f_offset f =? start) &&
         match view !! (f_offset f + f_length f) with
         | Some c => is_code sep c
         | None => false
         end
      then separated view sep (f_offset f + f_length f + 1) fs'
      else None
  end.

(** The name the specification gives a header column: the value trimmed,
    without the surrounding pair of qualifiers when it has one. *)
Definition strip_pair (q s : list ascii) : list ascii :=
  let mid := take (length s - 2 * length q) (drop (length q) s) in
  if bool_decide (s = q ++ mid ++ q) then mid else s.

Definition spec_name (config : Config) (view : list byte) (col : Field) : string :=
  string_of_list_ascii
    (strip_pair (list_ascii_of_string (qualifier config))
       (trim (fromCharCode (field_bytes view col)))).

(** What the results report for the boundary between window [i] and the
    window after it, all told. *)
Fixpoint boundary_shift (rs : list OffsetsResult) (i : nat) : Z :=
  match rs with
  | [] => 0%Z
  | r :: rs' =>
      ((if (or_index r =? i)%nat then or_offset r else 0) + boundary_shift rs' i)%Z
  end.

(** A column after the elementwise reduction over the chunks: the least of
    the minimum lengths, the greatest of the maximum lengths, the sums of
    the four counters. *)
Definition reduced_column (results : list AnalyzeResult) (ii : nat)
    (c : ColumnStat) : ColumnStat :=
  let entry k := map (fun r => ar_columns r !! (6 * ii + k)) results in
  {| name := name c;
     minLength := foldl js_min (minLength c) (entry 0);
     maxLength := foldl js_max (maxLength c) (entry 1);
     emptyCount := foldl js_add (emptyCount c) (entry 5);
     stringCount := foldl js_add (stringCount c) (entry 4);
     intCount := foldl js_add (intCount c) (entry 2);
     floatCount := foldl js_add (floatCount c) (entry 3) |}.

Definition sum_Z (l : list Z) : Z := foldr Z.add 0%Z l.

Definition sum_N (l : list N) : N := foldr N.add 0%N l.

(** The width a chunk observed for column [i], and the greatest of them
    over the chunks, from [w] up. *)
Definition chunk_width (i : nat) (r : BinaryResult) : N :=
  default 0%N (ch_lengths (br_header r) !! i).

Definition greatest_width (results : list BinaryResult) (w : N) (i : nat) : N :=
  foldl N.max w (map (chunk_width i) results).

(** A byte offset inside a region [[from, to)]. *)
Definition in_region (x : N) (region : N * N) : Prop :=
  (region.1 <= x < region.2)%N.

(** The bytes the chunks before chunk [i] take in the merged buffer. *)
Definition bytes_before (rowLength : N) (chunks : list BinaryResult) (i : nat) : N :=
  sum_N (map (fun c => ch_rowCount (br_header c) * rowLength)%N (take i chunks)).

(** The rows of the source in source order, as (chunk, row) pairs, for
    chunks with the row counts [rows]: all the rows of chunk 0 in row order,
    then all the rows of chunk 1, and so on. *)
Definition source_rows (rows : list nat) : list (nat * nat) :=
  concat (imap (fun chunk count => map (pair chunk) (seq 0 count)) rows).

(** The calls of the row callback the specification asks for: one per row,
    in source order, the second argument the position of the row. *)
Definition expected_calls (rows : list nat) : list Call :=
  imap (fun index cr => {| call_chunk := cr.1; call_row := cr.2;
                           call_index := index |})
       (source_rows rows).

(** How many of [n] tasks have been scheduled once [c] chunks are
    consumed: one per worker at the start, one more per chunk consumed. *)
Definition scheduled (n workers c : nat) : nat := Nat.min n (c + workers).

(** The state of the iterator when the chunks before [c] are consumed and
    no other: the tasks from [scheduled c] on wait in [tasks]; the calls made
    are those of the rows of the chunks before [c]; every task from [c] to
    [scheduled c] is either still with the pool, once, or answered and kept
    in [results]; and [resolve] has run if and only if every chunk is
    consumed. *)
Record consumed (parseBlob : ParseOptions → LoadResult) (workers : nat)
    (tasks0 : list ParseOptions) (c : nat) (st : Iter) : Prop := {
  cs_tasks : it_tasks st = drop (scheduled (length tasks0) workers c) tasks0;
  cs_calls :
    it_calls st
    = expected_calls (take c (map (fun o => lr_rowCount (parseBlob o)) tasks0));
  cs_index : it_index st = length (it_calls st);
  cs_pending : ∀ k o,
    it_pending st !! k = Some (Some o) →
    tasks0 !! po_index o = Some o ∧
    c ≤ po_index o < scheduled (length tasks0) workers c ∧
    it_results st !! po_index o = None;
  cs_unique : ∀ k1 k2 o1 o2,
    it_pending st !! k1 = Some (Some o1) →
    it_pending st !! k2 = Some (Some o2) →
    po_index o1 = po_index o2 → k1 = k2;
  cs_results : ∀ i r,
    it_results st !! i = Some r →
    c ≤ i < scheduled (length tasks0) workers c ∧
    ∃ o, tasks0 !! i = Some o ∧ r = parseBlob o;
  cs_cover : ∀ i,
    c ≤ i < scheduled (length tasks0) workers c →
    (∃ k o, it_pending st !! k = Some (Some o) ∧ po_index o = i) ∨
    is_Some (it_results st !! i);
  cs_bound : c ≤ length tasks0;
  cs_resolved : it_resolved st = true ↔ 1 ≤ length tasks0 ∧ c = length tasks0;
}.

(** Between two answers of the pool: the chunks before [blobIndex] are
    consumed and [results] holds nothing for [blobIndex]. *)
Definition quiescent (parseBlob : ParseOptions → LoadResult) (workers : nat)
    (tasks0 : list ParseOptions) (st : Iter) : Prop :=
  consumed parseBlob workers tasks0 (it_blobIndex st) st ∧
  it_results st !! it_blobIndex st = None.

(** The tasks that have not been answered: those waiting and those with the
    pool. *)
Definition unanswered (st : Iter) : nat :=
  length (it_tasks st) + length (it_pending st).

(** A turn of the [while] loop of [handleResult] on the buffered result
    [r] of the chunk at [blobIndex]. *)
Definition consume (blobs : list Blob) (st : Iter) (r : LoadResult) : Iter :=
  let st2 := invokeIterator blobs st r in
  schedule_next (set_results (delete (it_blobIndex st2) (it_results st2)) st2).

(** A byte that is a qualifier, or neither a separator nor a line-break. *)
Definition inert (sep qual lb : option N) (c : byte) : Prop :=
  is_code qual c = true ∨ (is_code sep c = false ∧ is_code lb c = false).

(** Two accumulators with the same header and the same aggregate. *)
Definition same_tallies (a a' : Analysis) : Prop :=
  an_header a = an_header a' ∧ an_meta a = an_meta a'.

(** The width of column [k] of [cols], 0 when there is no such column. *)
Definition column_width (cols : list BinaryColumn) (k : nat) : N :=
  default 0%N (bc_length <$> cols !! k).

(** The value of a byte. *)
Definition Z_of_byte (b : byte) : Z := Z.of_N (Byte.to_N b).

(** [view.getUint32(byteOffset, true)]: the number the four bytes from
    [byteOffset] on spell in little-endian order; [None] when there are no
    four bytes there. *)
Definition getUint32_le (view : list byte) (byteOffset : nat) : option Z :=
  match take 4 (drop byteOffset view) with
  | [b0; b1; b2; b3] =>
      Some (Z_of_byte b0 + 2 ^ 8 * Z_of_byte b1 + 2 ^ 16 * Z_of_byte b2
            + 2 ^ 24 * Z_of_byte b3)%Z
  | _ => None
  end.

(** A typed array shows bytes its buffer has. *)
Definition ta_wf (a : TypedArray) : Prop :=
  ta_byteOffset a + ta_byteLength a ≤ length (ta_buffer a).

(** A field none of whose bytes is a separator or a line-break. *)
Definition plain_field (view : list byte) (sep lb : option N) (f : Field) : Prop :=
  ∀ k c, f_offset f ≤ k < f_offset f + f_length f → view !! k = Some c →
         is_code sep c = false ∧ is_code lb c = false.

(** A column whose six statistics are numbers: none is [NaN]. *)
Definition column_numbers (c : ColumnStat) : Prop :=
  is_Some (minLength c) ∧ is_Some (maxLength c) ∧ is_Some (emptyCount c) ∧
  is_Some (stringCount c) ∧ is_Some (intCount c) ∧ is_Some (floatCount c).

(** What the iterator holds of the source at one time: the tasks with the
    pool and the results kept for later. *)
Definition in_flight (st : Iter) : nat :=
  length (it_pending st) + size (it_results st).

(** An iterator that has called nothing, has not resolved and has given
    the pool nothing but tasks without options. *)
Definition idle (st : Iter) : Prop :=
  it_resolved st = false ∧ it_calls st = [] ∧ it_tasks st = [] ∧
  Forall (fun task => task = None) (it_pending st).

(** * Properties *)

(** ** readRow *)

Section ReadRowFacts.
Variable view : list byte.
Variables sep qual lb : option N.

Lemma separated_snoc start fs next f :
  separated view sep start fs = Some next →
  f_offset f = next →
  (∃ c, view !! (f_offset f + f_length f) = Some c ∧ is_code sep c = true) →
  separated view sep start (fs ++ [f]) = Some (f_offset f + f_length f + 1).
Proof.
  revert start. induction fs as [|g fs IH]; simpl; intros start Hs Hf [c [Hc Hsep]].
  - injection Hs as Hs. subst. rewrite Nat.eqb_refl. simpl.
    rewrite Hc, Hsep. reflexivity.
  - destruct (_ && _); [|discriminate]. apply IH; eauto.
Qed.

(** The loop needs no more fuel than the bytes that are left. *)
Lemma readRow_loop_fuel fuel extra i s :
  length view - i ≤ fuel →
  readRow_loop view sep qual lb (fuel + extra) i s
  = readRow_loop view sep qual lb fuel i s.
Proof.
  revert i s. induction fuel as [|fuel IH]; intros i s Hlen.
  - assert (view !! i = None) as Hnone by (apply lookup_ge_None; lia).
    destruct extra; simpl; [reflexivity|]. rewrite Hnone. reflexivity.
  - simpl. destruct (view !! i) as [c|] eqn:Hc; [|reflexivity].
    destruct (readRow_body view sep qual lb i c s); [|reflexivity].
    apply IH. lia.
Qed.

(** What the loop keeps true: the collector grows by fields closed by a
    separator, the open field starts after the last of them, and the loop
    is left either at a line-break byte or at the end of the view. *)
Lemma readRow_loop_inv offset result fuel :
  ∀ i s seps,
    i + fuel = length view →
    offset ≤ i →
    separated view sep offset seps = Some (fieldOffset s) →
    fieldOffset s ≤ i →
    collector s = result ++ seps →
    match readRow_loop view sep qual lb fuel i s with
    | (j, Return r s') =>
        ∃ seps' next c,
          separated view sep offset seps' = Some next ∧ next ≤ j ∧ offset ≤ j ∧
          view !! j = Some c ∧ is_code lb c = true ∧ r = j + 1 ∧
          collector s' = result ++ seps' ++ [{| f_offset := next; f_length := j - next |}]
    | (j, Continue s') =>
        j = length view ∧
        ∃ seps',
          separated view sep offset seps' = Some (fieldOffset s') ∧
          fieldOffset s' ≤ j ∧ collector s' = result ++ seps'
    end.
Proof.
  induction fuel as [|fuel IH]; intros i s seps Hlen Hoff Hsep Hfo Hcol.
  - simpl. split; [lia|]. eauto.
  - simpl. destruct (view !! i) as [c|] eqn:Hc.
    2:{ apply lookup_ge_None in Hc. lia. }
    unfold readRow_body.
    destruct (is_code qual c) eqn:Hq.
    { repeat match goal with
             | |- context [if ?b then _ else _] => destruct b
             end;
        (apply (IH (S i) _ seps); simpl; [lia | lia | assumption | lia | assumption]). }
    destruct (is_code sep c && negb (isInQuotes s)) eqn:Hs.
    { apply andb_prop in Hs as [Hs _].
      apply (IH (S i) _ (seps ++ [{| f_offset := fieldOffset s; f_length := i - fieldOffset s |}]));
        simpl; [lia | lia | | lia | ].
      - replace (S i) with (fieldOffset s + (i - fieldOffset s) + 1) at 2 by lia.
        replace (i + 1) with (fieldOffset s + (i - fieldOffset s) + 1) by lia.
        apply (separated_snoc offset seps (fieldOffset s)); simpl; auto.
        exists c. replace (fieldOffset s + (i - fieldOffset s)) with i by lia. auto.
      - rewrite Hcol, app_assoc. reflexivity. }
    destruct (is_code lb c && negb (isInQuotes s)) eqn:Hl.
    { apply andb_prop in Hl as [Hl Hin].
      destruct (isInQuotes s); [discriminate|].
      exists seps, (fieldOffset s), c. simpl.
      repeat split; auto. rewrite Hcol, app_assoc. reflexivity. }
    apply (IH (S i) _ seps); [lia | lia | assumption | lia | assumption].
Qed.

End ReadRowFacts.

Section ScanFacts.
Variable view : list byte.
Variables sep qual lb : option N.

(** A scan that has read [a] bytes and goes on reads the rest from the
    state it is in. *)
Lemma readRow_loop_reaches a b :
  ∀ i s j s',
    readRow_loop view sep qual lb a i s = (j, Continue s') →
    j = i + a →
    readRow_loop view sep qual lb (a + b) i s
    = readRow_loop view sep qual lb b j s'.
Proof.
  induction a as [|a IH]; intros i s j s' H Hj; simpl in H.
  - injection H as <- <-. reflexivity.
  - simpl. destruct (view !! i) as [c|]; [|injection H as Hi _; lia].
    destruct (readRow_body view sep qual lb i c s) as [s1|ret s1];
      [|discriminate].
    apply IH; [assumption|lia].
Qed.

(** Over bytes that are neither qualifiers nor line-breaks, read outside
    quotes, the scan goes on outside quotes and reports nothing; the fields
    it pushes and the field it leaves open hold no separator and no
    line-break. *)
Lemma readRow_loop_plain_prefix (result : list Field) a :
  ∀ i s pushed,
    isInQuotes s = false → fieldOffset s ≤ i →
    collector s = result ++ pushed →
    Forall (plain_field view sep lb) pushed →
    (∀ k c, fieldOffset s ≤ k < i → view !! k = Some c →
            is_code sep c = false ∧ is_code lb c = false) →
    (∀ k, i ≤ k < i + a →
          ∃ c, view !! k = Some c ∧ is_code qual c = false ∧ is_code lb c = false) →
    ∃ s' pushed',
      readRow_loop view sep qual lb a i s = (i + a, Continue s') ∧
      isInQuotes s' = false ∧ fieldOffset s' ≤ i + a ∧
      console s' = console s ∧
      collector s' = result ++ pushed' ∧
      Forall (plain_field view sep lb) pushed' ∧
      (∀ k c, fieldOffset s' ≤ k < i + a → view !! k = Some c →
              is_code sep c = false ∧ is_code lb c = false).
Proof.
  induction a as [|a IH]; intros i s pushed Hin Hfo Hcol Hall Hopen Hbytes.
  - exists s, pushed. rewrite Nat.add_0_r. simpl. auto 10.
  - destruct (Hbytes i ltac:(lia)) as (c & Hc & Hq & Hl).
    simpl. rewrite Hc. unfold readRow_body. rewrite Hq, Hl, Hin. simpl.
    replace (i + S a) with (S i + a) by lia.
    destruct (is_code sep c) eqn:Hs; simpl.
    + destruct (IH (S i) (set_fieldOffset (i + 1) (push_field i s))
                  (pushed ++ [{| f_offset := fieldOffset s;
                                 f_length := i - fieldOffset s |}]))
        as (s' & pushed' & H1 & H2 & H3 & H4 & H5); simpl.
      * assumption.
      * lia.
      * rewrite Hcol, app_assoc. reflexivity.
      * apply Forall_app. split; [assumption|]. constructor; [|constructor].
        intros k c' Hk Hc'. simpl in Hk. apply (Hopen k c'); [lia|assumption].
      * intros k c' Hk. lia.
      * intros k Hk. apply Hbytes. lia.
      * exists s', pushed'. auto.
    + apply (IH (S i) s pushed); try assumption.
      * lia.
      * intros k c' Hk Hc'. destruct (decide (k = i)) as [->|Hne].
        -- rewrite Hc in Hc'. injection Hc' as <-. auto.
        -- apply (Hopen k c'); [lia|assumption].
      * intros k Hk. apply Hbytes. lia.
Qed.

End ScanFacts.

(** The scan that reaches a line-break byte outside quotes ends the row
    there. *)
Lemma readRow_at_linebreak view offset result config j s c :
  let sep := charCodeAt0 (separator config) in
  let qual := charCodeAt0 (qualifier config) in
  let lb := charCodeAt0 (linebreak config) in
  offset ≤ j →
  readRow_loop view sep qual lb (j - offset) offset
    {| fieldOffset := offset; isInQuotes := false;
       collector := result; console := [] |} = (j, Continue s) →
  isInQuotes s = false →
  view !! j = Some c →
  is_code lb c = true → is_code qual c = false → is_code sep c = false →
  readRow view offset result config
  = {| row_ret := j + 1;
       row_fields := collector s ++
         [{| f_offset := fieldOffset s; f_length := j - fieldOffset s |}];
       row_console := console s |}.
Proof.
  intros sep qual lb Hj Hreach Hin Hc Hl Hq Hs. unfold readRow. fold sep qual lb.
  pose proof (lookup_lt_Some _ _ _ Hc) as Hlt.
  replace (length view - offset) with ((j - offset) + S (length view - S j)) by lia.
  rewrite (readRow_loop_reaches view sep qual lb _ _ _ _ _ _ Hreach) by lia.
  cbn [readRow_loop]. rewrite Hc.
  unfold readRow_body. rewrite Hq, Hs, Hl, Hin. reflexivity.
Qed.

(** C9.  From an offset inside the view, [readRow] returns the offset just
    past the line-break byte that ended the row, the collector then ending
    with the field that line-break closed, or it returns the end of the view,
    as it does when no byte from the offset on is a line-break; in that case
    the field left open is pushed if and only if its length since the last
    field start is not zero.  The line-break that ends the row is the first
    one the scan reads outside quotes: the row ends just past it, with the
    field it closes pushed after those the scan had pushed.  In a row
    without qualifiers that is the first line-break byte, and the fields
    pushed, the one left open at the end of the view among them, hold no
    separator and no line-break byte. *)
Theorem readRow_offset_and_trailing_field
    (view : list byte) (offset : nat) (result : list Field) (config : Config) :
  offset ≤ length view →
  let sep := charCodeAt0 (separator config) in
  let qual := charCodeAt0 (qualifier config) in
  let lb := charCodeAt0 (linebreak config) in
  let r := readRow view offset result config in
  (∃ seps next,
     separated view sep offset seps = Some next ∧
     ((∃ j c, offset ≤ j ∧ next ≤ j ∧ view !! j = Some c ∧ is_code lb c = true ∧
              row_ret r = j + 1 ∧
              row_fields r
              = result ++ seps ++ [{| f_offset := next; f_length := j - next |}])
      ∨
      (row_ret r = length view ∧ next ≤ length view ∧
       row_fields r
       = result ++ seps ++
         if decide (length view - next = 0) then []
         else [{| f_offset := next; f_length := length view - next |}]))) ∧
  ((∀ j c, offset ≤ j → view !! j = Some c → is_code lb c = false) →
   row_ret r = length view) ∧
  (∀ j s c,
     offset ≤ j →
     readRow_loop view sep qual lb (j - offset) offset
       {| fieldOffset := offset; isInQuotes := false;
          collector := result; console := [] |} = (j, Continue s) →
     isInQuotes s = false →
     view !! j = Some c →
     is_code lb c = true → is_code qual c = false → is_code sep c = false →
     row_ret r = j + 1 ∧
     row_fields r
     = collector s ++
       [{| f_offset := fieldOffset s; f_length := j - fieldOffset s |}]) ∧
  (∀ j c,
     offset ≤ j →
     (∀ k c', offset ≤ k < j → view !! k = Some c' →
              is_code qual c' = false ∧ is_code lb c' = false) →
     view !! j = Some c →
     is_code lb c = true → is_code qual c = false → is_code sep c = false →
     row_ret r = j + 1 ∧
     ∃ pushed, row_fields r = result ++ pushed ∧
               Forall (plain_field view sep lb) pushed) ∧
  ((∀ k c, offset ≤ k → view !! k = Some c →
           is_code qual c = false ∧ is_code lb c = false) →
   row_ret r = length view ∧
   ∃ pushed, row_fields r = result ++ pushed ∧
             Forall (plain_field view sep lb) pushed).
Proof.
  intros Hoff sep qual lb r.
  match goal with |- ?A ∧ _ => assert A as Hmain end.
  { subst r. unfold readRow.
    pose proof (readRow_loop_inv view sep qual lb
                  offset result (length view - offset) offset
                  {| fieldOffset := offset; isInQuotes := false;
                     collector := result; console := [] |} []) as H.
    simpl in H. rewrite app_nil_r in H.
    specialize (H ltac:(lia) ltac:(lia) eq_refl ltac:(lia) eq_refl).
    fold sep qual lb.
    destruct (readRow_loop _ _ _ _ _ _ _) as [j [s'|ret s']].
    - destruct H as [-> [seps' [Hs [Hle Hc]]]].
      exists seps', (fieldOffset s'). split; [assumption|]. right.
      destruct (fieldOffset s' <? length view) eqn:Hlt; simpl.
      + apply Nat.ltb_lt in Hlt. split; [reflexivity|]. split; [lia|].
        rewrite Hc. destruct (decide _); [lia|]. rewrite app_assoc. reflexivity.
      + apply Nat.ltb_ge in Hlt. split; [reflexivity|]. split; [lia|].
        rewrite Hc. destruct (decide _); [|lia]. rewrite app_nil_r. reflexivity.
    - destruct H as (seps' & next & c & Hs & Hle & Hoj & Hc & Hlb & -> & Hcol).
      exists seps', next. split; [assumption|]. left.
      exists j, c. simpl. auto 10. }
  assert ((∀ j c, offset ≤ j → view !! j = Some c → is_code lb c = false) →
          row_ret r = length view) as Hnone.
  { intros Hnone.
    destruct Hmain as (seps & next & _ & [(j & c & Hj & _ & Hc & Hlb & _)|(H & _)]);
      [|exact H].
    rewrite (Hnone j c Hj Hc) in Hlb. discriminate. }
  split; [exact Hmain|]. split; [exact Hnone|]. split; [|split].
  - intros j s c Hj Hreach Hin Hc Hl Hq Hs. subst r.
    rewrite (readRow_at_linebreak view offset result config j s c
               Hj Hreach Hin Hc Hl Hq Hs). split; reflexivity.
  - intros j c Hj Hplain Hc Hl Hq Hs.
    destruct (readRow_loop_plain_prefix view sep qual lb result (j - offset) offset
                {| fieldOffset := offset; isInQuotes := false;
                   collector := result; console := [] |} [])
      as (s & pushed & Hreach & Hin & Hfo & _ & Hcol & Hall & Hopen);
      try reflexivity; simpl.
    + rewrite app_nil_r. reflexivity.
    + constructor.
    + intros k c' Hk. lia.
    + intros k Hk.
      destruct (lookup_lt_is_Some_2 view k) as [c' Hc'];
        [apply lookup_lt_Some in Hc; lia|].
      exists c'. split; [assumption|]. apply (Hplain k c'); [lia|assumption].
    + replace (offset + (j - offset)) with j in * by lia. subst r.
      rewrite (readRow_at_linebreak view offset result config j s c
                 Hj Hreach Hin Hc Hl Hq Hs). simpl. split; [reflexivity|].
      exists (pushed ++ [{| f_offset := fieldOffset s;
                            f_length := j - fieldOffset s |}]).
      rewrite Hcol, app_assoc. split; [reflexivity|].
      apply Forall_app. split; [assumption|]. constructor; [|constructor].
      intros k c' Hk Hc'. simpl in Hk. apply (Hopen k c'); [lia|assumption].
  - intros Hplain. split.
    { apply Hnone. intros j c Hj Hc. apply (Hplain j c Hj Hc). }
    destruct (readRow_loop_plain_prefix view sep qual lb result
                (length view - offset) offset
                {| fieldOffset := offset; isInQuotes := false;
                   collector := result; console := [] |} [])
      as (s & pushed & Hreach & Hin & Hfo & _ & Hcol & Hall & Hopen);
      try reflexivity; simpl.
    + rewrite app_nil_r. reflexivity.
    + constructor.
    + intros k c' Hk. lia.
    + intros k Hk.
      destruct (lookup_lt_is_Some_2 view k) as [c' Hc']; [lia|].
      exists c'. split; [assumption|]. apply (Hplain k c'); [lia|assumption].
    + subst r. unfold readRow. fold sep qual lb. rewrite Hreach.
      destruct (fieldOffset s <? offset + (length view - offset)) eqn:E; simpl.
      * exists (pushed ++ [{| f_offset := fieldOffset s;
                              f_length := offset + (length view - offset)
                                          - fieldOffset s |}]).
        rewrite Hcol, app_assoc. split; [reflexivity|].
        apply Forall_app. split; [assumption|]. constructor; [|constructor].
        intros k c' Hk Hc'. simpl in Hk. apply (Hopen k c'); [lia|assumption].
      * exists pushed. auto.
Qed.

Lemma readRow_offset_and_trailing_field_witness :
  let view := [x61; x2c; x62; x0a; x63; x2c; x64] in
  (0 ≤ length view ∧ 4 ≤ length view) ∧
  row_ret (readRow view 0 [] defaultConfig) = 4 ∧
  row_ret (readRow view 4 [] defaultConfig) = 7.
Proof.
  intros view. split; [simpl; lia|]. split.
  - destruct (readRow_offset_and_trailing_field view 0 [] defaultConfig
                ltac:(simpl; lia)) as (_ & _ & _ & Hplain & _).
    apply (Hplain 3 x0a); try reflexivity; [lia|].
    intros k c' Hk Hc'.
    destruct k as [|[|[|k]]]; try lia; injection Hc' as <-; split; reflexivity.
  - destruct (readRow_offset_and_trailing_field view 4 [] defaultConfig
                ltac:(simpl; lia)) as (_ & Hnone & _).
    apply Hnone. intros j c Hj Hc.
    do 4 (destruct j as [|j]; [lia|]).
    do 3 (destruct j as [|j]; [injection Hc as <-; reflexivity|]).
    discriminate.
Defined.

(** The two rows of a view, read one after the other: the first ends at the
    line-break, the second at the end of the view with its open field
    pushed. *)
Example readRow_two_rows :
  readRow [x61; x2c; x62; x0a; x63; x2c; x64] 0 [] defaultConfig
  = {| row_ret := 4;
       row_fields := [{| f_offset := 0; f_length := 1 |};
                      {| f_offset := 2; f_length := 1 |}];
       row_console := [] |} ∧
  readRow [x61; x2c; x62; x0a; x63; x2c; x64] 4 [] defaultConfig
  = {| row_ret := 7;
       row_fields := [{| f_offset := 4; f_length := 1 |};
                      {| f_offset := 6; f_length := 1 |}];
       row_console := [] |} ∧
  readRow [x61; x2c; x62; x0a; x63; x2c] 4 [] defaultConfig
  = {| row_ret := 6;
       row_fields := [{| f_offset := 4; f_length := 1 |}];
       row_console := [] |}.
Proof. repeat split. Qed.

(** An offset past the end of the view comes back as it is. *)
Lemma readRow_past_the_view view offset result config :
  length view < offset →
  readRow view offset result config
  = {| row_ret := offset; row_fields := result; row_console := [] |}.
Proof.
  intros H. unfold readRow.
  replace (length view - offset) with 0 by lia. simpl.
  rewrite Nat.ltb_irrefl. reflexivity.
Qed.

Section QuotingFacts.
Variable view : list byte.
Variables sep qual lb : option N.

(** The branch that would report an unterminated qualifier is never
    taken: it sits under [!isInQuotes] and asks for [isInQuotes]. *)
Lemma readRow_body_console i c s :
  UnterminatedQualifier ∉ console s →
  match readRow_body view sep qual lb i c s with
  | Continue s' | Return _ s' => UnterminatedQualifier ∉ console s'
  end.
Proof.
  intros H. unfold readRow_body.
  repeat match goal with
         | |- context [if ?b then _ else _] => destruct b eqn:?
         end; simpl; try assumption;
    try (rewrite elem_of_app, list_elem_of_singleton; intros [?|?]; [auto|discriminate]).
  match goal with
  | Hn : _ && negb true = true |- _ => rewrite andb_false_r in Hn; discriminate
  end.
Qed.

Lemma readRow_loop_console fuel i s :
  UnterminatedQualifier ∉ console s →
  match (readRow_loop view sep qual lb fuel i s).2 with
  | Continue s' | Return _ s' => UnterminatedQualifier ∉ console s'
  end.
Proof.
  revert i s. induction fuel as [|fuel IH]; intros i s H; simpl; [assumption|].
  destruct (view !! i) as [c|]; simpl; [|assumption].
  pose proof (readRow_body_console i c s H) as Hb.
  destruct (readRow_body view sep qual lb i c s); simpl; [|assumption].
  apply IH. assumption.
Qed.

(** In the open field, the first byte of a doubled qualifier changes
    nothing: quoting stays as it is, nothing is pushed or reported. *)
Lemma readRow_body_doubled i c next s :
  is_code qual c = true →
  i ≠ fieldOffset s →
  view !! (i + 1) = Some next →
  is_code qual next = true →
  readRow_body view sep qual lb i c s = Continue s.
Proof.
  intros Hc Hi Hn Hq. unfold readRow_body.
  rewrite Hc, Hn, Hq. apply Nat.eqb_neq in Hi. rewrite Hi. reflexivity.
Qed.

(** An inert byte leaves the open field and the collector as they are. *)
Lemma readRow_body_inert i c s :
  inert sep qual lb c →
  ∃ s', readRow_body view sep qual lb i c s = Continue s' ∧
        fieldOffset s' = fieldOffset s ∧ collector s' = collector s.
Proof.
  intros [Hq|[Hs Hl]]; unfold readRow_body.
  - rewrite Hq.
    repeat match goal with
           | |- context [if ?b then _ else _] => destruct b
           end; eexists; (split; [reflexivity|split; reflexivity]).
  - rewrite Hs, Hl. simpl. destruct (is_code qual c).
    + repeat match goal with
             | |- context [if ?b then _ else _] => destruct b
             end; eexists; (split; [reflexivity|split; reflexivity]).
    + eexists; (split; [reflexivity|split; reflexivity]).
Qed.

Lemma readRow_loop_inert n :
  ∀ fuel i s,
    (∀ j, i ≤ j < i + n → ∃ c, view !! j = Some c ∧ inert sep qual lb c) →
    ∃ s', readRow_loop view sep qual lb (n + fuel) i s
          = readRow_loop view sep qual lb fuel (i + n) s' ∧
          fieldOffset s' = fieldOffset s ∧ collector s' = collector s.
Proof.
  induction n as [|n IH]; intros fuel i s H.
  - exists s. rewrite Nat.add_0_r. auto.
  - destruct (H i ltac:(lia)) as [c [Hc Hin]].
    destruct (readRow_body_inert i c s Hin) as [s1 (Hb & Hfo & Hcol)].
    destruct (IH fuel (S i) s1) as [s2 (Hl & Hfo2 & Hcol2)].
    { intros j Hj. apply H. lia. }
    exists s2. simpl. rewrite Hc, Hb, Hl.
    replace (S i + n) with (i + S n) by lia.
    split; [reflexivity|]. split; congruence.
Qed.

(** A qualifier inside the open field that no qualifier follows leaves
    quoting closed: it closes it, or it is a rogue one. *)
Lemma readRow_body_closing i c next s :
  is_code qual c = true →
  i ≠ fieldOffset s →
  view !! (i + 1) = Some next →
  is_code qual next = false →
  ∃ s', readRow_body view sep qual lb i c s = Continue s' ∧
        isInQuotes s' = false ∧
        fieldOffset s' = fieldOffset s ∧ collector s' = collector s.
Proof.
  intros Hc Hi Hn Hq. unfold readRow_body.
  rewrite Hc, Hn, Hq. apply Nat.eqb_neq in Hi. rewrite Hi. simpl.
  destruct (isInQuotes s) eqn:Hin; eexists; (split; [reflexivity|]); simpl; auto.
Qed.

(** A line-break outside quotes ends the row. *)
Lemma readRow_body_linebreak i c s :
  is_code qual c = false → is_code sep c = false → is_code lb c = true →
  isInQuotes s = false →
  readRow_body view sep qual lb i c s = Return (i + 1) (push_field i s).
Proof.
  intros Hq Hs Hl Hin. unfold readRow_body. rewrite Hq, Hs, Hl, Hin. reflexivity.
Qed.

End QuotingFacts.

(** Whatever it reads, [readRow] never reports an unterminated qualifier. *)
Lemma readRow_never_reports_unterminated view offset result config :
  UnterminatedQualifier ∉ row_console (readRow view offset result config).
Proof.
  unfold readRow.
  pose proof (readRow_loop_console view (charCodeAt0 (separator config))
                (charCodeAt0 (qualifier config)) (charCodeAt0 (linebreak config))
                (length view - offset) offset
                {| fieldOffset := offset; isInQuotes := false;
                   collector := result; console := [] |}) as H.
  simpl in H. specialize (H ltac:(apply not_elem_of_nil)).
  destruct (readRow_loop _ _ _ _ _ _ _) as [j [s'|r s']]; simpl in *.
  - destruct (_ <? _); assumption.
  - assumption.
Qed.

(** C2.  On the five bytes of a quote, [x,y] and a line-break, the
    line-break does not end the row: the scan runs to the end of the view,
    the one field pushed is all five bytes, line-break included, and nothing
    is reported. *)
Theorem readRow_unterminated_quote_not_closed :
  readRow [x22; x78; x2c; x79; x0a] 0 [] defaultConfig
  = {| row_ret := 5;
       row_fields := [{| f_offset := 0; f_length := 5 |}];
       row_console := [] |}.
Proof. reflexivity. Qed.

(** C3.  A doubled qualifier inside a quoted field does not keep the field
    open.  The escape branch reads the first of the two bytes and goes on
    without moving past the second, which is then read as a qualifier of its
    own and, no qualifier following it, closes quoting.  So in the quoted
    [a], doubled quote, separator, [b] the separator cuts the field in two
    and the last qualifier is reported as a rogue one; and the quoted [a],
    doubled quote, [b] of the specification is one field only because no
    separator stands in it, with the same report.  The fields are the bytes
    of the view as they stand, both quote bytes among them. *)
Theorem readRow_doubled_quote_closes_quoting :
  (∀ (view : list byte) (sep qual lb : option N) (fuel i : nat) (s : Scan)
     (q1 q2 : byte),
     view !! i = Some q1 → view !! (i + 1) = Some q2 →
     is_code qual q1 = true → is_code qual q2 = true →
     (∀ c, view !! (i + 2) = Some c → is_code qual c = false) →
     fieldOffset s < i → isInQuotes s = true →
     readRow_loop view sep qual lb (S (S fuel)) i s
     = readRow_loop view sep qual lb fuel (S (S i)) (set_quotes false s)) ∧
  readRow [x22; x61; x22; x22; x2c; x62; x22; x0a] 0 [] defaultConfig
  = {| row_ret := 8;
       row_fields := [{| f_offset := 0; f_length := 4 |};
                      {| f_offset := 5; f_length := 2 |}];
       row_console := [RogueQualifier] |} ∧
  readRow [x22; x61; x22; x22; x62; x22; x0a] 0 [] defaultConfig
  = {| row_ret := 7;
       row_fields := [{| f_offset := 0; f_length := 6 |}];
       row_console := [RogueQualifier] |} ∧
  map (field_bytes [x22; x61; x22; x22; x62; x22; x0a])
      (row_fields (readRow [x22; x61; x22; x22; x62; x22; x0a] 0 [] defaultConfig))
  = [[x22; x61; x22; x22; x62; x22]].
Proof.
  split; [|repeat split].
  intros view sep qual lb fuel i s q1 q2 H1 H2 Hq1 Hq2 Hnext Hfo Hin.
  assert ((i =? fieldOffset s) = false) as E1 by (apply Nat.eqb_neq; lia).
  assert ((S i =? fieldOffset s) = false) as E2 by (apply Nat.eqb_neq; lia).
  cbn [readRow_loop]. rewrite H1.
  assert (readRow_body view sep qual lb i q1 s = Continue s) as ->.
  { unfold readRow_body. rewrite Hq1, E1, H2, Hq2, Hin. reflexivity. }
  assert (view !! S i = Some q2) as H2' by (rewrite <- H2; f_equal; lia).
  rewrite H2'.
  assert (readRow_body view sep qual lb (S i) q2 s
          = Continue (set_quotes false s)) as ->.
  { unfold readRow_body.
    rewrite Hq2, E2, Hin. replace (S i + 1) with (i + 2) by lia.
    destruct (view !! (i + 2)) as [c|] eqn:Hc; [rewrite (Hnext c eq_refl)|];
      reflexivity. }
  reflexivity.
Qed.

(** ** readHeader *)

Lemma trimStart_spec (s : list ascii) :
  ∃ pre, s = pre ++ trimStart s ∧
         Forall (fun a => is_js_space a = true) pre ∧
         ∀ a, head (trimStart s) = Some a → is_js_space a = false.
Proof.
  induction s as [|a s (pre & Hs & Hpre & Hhead)]; simpl.
  - exists []. split; [reflexivity|]. split; [constructor|intros a H; discriminate].
  - destruct (is_js_space a) eqn:Ha.
    + exists (a :: pre). split; [simpl; congruence|]. split; [constructor; assumption|assumption].
    + exists []. split; [reflexivity|]. split; [constructor|].
      intros a' H. injection H as <-. assumption.
Qed.

(** [trim] takes the white space off both ends and nothing else. *)
Lemma trim_spec (s : list ascii) :
  ∃ pre post,
    s = pre ++ trim s ++ post ∧
    Forall (fun a => is_js_space a = true) pre ∧
    Forall (fun a => is_js_space a = true) post ∧
    (∀ a, head (trim s) = Some a → is_js_space a = false) ∧
    (∀ a, last (trim s) = Some a → is_js_space a = false).
Proof.
  destruct (trimStart_spec s) as (pre & Hs & Hpre & Hhead).
  destruct (trimStart_spec (reverse (trimStart s))) as (post & Hr & Hpost & Hlast).
  unfold trim. set (t := trimStart (reverse (trimStart s))) in *.
  assert (trimStart s = reverse t ++ reverse post) as Ht.
  { rewrite <- reverse_app, <- Hr, reverse_involutive. reflexivity. }
  exists pre, (reverse post).
  split; [rewrite <- Ht; assumption|]. split; [assumption|].
  split; [apply Forall_reverse; assumption|]. split.
  - intros a Ha. apply Hhead. rewrite Ht.
    destruct (reverse t); [discriminate|]. assumption.
  - intros a Ha. apply Hlast. rewrite last_reverse in Ha. assumption.
Qed.

Example trim_example :
  trim (list_ascii_of_string "  a b	 ") = list_ascii_of_string "a b".
Proof. reflexivity. Qed.

Example column_names_example :
  "Column" +:+ pretty 0 = "Column0" ∧ "Column" +:+ pretty 12 = "Column12".
Proof. split; reflexivity. Qed.

Lemma middle_of_pair (q inner : list ascii) :
  take (length (q ++ inner ++ q) - 2 * length q) (drop (length q) (q ++ inner ++ q))
  = inner.
Proof.
  rewrite drop_app_length, !length_app.
  replace (length q + (length inner + length q) - 2 * length q)
    with (length inner) by lia.
  apply take_app_length.
Qed.

(** The pattern matches a value that is the qualifier, one or more
    characters that are no line terminators, and the qualifier; the
    replacement is what stands between.  Any other value is kept. *)
Lemma replace_rx_match q inner :
  inner ≠ [] →
  Forall (fun a => is_line_terminator a = false) inner →
  replace_rx q (q ++ inner ++ q) = inner.
Proof.
  intros Hne Hlt. unfold replace_rx. rewrite middle_of_pair.
  rewrite bool_decide_eq_true_2 by reflexivity.
  rewrite bool_decide_eq_false_2 by assumption.
  replace (forallb _ inner) with true; [reflexivity|].
  symmetry. apply forallb_forall. intros a Ha.
  rewrite Forall_forall in Hlt. rewrite (Hlt a); [reflexivity|].
  apply list_elem_of_In. assumption.
Qed.

Lemma replace_rx_no_match q s :
  (∀ inner, s = q ++ inner ++ q →
            inner = [] ∨ Exists (fun a => is_line_terminator a = true) inner) →
  replace_rx q s = s.
Proof.
  intros H. unfold replace_rx.
  set (inner := take _ _).
  destruct (bool_decide (s = q ++ inner ++ q)) eqn:Hs; [|reflexivity].
  apply bool_decide_eq_true_1 in Hs.
  destruct (H inner Hs) as [He|Hex].
  - rewrite (bool_decide_eq_true_2 _ He). reflexivity.
  - replace (forallb _ inner) with false; [rewrite andb_false_r; reflexivity|].
    symmetry. apply not_true_is_false. intros Hall.
    rewrite forallb_forall in Hall. apply Exists_exists in Hex as [a [Ha Hlt]].
    apply list_elem_of_In in Ha. specialize (Hall a Ha). rewrite Hlt in Hall. discriminate.
Qed.

(** C10.  A header value that is an empty quoted string keeps both
    qualifiers in the name of its column: the pattern asks for one
    character or more between the two, so it does not match the two
    qualifiers alone and [replace] returns them.  The name is then not the
    value with its surrounding pair of qualifiers stripped. *)
Theorem readHeader_empty_quoted_name_kept :
  (∀ q : list ascii, replace_rx q (q ++ q) = q ++ q) ∧
  ∀ RegExp_replace : list ascii → option (list ascii → list ascii),
    let file := {| file_bytes := [x22; x22; x2c; x62; x0a; x31; x2c; x32; x0a] |} in
    let view := file_bytes file in
    let quote := Ascii.ascii_of_byte x22 in
    readHeader RegExp_replace file defaultConfig
    = Some {| hr_header := [new_ColumnStat (String quote (String quote EmptyString));
                            new_ColumnStat "b"];
              hr_offset := 5 |} ∧
    map (spec_name defaultConfig view) (row_fields (readRow view 0 [] defaultConfig))
    = [EmptyString; "b"].
Proof.
  split.
  - intros q. apply replace_rx_no_match. intros inner H. left.
    apply (f_equal length) in H. rewrite !length_app in H.
    destruct inner; [reflexivity|simpl in H; lia].
  - intros RegExp_replace. split; vm_compute; reflexivity.
Qed.

(** For a qualifier that stands for itself in the pattern, [readHeader]
    returns: it reads the first row of the first [min(maxRowSize,
    file.size)] bytes and makes one [ColumnStat] per field of it, with the
    four counters at 0 and the two lengths at the extreme safe integers.
    Without [firstRowHeader] the names are [Column0], [Column1], ... and the
    offset is 0.  With it the offset is what [readRow] returned, and a name
    is the value trimmed, without its surrounding pair of qualifiers when
    one or more characters, none of them a line terminator, stand between
    the two; any other trimmed value is the name as it is. *)
Lemma readHeader_columns
    (RegExp_replace : list ascii → option (list ascii → list ascii))
    (file : File) (config : Config) :
  rx_literal (qualifier config) →
  let view := take (Z.to_nat (Z.min (maxRowSize config) (file_size file)))
                   (file_bytes file) in
  let row := readRow view 0 [] config in
  let q := list_ascii_of_string (qualifier config) in
  ∃ h,
    readHeader RegExp_replace file config = Some h ∧
    length (hr_header h) = length (row_fields row) ∧
    (∀ i c, hr_header h !! i = Some c →
       emptyCount c = Some 0%Z ∧ stringCount c = Some 0%Z ∧
       intCount c = Some 0%Z ∧ floatCount c = Some 0%Z ∧
       minLength c = Some MAX_SAFE_INTEGER ∧ maxLength c = Some MIN_SAFE_INTEGER) ∧
    (firstRowHeader config = false →
       hr_offset h = 0 ∧
       ∀ i c, hr_header h !! i = Some c → name c = "Column" +:+ pretty i) ∧
    (firstRowHeader config = true →
       hr_offset h = row_ret row ∧
       ∀ i c col, hr_header h !! i = Some c → row_fields row !! i = Some col →
         let t := trim (fromCharCode (field_bytes view col)) in
         (∀ inner, t = q ++ inner ++ q → inner ≠ [] →
            Forall (fun a => is_line_terminator a = false) inner →
            name c = string_of_list_ascii inner) ∧
         ((∀ inner, t = q ++ inner ++ q →
             inner = [] ∨ Exists (fun a => is_line_terminator a = true) inner) →
          name c = string_of_list_ascii t)).
Proof.
  intros Hlit view row q.
  assert (load file (file_slice file 0 (Z.min (maxRowSize config) (file_size file)))
          = view) as Hview.
  { unfold load, file_slice. simpl. rewrite Nat.sub_0_r. reflexivity. }
  unfold readHeader, new_RegExp. rewrite Hview.
  unfold rx_literal in Hlit. rewrite Hlit. fold q row.
  eexists. split; [reflexivity|]. cbn [hr_header hr_offset].
  split; [apply length_imap|].
  split.
  { intros i c Hc. rewrite list_lookup_imap in Hc.
    destruct (row_fields row !! i); simpl in Hc; [|discriminate].
    injection Hc as <-. simpl. auto 10. }
  split.
  - intros Hf. rewrite Hf. split; [reflexivity|].
    intros i c Hc. rewrite list_lookup_imap in Hc.
    destruct (row_fields row !! i); simpl in Hc; [|discriminate].
    injection Hc as <-. reflexivity.
  - intros Hf. rewrite Hf. split; [reflexivity|].
    intros i c col Hc Hcol. rewrite list_lookup_imap, Hcol in Hc.
    simpl in Hc. injection Hc as <-. simpl. unfold cleanValue.
    set (t := trim (fromCharCode (field_bytes view col))). split.
    + intros inner -> Hne Hlt. rewrite replace_rx_match by assumption. reflexivity.
    + intros Hno. rewrite replace_rx_no_match by assumption. reflexivity.
Qed.

(** A header of two names, the first quoted with a space kept inside, the
    second followed by a carriage return that [trim] takes off. *)
Example readHeader_two_names RegExp_replace :
  let file := {| file_bytes :=
    [x22; x61; x20; x22; x2c; x20; x62; x0d; x0a; x31; x2c; x32; x0a] |} in
  option_map (fun h => (map name (hr_header h), hr_offset h))
             (readHeader RegExp_replace file defaultConfig)
  = Some (["a "; "b"], 9).
Proof. reflexivity. Qed.

(** ** sliceFile *)

Section TentativeWindows.
Variables size chunkSize : Z.

Lemma tentative_windows_spec :
  (0 < chunkSize)%Z →
  ∀ fuel offset,
    Z.to_nat (size - offset) ≤ fuel →
    ∃ ws,
      tentative_windows fuel size chunkSize offset = Some ws ∧
      (∀ i w, ws !! i = Some w →
         w_start w = (offset + Z.of_nat i * chunkSize)%Z ∧
         w_end w = Z.min (offset + (Z.of_nat i + 1) * chunkSize) size ∧
         (w_start w < size)%Z) ∧
      (∀ w, last ws = Some w → w_end w = size).
Proof.
  intros Hcs. induction fuel as [|fuel IH]; intros offset Hfuel.
  - exists []. simpl. destruct (offset <? size)%Z eqn:Hlt.
    + apply Z.ltb_lt in Hlt. lia.
    + split; [reflexivity|]. split; [intros i w H; discriminate|intros w H; discriminate].
  - simpl. destruct (offset <? size)%Z eqn:Hlt.
    2:{ exists []. split; [reflexivity|].
        split; [intros i w H; discriminate|intros w H; discriminate]. }
    apply Z.ltb_lt in Hlt.
    destruct (IH (offset + chunkSize)%Z ltac:(lia)) as [ws (Hws & Hall & Hlast)].
    rewrite Hws. simpl. eexists. split; [reflexivity|]. split.
    + intros [|i] w Hw; simpl in Hw.
      * injection Hw as <-. simpl. split; [lia|]. split; [f_equal; lia|lia].
      * destruct (Hall i w Hw) as (H1 & H2 & H3).
        split; [lia|]. split; [rewrite H2; f_equal; lia|assumption].
    + intros w Hw. destruct ws as [|w' ws'].
      * simpl in Hw. injection Hw as <-. simpl.
        simpl in Hws. destruct fuel; simpl in Hws;
          destruct (offset + chunkSize <? size)%Z eqn:Hlt2;
          try discriminate; try (apply Z.ltb_ge in Hlt2; lia).
        destruct (tentative_windows _ _ _ _); discriminate.
      * apply Hlast. rewrite last_cons in Hw.
        destruct (last (w' :: ws')) eqn:Hl; [assumption|].
        apply last_None in Hl. discriminate.
Qed.

(** More fuel changes nothing once the loop has ended. *)
Lemma tentative_windows_more_fuel fuel extra offset ws :
  tentative_windows fuel size chunkSize offset = Some ws →
  tentative_windows (fuel + extra) size chunkSize offset = Some ws.
Proof.
  revert offset ws. induction fuel as [|fuel IH]; intros offset ws H.
  - simpl in H. destruct (offset <? size)%Z eqn:Hlt; [discriminate|].
    destruct extra; simpl; rewrite Hlt; assumption.
  - simpl in *. destruct (offset <? size)%Z; [|assumption].
    destruct (tentative_windows fuel _ _ _) as [ws'|] eqn:Hws; [|discriminate].
    rewrite (IH _ _ Hws). assumption.
Qed.

(** With a [chunkSize] that is not positive the loop never ends. *)
Lemma tentative_windows_diverges fuel offset :
  (chunkSize <= 0)%Z → (offset < size)%Z →
  tentative_windows fuel size chunkSize offset = None.
Proof.
  intros Hcs. revert offset. induction fuel as [|fuel IH]; intros offset Hlt; simpl.
  - apply Z.ltb_lt in Hlt. rewrite Hlt. reflexivity.
  - rewrite (IH (offset + chunkSize)%Z) by lia.
    apply Z.ltb_lt in Hlt. rewrite Hlt. reflexivity.
Qed.

End TentativeWindows.

Lemma apply_offset_spec (ws : list Window) (r : OffsetsResult) :
  or_index r + 1 < length ws →
  ∃ ws',
    apply_offset ws r = Some ws' ∧ length ws' = length ws ∧
    ∀ i w, ws !! i = Some w →
      ws' !! i = Some
        {| w_start := (w_start w + match i with
                                   | O => 0
                                   | S j => if (or_index r =? j)%nat
                                            then or_offset r else 0
                                   end)%Z;
           w_end := (w_end w + if (or_index r =? i)%nat
                               then or_offset r else 0)%Z |}.
Proof.
  intros Hlen. unfold apply_offset.
  destruct (lookup_lt_is_Some_2 ws (or_index r) ltac:(lia)) as [lw Hlw].
  destruct (lookup_lt_is_Some_2 ws (or_index r + 1) Hlen) as [rw Hrw].
  rewrite Hlw, list_lookup_insert_ne, Hrw by lia.
  eexists. split; [reflexivity|]. split; [rewrite !length_insert; reflexivity|].
  intros i w Hw.
  destruct (decide (i = or_index r + 1)) as [->|Hne1].
  - rewrite list_lookup_insert_eq by (rewrite length_insert; lia).
    rewrite Hrw in Hw. injection Hw as <-.
    replace (or_index r + 1) with (S (or_index r)) by lia.
    rewrite Nat.eqb_refl.
    replace (or_index r =? S (or_index r)) with false
      by (symmetry; apply Nat.eqb_neq; lia).
    destruct rw; simpl; f_equal; f_equal; lia.
  - rewrite list_lookup_insert_ne by lia.
    destruct (decide (i = or_index r)) as [->|Hne2].
    + rewrite list_lookup_insert_eq by lia.
      rewrite Hlw in Hw. injection Hw as <-. rewrite Nat.eqb_refl.
      assert (match or_index r with
              | O => 0
              | S j => if (or_index r =? j)%nat then or_offset r else 0
              end = 0)%Z as ->.
      { destruct (or_index r) as [|j]; [reflexivity|].
        replace (S j =? j) with false by (symmetry; apply Nat.eqb_neq; lia).
        reflexivity. }
      destruct lw; simpl; f_equal; f_equal; lia.
    + rewrite list_lookup_insert_ne, Hw by lia.
      replace (or_index r =? i) with false by (symmetry; apply Nat.eqb_neq; lia).
      assert (match i with
              | O => 0
              | S j => if (or_index r =? j)%nat then or_offset r else 0
              end = 0)%Z as ->.
      { destruct i as [|j]; [reflexivity|].
        replace (or_index r =? j) with false by (symmetry; apply Nat.eqb_neq; lia).
        reflexivity. }
      destruct w; simpl; f_equal; f_equal; lia.
Qed.

(** Every result moves the end of the window it names and the start of the
    next one by the same amount. *)
Lemma apply_offsets_spec (rs : list OffsetsResult) :
  ∀ ws,
    Forall (fun r => or_index r + 1 < length ws) rs →
    ∃ ws',
      apply_offsets ws rs = Some ws' ∧ length ws' = length ws ∧
      ∀ i w, ws !! i = Some w →
        ws' !! i = Some
          {| w_start := (w_start w + match i with
                                     | O => 0
                                     | S j => boundary_shift rs j
                                     end)%Z;
             w_end := (w_end w + boundary_shift rs i)%Z |}.
Proof.
  induction rs as [|r rs IH]; intros ws Hall.
  - exists ws. split; [reflexivity|]. split; [reflexivity|].
    intros i w Hw. rewrite Hw. destruct w, i; simpl; f_equal; f_equal; lia.
  - apply Forall_cons in Hall as [Hr Hall].
    destruct (apply_offset_spec ws r Hr) as [ws1 (H1 & Hlen1 & Hw1)].
    destruct (IH ws1) as [ws2 (H2 & Hlen2 & Hw2)].
    { rewrite Hlen1. assumption. }
    exists ws2. simpl. rewrite H1. split; [assumption|]. split; [lia|].
    intros i w Hw. rewrite (Hw2 i _ (Hw1 i w Hw)). simpl.
    f_equal. f_equal; destruct i; lia.
Qed.

(** Results that carry their position as index: the shift of a boundary is
    the offset of its own result. *)
Lemma boundary_shift_indexed (rs : list OffsetsResult) :
  ∀ base,
    (∀ k r, rs !! k = Some r → or_index r = base + k) →
    (∀ j, j < base → boundary_shift rs j = 0%Z) ∧
    (∀ k, boundary_shift rs (base + k) = from_option or_offset 0%Z (rs !! k)).
Proof.
  induction rs as [|r rs IH]; intros base H.
  - split; [reflexivity|]. intros k. reflexivity.
  - pose proof (H 0 r eq_refl) as Hr. rewrite Nat.add_0_r in Hr.
    destruct (IH (S base)) as [IH1 IH2].
    { intros k r' Hk. rewrite (H (S k) r' Hk). lia. }
    split.
    + intros j Hj. simpl. rewrite IH1 by lia.
      replace (or_index r =? j) with false by (symmetry; apply Nat.eqb_neq; lia).
      reflexivity.
    + intros [|k]; simpl.
      * rewrite Nat.add_0_r, Hr, Nat.eqb_refl, IH1 by lia. lia.
      * replace (base + S k) with (S base + k) by lia. rewrite IH2.
        replace (or_index r =? S base + k) with false
          by (symmetry; apply Nat.eqb_neq; lia).
        lia.
Qed.

Lemma offsets_tasks_lookup file config (ws : list Window) i t :
  offsets_tasks file config ws !! i = Some t →
  i + 1 < length ws ∧ oo_index t = i ∧ oo_file t = file ∧
  ∃ w, ws !! i = Some w ∧ oo_start t = w_start w ∧ oo_end t = w_end w.
Proof.
  unfold offsets_tasks. rewrite list_lookup_imap. intros H.
  destruct (take (length ws - 1) ws !! i) as [w|] eqn:Hw; [|discriminate].
  simpl in H. injection H as <-. simpl.
  pose proof (lookup_lt_Some _ _ _ Hw) as Hlt. rewrite length_take in Hlt.
  rewrite lookup_take_lt in Hw by lia.
  split; [lia|]. split; [reflexivity|]. split; [reflexivity|]. eauto.
Qed.

(** How many windows the loop makes. *)
Lemma tentative_windows_count size chunkSize :
  (0 < chunkSize)%Z →
  ∀ fuel offset ws,
    tentative_windows fuel size chunkSize offset = Some ws →
    ((size <= offset)%Z → ws = []) ∧
    ((offset < size)%Z →
     (offset + (Z.of_nat (length ws) - 1) * chunkSize < size
      <= offset + Z.of_nat (length ws) * chunkSize)%Z).
Proof.
  intros Hcs. induction fuel as [|fuel IH]; intros offset ws H; simpl in H.
  - destruct (offset <? size)%Z eqn:Hlt; [discriminate|].
    apply Z.ltb_ge in Hlt. injection H as <-. split; [reflexivity|lia].
  - destruct (offset <? size)%Z eqn:Hlt.
    + apply Z.ltb_lt in Hlt.
      destruct (tentative_windows fuel _ _ _) as [ws'|] eqn:Hws; [|discriminate].
      injection H as <-. split; [lia|]. intros _.
      destruct (IH _ _ Hws) as [Hnil Hcount].
      destruct (decide (size <= offset + chunkSize)%Z) as [Hle|Hgt].
      * rewrite (Hnil Hle). simpl. lia.
      * specialize (Hcount ltac:(lia)). simpl length. lia.
    + apply Z.ltb_ge in Hlt. injection H as <-. split; [reflexivity|lia].
Qed.

(** C5.  With a positive [chunkSize] the loop of [sliceFile] ends, and the
    windows it makes are [chunkSize] bytes each from [start] on, the last one
    clipped to the size of the file.  There is one task for each window but
    the last, with its position as index.  With tasks that answer with the
    index they were given, the blobs are the windows with the end of each
    and the start of the next moved by the offset of the task between them:
    each blob ends where the next starts, the first starts at [start] and
    the last ends at the size of the file. *)
Theorem sliceFile_contiguous
    (calculateOffsets : OffsetsOptions → OffsetsResult)
    (file : File) (start : Z) (config : Config) :
  (∀ o, or_index (calculateOffsets o) = oo_index o) →
  (0 < chunkSize config)%Z →
  ∃ fuel windows blobs,
    let tasks := offsets_tasks file config windows in
    tentative_windows fuel (file_size file) (chunkSize config) start = Some windows ∧
    (∀ i w, windows !! i = Some w →
       w_start w = (start + Z.of_nat i * chunkSize config)%Z ∧
       w_end w = Z.min (start + (Z.of_nat i + 1) * chunkSize config) (file_size file)) ∧
    length tasks = length windows - 1 ∧
    (∀ i t, tasks !! i = Some t →
       oo_index t = i ∧
       ∃ w, windows !! i = Some w ∧ oo_start t = w_start w ∧ oo_end t = w_end w) ∧
    (∀ extra, sliceFile calculateOffsets (fuel + extra) file start config = Some blobs) ∧
    length blobs = length windows ∧
    (∀ i t, tasks !! i = Some t →
       ∃ w w' b b',
         windows !! i = Some w ∧ windows !! S i = Some w' ∧
         blobs !! i = Some b ∧ blobs !! S i = Some b' ∧
         blob_end b = (w_end w + or_offset (calculateOffsets t))%Z ∧
         blob_start b' = (w_start w' + or_offset (calculateOffsets t))%Z) ∧
    (∀ i b b', blobs !! i = Some b → blobs !! S i = Some b' →
       blob_end b = blob_start b') ∧
    (∀ b, head blobs = Some b → blob_start b = start) ∧
    (∀ b, last blobs = Some b → blob_end b = file_size file) ∧
    ((file_size file <= start)%Z → windows = [] ∧ blobs = []) ∧
    ((start < file_size file)%Z →
     (start + (Z.of_nat (length windows) - 1) * chunkSize config < file_size file
      <= start + Z.of_nat (length windows) * chunkSize config)%Z) ∧
    (∀ i, (start + Z.of_nat i * chunkSize config < file_size file)%Z →
          ∃ w b, windows !! i = Some w ∧ blobs !! i = Some b).
Proof.
  intros Hecho Hcs.
  set (fuel := Z.to_nat (file_size file - start)).
  destruct (tentative_windows_spec (file_size file) (chunkSize config) Hcs fuel start
              ltac:(lia)) as [windows (Hws & Hall & Hlast)].
  set (tasks := offsets_tasks file config windows).
  set (results := map calculateOffsets tasks).
  assert (length tasks = length windows - 1) as Htl.
  { subst tasks. unfold offsets_tasks. rewrite length_imap, length_take. lia. }
  assert (∀ k r, results !! k = Some r →
            ∃ t, tasks !! k = Some t ∧ r = calculateOffsets t ∧ or_index r = k) as Hres.
  { intros k r Hk. subst results. rewrite list_lookup_fmap in Hk.
    destruct (tasks !! k) as [t|] eqn:Ht; [|discriminate].
    injection Hk as <-. exists t. split; [reflexivity|]. split; [reflexivity|].
    rewrite Hecho. apply offsets_tasks_lookup in Ht. tauto. }
  destruct (apply_offsets_spec results windows) as [ws' (Happ & Hlen' & Hws')].
  { apply Forall_forall. intros r Hr. apply list_elem_of_lookup in Hr as [k Hk].
    destruct (Hres k r Hk) as [t (Ht & _ & Hi)]. rewrite Hi.
    apply offsets_tasks_lookup in Ht. tauto. }
  destruct (boundary_shift_indexed results 0) as [_ Hshift].
  { intros k r Hk. destruct (Hres k r Hk) as [t (_ & _ & ->)]. reflexivity. }
  set (blobs := map (fun w => file_slice file (w_start w) (w_end w)) ws').
  assert (∀ i b, blobs !! i = Some b →
            ∃ w, windows !! i = Some w ∧
                 blob_start b = (w_start w + match i with
                                              | O => 0
                                              | S j => from_option or_offset 0 (results !! j)
                                              end)%Z ∧
                 blob_end b = (w_end w + from_option or_offset 0 (results !! i))%Z)
    as Hblob.
  { intros i b Hb. subst blobs. rewrite list_lookup_fmap in Hb.
    destruct (ws' !! i) as [w'|] eqn:Hw'; [|discriminate]. injection Hb as <-.
    destruct (lookup_lt_is_Some_2 windows i) as [w Hw].
    { rewrite <- Hlen'. eapply lookup_lt_Some; eassumption. }
    rewrite (Hws' i w Hw) in Hw'. injection Hw' as <-. exists w.
    split; [assumption|]. simpl. split.
    - destruct i as [|j]; [reflexivity|]. rewrite <- (Hshift j). reflexivity.
    - rewrite <- (Hshift i). reflexivity. }
  exists fuel, windows, blobs. cbv zeta. fold tasks.
  split; [assumption|].
  split; [intros i w Hw; destruct (Hall i w Hw) as (? & ? & ?); auto|].
  split; [assumption|].
  split.
  { intros i t Ht. apply offsets_tasks_lookup in Ht. tauto. }
  split.
  { intros extra. unfold sliceFile.
    rewrite (tentative_windows_more_fuel _ _ _ extra _ _ Hws).
    fold tasks results. rewrite Happ. reflexivity. }
  assert (length blobs = length windows) as Hbl.
  { subst blobs. rewrite length_map. assumption. }
  split; [assumption|].
  split.
  { intros i t Ht. pose proof (offsets_tasks_lookup _ _ _ _ _ Ht) as (Hi & _ & _ & w & Hw & _).
    destruct (lookup_lt_is_Some_2 windows (S i) ltac:(lia)) as [w' Hw'].
    destruct (lookup_lt_is_Some_2 blobs i ltac:(lia)) as [b Hb].
    destruct (lookup_lt_is_Some_2 blobs (S i) ltac:(lia)) as [b' Hb'].
    exists w, w', b, b'. repeat (split; [assumption|]).
    assert (results !! i = Some (calculateOffsets t)) as Hr.
    { subst results. rewrite list_lookup_fmap. fold tasks in Ht. rewrite Ht. reflexivity. }
    destruct (Hblob i b Hb) as [w0 (Hw0 & _ & He)].
    destruct (Hblob (S i) b' Hb') as [w1 (Hw1 & Hs & _)].
    rewrite Hr in He, Hs. simpl in He, Hs. split; congruence. }
  split.
  { intros i b b' Hb Hb'.
    destruct (Hblob i b Hb) as [w (Hw & _ & He)].
    destruct (Hblob (S i) b' Hb') as [w' (Hw' & Hs & _)].
    destruct (Hall i w Hw) as (_ & Hwe & _).
    destruct (Hall (S i) w' Hw') as (Hws1 & _ & Hlt).
    rewrite He, Hs. lia. }
  split.
  { intros b Hb. rewrite head_lookup in Hb.
    destruct (Hblob 0 b Hb) as [w (Hw & Hs & _)].
    destruct (Hall 0 w Hw) as (Hws0 & _). lia. }
  split.
  { intros b Hb. rewrite last_lookup in Hb.
    destruct (Hblob _ b Hb) as [w (Hw & _ & He)].
    rewrite Hbl, <- last_lookup in Hw. rewrite (Hlast w Hw) in He.
    replace (results !! pred (length blobs)) with (@None OffsetsResult) in He.
    - simpl in He. lia.
    - symmetry. apply lookup_ge_None. subst results. rewrite length_map. lia. }
  destruct (tentative_windows_count _ _ Hcs _ _ _ Hws) as [Hnil Hcount].
  split.
  { intros Hle. specialize (Hnil Hle). split; [assumption|].
    rewrite Hnil in Hbl. destruct blobs; [reflexivity|discriminate]. }
  split; [assumption|].
  intros i Hi.
  assert (i < length windows) as Hlt.
  { assert (start < file_size file)%Z as Hs by nia.
    specialize (Hcount Hs). nia. }
  destruct (lookup_lt_is_Some_2 windows i Hlt) as [w Hw].
  destruct (lookup_lt_is_Some_2 blobs i ltac:(lia)) as [b Hb].
  eauto.
Qed.

Lemma sliceFile_contiguous_witness :
  let file := {| file_bytes :=
    [x61; x2c; x62; x0a; x31; x2c; x32; x0a; x33; x2c; x34; x0a;
     x35; x35; x2c; x36; x36; x0a] |} in
  let config := {| separator := ","; qualifier := qualifier defaultConfig;
                   linebreak := linebreak defaultConfig; firstRowHeader := true;
                   maxRowSize := 100; chunkSize := 5; maxLoadedChunks := 32;
                   encoding := "utf8"; output := None |} in
  (∀ o, or_index (boundary_scan o) = oo_index o) ∧
  (0 < chunkSize config)%Z ∧
  ∃ fuel blobs,
    sliceFile boundary_scan fuel file 4 config = Some blobs ∧
    length blobs = 3 ∧
    (∃ b, blobs !! 2 = Some b) ∧
    (∀ i b b', blobs !! i = Some b → blobs !! S i = Some b' →
       blob_end b = blob_start b') ∧
    (∀ b, head blobs = Some b → blob_start b = 4%Z) ∧
    (∀ b, last blobs = Some b → blob_end b = 18%Z).
Proof.
  intros file config.
  split; [reflexivity|]. split; [reflexivity|].
  destruct (sliceFile_contiguous boundary_scan file 4 config
              ltac:(reflexivity) ltac:(reflexivity))
    as (fuel & windows & blobs & _ & _ & _ & _ & Hrun & Hlen & _ & Hnext & Hhead
        & Hlast & _ & Hcount & Hexists).
  exists (fuel + 0), blobs.
  split; [apply Hrun|].
  split.
  { specialize (Hcount ltac:(reflexivity)).
    change (file_size file) with 18%Z in Hcount.
    change (chunkSize config) with 5%Z in Hcount. lia. }
  split.
  { destruct (Hexists 2 ltac:(reflexivity)) as (w & b & _ & Hb). eauto. }
  auto.
Defined.

(** The blobs of that file, cut at the line-breaks after the tentative ends
    9 and 14. *)
Example sliceFile_on_four_rows :
  sliceFile boundary_scan 14
    {| file_bytes :=
         [x61; x2c; x62; x0a; x31; x2c; x32; x0a; x33; x2c; x34; x0a;
          x35; x35; x2c; x36; x36; x0a] |} 4
    {| separator := ","; qualifier := qualifier defaultConfig;
       linebreak := linebreak defaultConfig; firstRowHeader := true;
       maxRowSize := 100; chunkSize := 5; maxLoadedChunks := 32;
       encoding := "utf8"; output := None |}
  = Some [{| blob_start := 4; blob_end := 12 |};
          {| blob_start := 12; blob_end := 18 |};
          {| blob_start := 18; blob_end := 18 |}].
Proof. reflexivity. Qed.

(** ** analyzeBlobs *)

Lemma js_min_swap a x y : js_min (js_min a x) y = js_min (js_min a y) x.
Proof. destruct a, x, y; simpl; try reflexivity. f_equal. lia. Qed.

Lemma js_max_swap a x y : js_max (js_max a x) y = js_max (js_max a y) x.
Proof. destruct a, x, y; simpl; try reflexivity. f_equal. lia. Qed.

Lemma js_add_swap a x y : js_add (js_add a x) y = js_add (js_add a y) x.
Proof. destruct a, x, y; simpl; try reflexivity. f_equal. lia. Qed.

Lemma fold_column_swap m1 m2 ii c :
  fold_column m1 ii (fold_column m2 ii c) = fold_column m2 ii (fold_column m1 ii c).
Proof.
  unfold fold_column. simpl. f_equal;
    auto using js_min_swap, js_max_swap, js_add_swap.
Qed.

Section AnalyzeFacts.
Variable blobs : list Blob.
Variable config : Config.

Lemma fold_result_same a a' r :
  same_tallies a a' →
  same_tallies (fold_result blobs config a r) (fold_result blobs config a' r).
Proof. intros [Hh Hm]. unfold same_tallies, fold_result. simpl. rewrite Hh, Hm. auto. Qed.

Lemma fold_result_swap a r1 r2 :
  same_tallies (fold_result blobs config (fold_result blobs config a r1) r2)
               (fold_result blobs config (fold_result blobs config a r2) r1).
Proof.
  unfold same_tallies, fold_result. simpl. split.
  - apply list_eq. intros ii. rewrite !list_lookup_imap.
    destruct (an_header a !! ii); simpl; [|reflexivity].
    f_equal. apply fold_column_swap.
  - f_equal; lia.
Qed.

Lemma foldl_fold_result_same rs :
  ∀ a a', same_tallies a a' →
          same_tallies (foldl (fold_result blobs config) a rs)
                       (foldl (fold_result blobs config) a' rs).
Proof.
  induction rs as [|r rs IH]; intros a a' H; simpl; [assumption|].
  apply IH, fold_result_same, H.
Qed.

Lemma foldl_fold_result_perm rs rs' :
  rs ≡ₚ rs' →
  ∀ a a', same_tallies a a' →
          same_tallies (foldl (fold_result blobs config) a rs)
                       (foldl (fold_result blobs config) a' rs').
Proof.
  induction 1 as [|r rs rs' Hp IH|r1 r2 rs|rs1 rs2 rs3 Hp1 IH1 Hp2 IH2];
    intros a a' H; simpl.
  - assumption.
  - apply IH, fold_result_same, H.
  - destruct (fold_result_swap a r2 r1) as [Hh Hm].
    apply foldl_fold_result_same. split.
    + rewrite Hh. apply fold_result_same, fold_result_same, H.
    + rewrite Hm. apply fold_result_same, fold_result_same, H.
  - destruct (IH1 a a' H) as [Hh1 Hm1].
    destruct (IH2 a' a' (conj eq_refl eq_refl)) as [Hh2 Hm2].
    split; congruence.
Qed.

(** The fold written out: the header column by column and the aggregate. *)
Lemma foldl_fold_result_reduced rs :
  ∀ a,
    an_header (foldl (fold_result blobs config) a rs)
    = imap (reduced_column rs) (an_header a) ∧
    rowCount (an_meta (foldl (fold_result blobs config) a rs))
    = (rowCount (an_meta a) + sum_Z (map (fun r => rowCount (ar_stats r)) rs))%Z ∧
    malformedRows (an_meta (foldl (fold_result blobs config) a rs))
    = (malformedRows (an_meta a)
       + sum_Z (map (fun r => malformedRows (ar_stats r)) rs))%Z.
Proof.
  induction rs as [|r rs IH]; intros a; simpl.
  - split; [|split; lia].
    apply list_eq. intros ii. rewrite list_lookup_imap.
    destruct (an_header a !! ii) as [c|]; simpl; [|reflexivity].
    destruct c; reflexivity.
  - destruct (IH (fold_result blobs config a r)) as (Hh & Hr & Hm).
    rewrite Hh, Hr, Hm. simpl. split; [|split; lia].
    apply list_eq. intros ii. rewrite !list_lookup_imap.
    destruct (an_header a !! ii) as [c|]; simpl; [|reflexivity].
    unfold reduced_column, fold_column. simpl.
    rewrite !Nat.add_0_r. reflexivity.
Qed.

End AnalyzeFacts.

(** C6.  The fold of [analyzeBlobs] over the results of the chunks gives,
    for each column, the least of the minimum lengths, the greatest of the
    maximum lengths and the sums of the four counters, and as aggregate the
    sums of the row counts and of the malformed rows; taking the results in
    any other order gives the same header and the same aggregate. *)
Theorem analyzeBlobs_fold_order_independent
    (blobs : list Blob) (header : list ColumnStat) (config : Config)
    (results results' : list AnalyzeResult) :
  results ≡ₚ results' →
  let a := fold_results blobs header config results in
  let a' := fold_results blobs header config results' in
  an_header a = an_header a' ∧
  an_meta a = an_meta a' ∧
  an_header a = imap (reduced_column results) header ∧
  rowCount (an_meta a) = sum_Z (map (fun r => rowCount (ar_stats r)) results) ∧
  malformedRows (an_meta a)
  = sum_Z (map (fun r => malformedRows (ar_stats r)) results).
Proof.
  intros Hp a a'. subst a a'. unfold fold_results.
  set (start := {| an_chunks := ∅;
                   an_meta := {| rowCount := 0; malformedRows := 0 |};
                   an_header := header |}).
  destruct (foldl_fold_result_perm blobs config results results' Hp start start
              (conj eq_refl eq_refl)) as [Hh Hm].
  destruct (foldl_fold_result_reduced blobs config results start) as (Hr & Hrc & Hmr).
  simpl in Hr, Hrc, Hmr. auto.
Qed.

Lemma analyzeBlobs_fold_order_independent_witness :
  let r0 := {| ar_index := 0; ar_stats := {| rowCount := 2; malformedRows := 0 |};
               ar_columns := [1; 3; 2; 0; 0; 0; 2; 5; 0; 1; 1; 0]%Z |} in
  let r1 := {| ar_index := 1; ar_stats := {| rowCount := 3; malformedRows := 1 |};
               ar_columns := [0; 2; 2; 0; 0; 1; 4; 4; 0; 0; 3; 0]%Z |} in
  let header := [new_ColumnStat "a"; new_ColumnStat "b"] in
  [r0; r1] ≡ₚ [r1; r0] ∧
  an_header (fold_results [] header defaultConfig [r0; r1])
  = an_header (fold_results [] header defaultConfig [r1; r0]) ∧
  an_meta (fold_results [] header defaultConfig [r0; r1])
  = {| rowCount := 5; malformedRows := 1 |}.
Proof.
  intros r0 r1 header.
  assert ([r0; r1] ≡ₚ [r1; r0]) as Hp by constructor.
  split; [exact Hp|].
  destruct (analyzeBlobs_fold_order_independent [] header defaultConfig
              [r0; r1] [r1; r0] Hp) as (Hh & Hm & _).
  split; [exact Hh|reflexivity].
Defined.

(** ** binaryChunksFromBlobs *)

Lemma sum_N_app l1 l2 : sum_N (l1 ++ l2) = (sum_N l1 + sum_N l2)%N.
Proof. induction l1 as [|x l1 IH]; simpl; [reflexivity|]. rewrite IH. lia. Qed.

Lemma sum_N_perm {A} (f : A → N) (l l' : list A) :
  l ≡ₚ l' → sum_N (map f l) = sum_N (map f l').
Proof. induction 1; simpl; lia. Qed.

Lemma foldl_max_le (ws : list N) : ∀ w, (w <= foldl N.max w ws)%N.
Proof.
  induction ws as [|x ws IH]; intros w; simpl; [lia|].
  specialize (IH (N.max w x)). lia.
Qed.

(** [greatest_width] from 0 is the maximum of the widths the chunks
    observed: no chunk observed more, and some chunk observed as much. *)
Lemma greatest_width_is_max (results : list BinaryResult) (i : nat) :
  (∀ r, r ∈ results → (chunk_width i r <= greatest_width results 0 i)%N) ∧
  (results ≠ [] → ∃ r, r ∈ results ∧ chunk_width i r = greatest_width results 0 i).
Proof.
  unfold greatest_width.
  assert (∀ rs w,
            (∀ r, r ∈ rs → (chunk_width i r <= foldl N.max w (map (chunk_width i) rs))%N) ∧
            (foldl N.max w (map (chunk_width i) rs) = w ∨
             ∃ r, r ∈ rs ∧ chunk_width i r = foldl N.max w (map (chunk_width i) rs)))
    as H.
  { induction rs as [|r rs IH]; intros w; simpl.
    - split; [intros r Hr; inversion Hr|auto].
    - destruct (IH (N.max w (chunk_width i r))) as [IH1 IH2]. split.
      + intros r' Hr'. apply elem_of_cons in Hr' as [->|Hr']; [|auto].
        pose proof (foldl_max_le (map (chunk_width i) rs) (N.max w (chunk_width i r))).
        lia.
      + destruct IH2 as [Heq|[r' [Hr' Heq]]].
        * destruct (N.max_spec w (chunk_width i r)) as [[_ Hm]|[_ Hm]].
          -- right. exists r. split; [left|congruence].
          -- left. congruence.
        * right. exists r'. split; [right; assumption|assumption]. }
  split; [apply H|].
  intros Hne. destruct results as [|r rs]; [congruence|].
  destruct (H (r :: rs) 0%N) as [Hle [Heq|Hex]]; [|assumption].
  exists r. split; [left|]. specialize (Hle r ltac:(left)). lia.
Qed.

Lemma widen_columns_spec (lengths : list N) (columns : list BinaryColumn) :
  ∀ ii,
    ii + length columns ≤ length lengths →
    widen_columns lengths ii columns
    = Some (imap (fun k c =>
                    set_length (N.max (bc_length c) (default 0%N (lengths !! (ii + k)))) c)
                 columns).
Proof.
  induction columns as [|c columns IH]; intros ii Hlen; simpl; [reflexivity|].
  simpl in Hlen.
  destruct (lookup_lt_is_Some_2 lengths ii ltac:(lia)) as [w Hw].
  rewrite Hw, IH by lia. simpl. rewrite Nat.add_0_r, Hw. simpl.
  f_equal. f_equal. apply imap_ext. intros k c' _. simpl.
  replace (S (ii + k)) with (ii + S k) by lia. reflexivity.
Qed.

(** The loop over the results: the row counts add up, every column keeps
    the greatest width seen so far. *)
Lemma measure_results_spec (n : nat) (results : list BinaryResult) :
  Forall (fun r => n ≤ length (ch_lengths (br_header r))) results →
  ∀ m, length (ms_columns m) = n →
    ∃ m',
      foldl measure_result (Some m) results = Some m' ∧
      ms_rowCount m'
      = (ms_rowCount m + sum_N (map (fun r => ch_rowCount (br_header r)) results))%N ∧
      ms_columns m'
      = imap (fun i c => set_length (greatest_width results (bc_length c) i) c)
             (ms_columns m).
Proof.
  induction results as [|r results IH]; intros Hall m Hm; simpl.
  - exists m. split; [reflexivity|]. split; [simpl; lia|].
    apply list_eq. intros i. rewrite list_lookup_imap.
    destruct (ms_columns m !! i) as [c|]; simpl; [|reflexivity]. destruct c; reflexivity.
  - apply Forall_cons in Hall as [Hr Hall].
    rewrite widen_columns_spec by (simpl; lia).
    destruct (IH Hall
                {| ms_rowCount := ms_rowCount m + ch_rowCount (br_header r);
                   ms_columns := imap (fun k c =>
                     set_length (N.max (bc_length c)
                       (default 0%N (ch_lengths (br_header r) !! (0 + k)))) c)
                     (ms_columns m);
                   ms_ordered := <[br_index r := r]> (ms_ordered m) |})
      as [m' (Hf & Hrc & Hcols)].
    { simpl. rewrite length_imap. assumption. }
    exists m'. split; [assumption|]. split; [rewrite Hrc; simpl; lia|].
    rewrite Hcols. simpl. apply list_eq. intros i. rewrite !list_lookup_imap.
    destruct (ms_columns m !! i) as [c|]; simpl; reflexivity.
Qed.

Section LayoutFacts.
Variable results : list BinaryResult.
Variable first : BinaryResult.
Variable cols : list BinaryColumn.
Hypothesis Hfirst : results !! 0 = Some first.
Hypothesis Horder : ch_order (br_header first) ≡ₚ seq 0 (length cols).

Local Abbreviation order := (ch_order (br_header first)).
Local Abbreviation width := (column_width cols).

(** The layout loop after [j] turns: the columns keep name, width and
    type, the first [j] columns of the packing order have their offset, and
    the running offset is the sum of their widths. *)
Lemma layout_loop_inv j :
  j ≤ length cols →
  ∃ cols_j,
    foldl (layout_step results) (Some (cols, 0%N)) (seq 0 j)
    = Some (cols_j, sum_N (map width (take j order))) ∧
    length cols_j = length cols ∧
    (∀ k c, cols_j !! k = Some c →
       ∃ c0, cols !! k = Some c0 ∧ c = set_offset (bc_offset c) c0) ∧
    (∀ j' k, j' < j → order !! j' = Some k →
       ∃ c, cols_j !! k = Some c ∧ bc_offset c = sum_N (map width (take j' order))).
Proof.
  assert (length order = length cols) as Hlen
    by (rewrite Horder; apply length_seq).
  assert (NoDup order) as Hnd
    by (rewrite Horder; apply NoDup_seq).
  assert (∀ j k, order !! j = Some k → k < length cols) as Hin.
  { intros j0 k Hk. apply list_elem_of_lookup_2 in Hk.
    rewrite Horder in Hk. apply elem_of_seq in Hk. lia. }
  induction j as [|j IH]; intros Hj.
  - exists cols. simpl. split; [reflexivity|]. split; [reflexivity|]. split.
    + intros k c Hc. exists c. split; [assumption|]. destruct c; reflexivity.
    + intros j' k Hlt. lia.
  - destruct (IH ltac:(lia)) as [cols_j (Hrun & Hl & Hsame & Hoff)].
    rewrite seq_S, foldl_app, Hrun. simpl.
    destruct (lookup_lt_is_Some_2 order j ltac:(lia)) as [k Hk].
    destruct (lookup_lt_is_Some_2 cols_j k) as [c Hc].
    { rewrite Hl. eapply Hin; eassumption. }
    unfold layout_step. rewrite Hfirst, Hk, Hc.
    destruct (Hsame k c Hc) as [c0 [Hc0 Hcc0]].
    assert (bc_length c = width k) as Hw.
    { unfold column_width. rewrite Hc0. simpl. rewrite Hcc0. reflexivity. }
    exists (<[k := set_offset (sum_N (map width (take j order))) c]> cols_j).
    split.
    { f_equal. f_equal. rewrite (take_S_r _ _ _ Hk), map_app, sum_N_app, Hw.
      simpl. lia. }
    split; [rewrite length_insert; assumption|]. split.
    + intros k' c' Hc'. destruct (decide (k' = k)) as [->|Hne].
      * rewrite list_lookup_insert_eq in Hc' by (eapply lookup_lt_Some; eassumption).
        injection Hc' as <-. exists c0. split; [assumption|].
        rewrite Hcc0. reflexivity.
      * rewrite list_lookup_insert_ne in Hc' by congruence. auto.
    + intros j' k' Hlt Hk'. destruct (decide (j' = j)) as [->|Hne].
      * rewrite Hk in Hk'. injection Hk' as <-.
        eexists. split.
        -- apply list_lookup_insert_eq. eapply lookup_lt_Some; eassumption.
        -- reflexivity.
      * destruct (Hoff j' k' ltac:(lia) Hk') as [c' [Hc' Ho]].
        exists c'. split; [|assumption].
        rewrite list_lookup_insert_ne; [assumption|].
        intros ->. apply Hne. eapply NoDup_lookup; eassumption.
Qed.

(** The widths along the packing order add up to the widths of all the
    columns. *)
Lemma layout_total : sum_N (map width order) = sum_N (map bc_length cols).
Proof.
  rewrite (sum_N_perm width _ _ Horder). f_equal.
  apply list_eq. intros k. rewrite !list_lookup_fmap.
  destruct (decide (k < length cols)) as [Hlt|Hge].
  - rewrite lookup_seq_lt by assumption. simpl. unfold column_width.
    destruct (lookup_lt_is_Some_2 cols k Hlt) as [c Hc]. rewrite Hc. reflexivity.
  - rewrite lookup_seq_ge by lia.
    rewrite (proj2 (lookup_ge_None cols k)) by lia. reflexivity.
Qed.

End LayoutFacts.

(** C4.  When every chunk reports a width for every column and the first
    result's packing order is a permutation of the columns, the header
    [binaryChunksFromBlobs] builds has, for each column, the name of the
    header column, the greatest width the chunks observed and the type the
    first result gives; the row count is the sum of the chunks' row counts;
    the column at place [j] of the packing order sits at the sum of the
    widths of the columns before it in that order; [rowLength] is the sum of
    the widths of all the columns and [dataLength] is [rowLength] times the
    row count. *)
Theorem binary_header_layout
    (header : list ColumnStat) (results : list BinaryResult) (first : BinaryResult) :
  results !! 0 = Some first →
  Forall (fun r => length header ≤ length (ch_lengths (br_header r))) results →
  ch_order (br_header first) ≡ₚ seq 0 (length header) →
  ∃ h ordered,
    binary_header header results = Some (h, ordered) ∧
    length (bh_columns h) = length header ∧
    (∀ i c, bh_columns h !! i = Some c →
       (∃ hc, header !! i = Some hc ∧ bc_name c = name hc) ∧
       bc_length c = greatest_width results 0 i ∧
       bc_type c = ch_types (br_header first) !! i) ∧
    bh_rowCount h = sum_N (map (fun r => ch_rowCount (br_header r)) results) ∧
    bh_rowLength h = sum_N (map bc_length (bh_columns h)) ∧
    bh_dataLength h = (bh_rowLength h * bh_rowCount h)%N ∧
    (∀ j k, ch_order (br_header first) !! j = Some k →
       ∃ c, bh_columns h !! k = Some c ∧
            bc_offset c
            = sum_N (map (greatest_width results 0)
                         (take j (ch_order (br_header first))))) ∧
    bh_dataOffset h = 0%N.
Proof.
  intros Hfirst Hlens Horder.
  set (order := ch_order (br_header first)) in *.
  set (cols0 := imap (fun i h => {| bc_name := name h; bc_length := 0; bc_offset := 0;
                                    bc_type := ch_types (br_header first) !! i |}) header).
  assert (initial_columns header results = Some cols0) as Hinit.
  { unfold initial_columns. rewrite Hfirst. destruct header; reflexivity. }
  destruct (measure_results_spec (length header) results Hlens
              {| ms_rowCount := 0; ms_columns := cols0; ms_ordered := ∅ |})
    as [m (Hmeasure & Hrc & Hcols)].
  { simpl. subst cols0. apply length_imap. }
  simpl in Hrc, Hcols.
  set (cols1 := ms_columns m) in *.
  assert (length cols1 = length header) as Hl1.
  { rewrite Hcols, length_imap. subst cols0. apply length_imap. }
  assert (∀ k c, cols1 !! k = Some c →
            (∃ hc, header !! k = Some hc ∧ bc_name c = name hc) ∧
            bc_length c = greatest_width results 0 k ∧
            bc_type c = ch_types (br_header first) !! k) as Hc1.
  { intros k c Hc. rewrite Hcols, list_lookup_imap in Hc.
    subst cols0. rewrite list_lookup_imap in Hc.
    destruct (header !! k) as [hc|]; simpl in Hc; [|discriminate].
    injection Hc as <-. simpl. eauto. }
  assert (order ≡ₚ seq 0 (length cols1)) as Horder1 by (rewrite Hl1; assumption).
  destruct (layout_loop_inv results first cols1 Hfirst Horder1 (length cols1) (le_n _))
    as [cols (Hrun & Hl & Hsame & Hoff)].
  fold order in Hrun.
  assert (length order = length cols1) as Hlo
    by (rewrite Horder1; apply length_seq).
  rewrite take_ge in Hrun by lia.
  pose proof (layout_total first cols1 Horder1) as Htotal.
  fold order in Hrun, Htotal. rewrite Htotal in Hrun.
  assert (map bc_length cols = map bc_length cols1) as Hwidths.
  { apply list_eq. intros k. rewrite !list_lookup_fmap.
    destruct (cols !! k) as [c|] eqn:Hc.
    - destruct (Hsame k c Hc) as [c0 [Hc0 ->]]. rewrite Hc0. reflexivity.
    - apply lookup_ge_None in Hc.
      rewrite (proj2 (lookup_ge_None cols1 k)) by lia. reflexivity. }
  exists {| bh_columns := cols; bh_names := initial_names header;
            bh_rowCount := ms_rowCount m;
            bh_rowLength := sum_N (map bc_length cols1);
            bh_dataLength := sum_N (map bc_length cols1) * ms_rowCount m;
            bh_dataOffset := 0 |}, (ms_ordered m).
  simpl. split.
  { unfold binary_header. rewrite Hinit, Hmeasure. fold cols1.
    rewrite <- Hl1, Hrun. reflexivity. }
  split; [lia|]. split.
  { intros i c Hc. destruct (Hsame i c Hc) as [c0 [Hc0 ->]].
    destruct (Hc1 i c0 Hc0) as (Hn & Hw & Ht). simpl. auto. }
  split; [rewrite Hrc; lia|]. split; [rewrite Hwidths; reflexivity|].
  split; [reflexivity|]. split; [|reflexivity].
  intros j k Hk.
  assert (j < length order) as Hj by (eapply lookup_lt_Some; eassumption).
  destruct (Hoff j k ltac:(lia) Hk) as [c [Hc Ho]].
  exists c. split; [assumption|]. rewrite Ho. f_equal.
  apply map_ext_in. intros k' Hk'.
  apply list_elem_of_In, elem_of_take in Hk' as [j' [Hk' _]].
  assert (k' < length cols1) as Hlt.
  { apply list_elem_of_lookup_2 in Hk'. rewrite Horder1 in Hk'.
    apply elem_of_seq in Hk'. lia. }
  destruct (lookup_lt_is_Some_2 cols1 k' Hlt) as [c1 Hc1'].
  unfold column_width. rewrite Hc1'. simpl. apply Hc1. assumption.
Qed.

Lemma binary_header_layout_witness :
  let chunk0 := {| br_index := 0;
                   br_header := {| ch_rowCount := 2; ch_lengths := [1; 4; 2]%N;
                                   ch_types := [IntegerType; StringType; FloatType];
                                   ch_order := [1; 2; 0] |};
                   br_data := [] |} in
  let chunk1 := {| br_index := 1;
                   br_header := {| ch_rowCount := 3; ch_lengths := [3; 2; 2]%N;
                                   ch_types := [IntegerType; StringType; StringType];
                                   ch_order := [0; 1; 2] |};
                   br_data := [] |} in
  let header := [new_ColumnStat "a"; new_ColumnStat "b"; new_ColumnStat "c"] in
  [chunk0; chunk1] !! 0 = Some chunk0 ∧
  Forall (fun r => length header ≤ length (ch_lengths (br_header r))) [chunk0; chunk1] ∧
  ch_order (br_header chunk0) ≡ₚ seq 0 (length header) ∧
  ∃ h ordered,
    binary_header header [chunk0; chunk1] = Some (h, ordered) ∧
    bh_rowCount h = 5%N ∧
    bh_rowLength h = sum_N (map bc_length (bh_columns h)) ∧
    bh_dataLength h = (bh_rowLength h * bh_rowCount h)%N.
Proof.
  intros chunk0 chunk1 header.
  assert (Forall (fun r => length header ≤ length (ch_lengths (br_header r)))
            [chunk0; chunk1]) as Hlens by (repeat constructor).
  assert (ch_order (br_header chunk0) ≡ₚ seq 0 (length header)) as Horder
    by (apply (Permutation_app_comm [1; 2] [0])).
  split; [reflexivity|]. split; [exact Hlens|]. split; [exact Horder|].
  destruct (binary_header_layout header [chunk0; chunk1] chunk0 eq_refl Hlens Horder)
    as (h & ordered & Hrun & _ & _ & Hrc & Hrl & Hdl & _).
  exists h, ordered. auto.
Defined.

(** ** mergeChunksIntoBuffer *)

Section MergeFacts.
Variable buffer : Buffer.
Variable h : BinaryHeader.

Lemma merge_tasks_lookup (chunks : list BinaryResult) :
  ∀ dataOffset i chunk,
    chunks !! i = Some chunk →
    merge_tasks buffer h dataOffset chunks !! i
    = Some (mergeIntoBuffer buffer h
              (dataOffset + bytes_before (bh_rowLength h) chunks i) chunk).
Proof.
  induction chunks as [|c chunks IH]; intros o i chunk Hi; [discriminate|].
  destruct i as [|i]; simpl in *.
  - injection Hi as <-. f_equal. f_equal. unfold bytes_before. simpl. lia.
  - rewrite (IH _ i chunk Hi). f_equal. f_equal.
    unfold bytes_before. simpl. lia.
Qed.

Lemma merge_tasks_length (chunks : list BinaryResult) :
  ∀ dataOffset, length (merge_tasks buffer h dataOffset chunks) = length chunks.
Proof. induction chunks as [|c chunks IH]; intros o; simpl; [|rewrite IH]; reflexivity. Qed.

Lemma bytes_before_S rowLength (chunks : list BinaryResult) i chunk :
  chunks !! i = Some chunk →
  bytes_before rowLength chunks (S i)
  = (bytes_before rowLength chunks i + ch_rowCount (br_header chunk) * rowLength)%N.
Proof.
  intros Hi. unfold bytes_before.
  rewrite (take_S_r _ _ _ Hi), map_app, sum_N_app. simpl. lia.
Qed.

Lemma bytes_before_mono rowLength (chunks : list BinaryResult) i j :
  i ≤ j → (bytes_before rowLength chunks i <= bytes_before rowLength chunks j)%N.
Proof.
  unfold bytes_before. revert i j.
  induction chunks as [|c chunks IH]; intros i j Hij.
  - rewrite !take_nil. simpl. lia.
  - destruct i as [|i], j as [|j]; simpl; try lia.
    specialize (IH i j ltac:(lia)). lia.
Qed.

Lemma bytes_before_all rowLength (chunks : list BinaryResult) :
  bytes_before rowLength chunks (length chunks)
  = (rowLength * sum_N (map (fun c => ch_rowCount (br_header c)) chunks))%N.
Proof.
  unfold bytes_before. rewrite firstn_all.
  induction chunks as [|c chunks IH]; simpl; [lia|]. rewrite IH. lia.
Qed.

End MergeFacts.

(** On the shared-memory path the tasks are those of the loop over the
    chunks, and the header keeps its row length. *)
Lemma merge_shared_path supportsSharedMemory chunks binaryHeader config :
  let m := mergeChunksIntoBuffer supportsSharedMemory chunks binaryHeader config in
  supportsSharedMemory && is_shared (mg_buffer m) = true →
  mg_tasks m
  = merge_tasks (mg_buffer m) (mg_header m) (bh_dataOffset (mg_header m)) chunks ∧
  bh_rowLength (mg_header m) = bh_rowLength binaryHeader.
Proof.
  unfold mergeChunksIntoBuffer.
  destruct (output config) as [[[b|] o]|];
    [destruct (o =? 0)%N| |];
    destruct supportsSharedMemory; try destruct b; simpl; intros H;
    try discriminate; auto.
Qed.

(** C7.  On the shared-memory path there is one merge task per chunk; the
    task of chunk [i] is given the data offset of the header plus the rows
    of the chunks before it times the row length, and its region spans the
    rows of the chunk times the row length.  No byte offset lies in the
    regions of two chunks, and with a data length that is the row length
    times the rows of all the chunks, the last region ends at the data
    offset plus the data length. *)
Theorem mergeChunksIntoBuffer_regions_disjoint
    (supportsSharedMemory : bool) (chunks : list BinaryResult)
    (binaryHeader : BinaryHeader) (config : Config) :
  let m := mergeChunksIntoBuffer supportsSharedMemory chunks binaryHeader config in
  let rowLength := bh_rowLength binaryHeader in
  let region i chunk :=
    let from := (bh_dataOffset (mg_header m) + bytes_before rowLength chunks i)%N in
    (from, (from + ch_rowCount (br_header chunk) * rowLength)%N) in
  supportsSharedMemory && is_shared (mg_buffer m) = true →
  bh_dataLength binaryHeader
  = (rowLength * sum_N (map (fun c => ch_rowCount (br_header c)) chunks))%N →
  length (mg_tasks m) = length chunks ∧
  (∀ i chunk, chunks !! i = Some chunk →
     mg_tasks m !! i
     = Some (mergeIntoBuffer (mg_buffer m) (mg_header m) (region i chunk).1 chunk) ∧
     ∀ t, mg_tasks m !! i = Some t → write_region t = region i chunk) ∧
  (∀ i j t t' x, i ≠ j →
     mg_tasks m !! i = Some t → mg_tasks m !! j = Some t' →
     ¬ (in_region x (write_region t) ∧ in_region x (write_region t'))) ∧
  (∀ t, last (mg_tasks m) = Some t →
     (write_region t).2
     = (bh_dataOffset (mg_header m) + bh_dataLength binaryHeader)%N).
Proof.
  intros m rowLength region Hshared Hlen.
  destruct (merge_shared_path supportsSharedMemory chunks binaryHeader config Hshared)
    as [Htasks Hrl].
  fold m rowLength in Htasks, Hrl.
  assert (∀ i chunk t, chunks !! i = Some chunk → mg_tasks m !! i = Some t →
            t = mergeIntoBuffer (mg_buffer m) (mg_header m) (region i chunk).1 chunk ∧
            write_region t = region i chunk) as Hregion.
  { intros i chunk t Hi Ht. rewrite Htasks, (merge_tasks_lookup _ _ _ _ _ _ Hi) in Ht.
    injection Ht as <-. rewrite Hrl. split; [reflexivity|].
    simpl. rewrite Hrl. reflexivity. }
  assert (length (mg_tasks m) = length chunks) as Hl
    by (rewrite Htasks; apply merge_tasks_length).
  assert (∀ i j t t', i < j →
            mg_tasks m !! i = Some t → mg_tasks m !! j = Some t' →
            ((write_region t).2 <= (write_region t').1)%N) as Hordered.
  { intros i j t t' Hij Ht Ht'.
    destruct (lookup_lt_is_Some_2 chunks i) as [ci Hci];
      [rewrite <- Hl; eapply lookup_lt_Some; eassumption|].
    destruct (lookup_lt_is_Some_2 chunks j) as [cj Hcj];
      [rewrite <- Hl; eapply lookup_lt_Some; eassumption|].
    destruct (Hregion i ci t Hci Ht) as [_ ->].
    destruct (Hregion j cj t' Hcj Ht') as [_ ->].
    subst region. simpl.
    pose proof (bytes_before_S rowLength chunks i ci Hci).
    pose proof (bytes_before_mono rowLength chunks (S i) j ltac:(lia)). lia. }
  split; [assumption|]. split.
  { intros i chunk Hi. split.
    - rewrite Htasks, (merge_tasks_lookup _ _ _ _ _ _ Hi), Hrl. reflexivity.
    - intros t Ht. apply (Hregion i chunk t Hi Ht). }
  split.
  { intros i j t t' x Hne Ht Ht' [[Ha Hb] [Hc Hd]].
    destruct (decide (i < j)) as [Hlt|Hge].
    - pose proof (Hordered i j t t' Hlt Ht Ht'). lia.
    - pose proof (Hordered j i t' t ltac:(lia) Ht' Ht). lia. }
  intros t Ht. rewrite last_lookup, Hl in Ht.
  destruct (lookup_lt_is_Some_2 chunks (pred (length chunks))) as [c Hc].
  { apply lookup_lt_Some in Ht. lia. }
  destruct (Hregion _ c t Hc Ht) as [_ ->]. subst region. simpl.
  assert (length chunks ≠ 0) as Hnz by (apply lookup_lt_Some in Hc; lia).
  pose proof (bytes_before_S rowLength chunks _ c Hc) as HS.
  replace (S (pred (length chunks))) with (length chunks) in HS by lia.
  rewrite bytes_before_all in HS. rewrite Hlen. lia.
Qed.

Lemma mergeChunksIntoBuffer_regions_disjoint_witness :
  let chunk0 := {| br_index := 0;
                   br_header := {| ch_rowCount := 2; ch_lengths := [1; 4; 2]%N;
                                   ch_types := []; ch_order := [1; 2; 0] |};
                   br_data := [] |} in
  let chunk1 := {| br_index := 1;
                   br_header := {| ch_rowCount := 3; ch_lengths := [3; 2; 2]%N;
                                   ch_types := []; ch_order := [0; 1; 2] |};
                   br_data := [] |} in
  let h := {| bh_columns := []; bh_names := ∅; bh_rowCount := 5; bh_rowLength := 9;
              bh_dataLength := 45; bh_dataOffset := 0 |} in
  let m := mergeChunksIntoBuffer true [chunk0; chunk1] h defaultConfig in
  true && is_shared (mg_buffer m) = true ∧
  bh_dataLength h
  = (bh_rowLength h
     * sum_N (map (fun c => ch_rowCount (br_header c)) [chunk0; chunk1]))%N ∧
  map write_region (mg_tasks m) = [(0, 18); (18, 45)]%N ∧
  (∀ t, last (mg_tasks m) = Some t → (write_region t).2 = 45%N).
Proof.
  intros chunk0 chunk1 h m.
  split; [reflexivity|]. split; [reflexivity|]. split; [reflexivity|].
  destruct (mergeChunksIntoBuffer_regions_disjoint true [chunk0; chunk1] h
              defaultConfig eq_refl eq_refl) as (_ & _ & _ & Hlast).
  exact Hlast.
Defined.

(** Without shared memory there is one task, which copies every chunk. *)
Lemma merge_fallback_path chunks binaryHeader config :
  ∃ buffer h dataOffset,
    mg_tasks (mergeChunksIntoBuffer false chunks binaryHeader config)
    = [mergeParsedResults buffer h dataOffset chunks].
Proof.
  unfold mergeChunksIntoBuffer.
  destruct (output config) as [[[b|] o]|];
    [destruct (o =? 0)%N| |]; simpl; eauto.
Qed.

Lemma foldl_measure_result_None rs : foldl measure_result None rs = None.
Proof. induction rs as [|r rs IH]; simpl; [reflexivity|assumption]. Qed.

Lemma foldl_measure_result_rowCount rs :
  ∀ m m', foldl measure_result (Some m) rs = Some m' →
          ms_rowCount m'
          = (ms_rowCount m + sum_N (map (fun r => ch_rowCount (br_header r)) rs))%N.
Proof.
  induction rs as [|r rs IH]; intros m m' H; simpl in *.
  - injection H as <-. lia.
  - destruct (widen_columns _ _ _) as [cols|];
      [|rewrite foldl_measure_result_None in H; discriminate].
    rewrite (IH _ _ H). simpl. lia.
Qed.

(** The header [binaryChunksFromBlobs] returns always has the data length
    the merge counts on: the row length times the rows of all the results. *)
Lemma binary_header_data_length header results h ordered :
  binary_header header results = Some (h, ordered) →
  bh_dataLength h
  = (bh_rowLength h * sum_N (map (fun r => ch_rowCount (br_header r)) results))%N ∧
  bh_dataOffset h = 0%N.
Proof.
  unfold binary_header. intros H.
  destruct (initial_columns header results) as [cols0|]; [|discriminate].
  destruct (foldl measure_result _ results) as [m|] eqn:Hm; [|discriminate].
  apply foldl_measure_result_rowCount in Hm. simpl in Hm.
  destruct (foldl (layout_step results) _ _) as [[cols o]|]; [|discriminate].
  injection H as <- <-. simpl. rewrite Hm. split; [lia|reflexivity].
Qed.

(** ** iterateBlobs *)

Lemma source_rows_snoc rows count :
  source_rows (rows ++ [count])
  = source_rows rows ++ map (pair (length rows)) (seq 0 count).
Proof.
  unfold source_rows. rewrite imap_app, concat_app. simpl.
  rewrite Nat.add_0_r, app_nil_r. reflexivity.
Qed.

Lemma expected_calls_snoc rows count :
  expected_calls (rows ++ [count])
  = expected_calls rows ++
    map (fun i => {| call_chunk := length rows; call_row := i;
                     call_index := length (expected_calls rows) + i |})
        (seq 0 count).
Proof.
  unfold expected_calls. rewrite source_rows_snoc, imap_app. f_equal.
  rewrite length_imap. apply list_eq. intros i.
  rewrite list_lookup_imap, !list_lookup_fmap.
  destruct (seq 0 count !! i) as [j|] eqn:Hj; simpl; [|reflexivity].
  apply lookup_seq in Hj as [-> _]. reflexivity.
Qed.

(** The second argument of a call is its position among the calls. *)
Lemma expected_calls_index rows k c :
  expected_calls rows !! k = Some c → call_index c = k.
Proof.
  unfold expected_calls. rewrite list_lookup_imap.
  destruct (source_rows rows !! k); simpl; [|discriminate].
  intros H. injection H as <-. reflexivity.
Qed.

Lemma elem_of_concat {A} (x : A) (ls : list (list A)) :
  x ∈ concat ls ↔ ∃ l, x ∈ l ∧ l ∈ ls.
Proof.
  rewrite list_elem_of_In, in_concat. split.
  - intros [l [Hl Hx]]. exists l. rewrite !list_elem_of_In. auto.
  - intros [l [Hx Hl]]. exists l. rewrite !list_elem_of_In in *. auto.
Qed.

(** Every row of every chunk is in [source_rows], once. *)
Lemma source_rows_complete rows chunk count row :
  rows !! chunk = Some count → row < count → (chunk, row) ∈ source_rows rows.
Proof.
  intros Hc Hr. unfold source_rows. apply elem_of_concat.
  exists (map (pair chunk) (seq 0 count)). split.
  - apply list_elem_of_fmap. exists row. split; [reflexivity|].
    apply elem_of_seq. lia.
  - apply list_elem_of_lookup. exists chunk.
    rewrite list_lookup_imap, Hc. reflexivity.
Qed.

Lemma source_rows_NoDup rows : NoDup (source_rows rows).
Proof.
  induction rows as [|count rows IH] using rev_ind; [constructor|].
  rewrite source_rows_snoc. apply NoDup_app. split; [assumption|]. split.
  - intros [c r] Hin Hnew. apply list_elem_of_fmap in Hnew as [r' [Heq _]].
    injection Heq as -> ->.
    unfold source_rows in Hin. apply elem_of_concat in Hin as [l [Hl Hin]].
    apply list_elem_of_lookup in Hin as [c Hc]. rewrite list_lookup_imap in Hc.
    destruct (rows !! c) as [n'|] eqn:Hrc; simpl in Hc; [|discriminate].
    injection Hc as <-. apply list_elem_of_fmap in Hl as [r0 [Heq _]].
    injection Heq as Heq _. apply lookup_lt_Some in Hrc. lia.
  - apply NoDup_fmap_2_strong; [|apply NoDup_seq].
    intros x y _ _ Hxy. congruence.
Qed.

Lemma parse_tasks_length mode blobs header config :
  length (parse_tasks mode blobs header config) = length blobs.
Proof. apply length_imap. Qed.

Lemma parse_tasks_index mode blobs header config i o :
  parse_tasks mode blobs header config !! i = Some o → po_index o = i.
Proof.
  unfold parse_tasks. rewrite list_lookup_imap.
  destruct (blobs !! i); simpl; [|discriminate]. intros H. injection H as <-. reflexivity.
Qed.

Lemma tail_drop {A} (l : list A) j : tail (drop j l) = drop (S j) l.
Proof.
  revert j. induction l as [|x l IH]; intros [|j]; simpl; try reflexivity.
  apply IH.
Qed.

Lemma head_drop {A} (l : list A) j : head (drop j l) = l !! j.
Proof. rewrite head_lookup, lookup_drop, Nat.add_0_r. reflexivity. Qed.

(** The seeding loop after [j] turns. *)
Lemma seed_loop (st : Iter) j :
  Nat.iter j schedule_shift st
  = {| it_tasks := drop j (it_tasks st);
       it_pending := it_pending st ++ map (fun i => it_tasks st !! i) (seq 0 j);
       it_results := it_results st;
       it_blobIndex := it_blobIndex st;
       it_index := it_index st;
       it_calls := it_calls st;
       it_resolved := it_resolved st |}.
Proof.
  induction j as [|j IH].
  - simpl. rewrite app_nil_r. destruct st; reflexivity.
  - rewrite seq_S, map_app, app_assoc.
    change (Nat.iter (S j) schedule_shift st)
      with (schedule_shift (Nat.iter j schedule_shift st)).
    rewrite IH.
    unfold schedule_shift. cbn [it_tasks it_pending it_results it_blobIndex
                                 it_index it_calls it_resolved].
    rewrite tail_drop, head_drop. reflexivity.
Qed.

(** The [while] loop never needs more fuel than [results] has keys. *)
Lemma drain_fuel blobs fuel extra :
  ∀ st, size (it_results st) ≤ fuel →
        drain blobs (fuel + extra) st = drain blobs fuel st.
Proof.
  induction fuel as [|fuel IH]; intros st Hsize.
  - assert (it_results st = ∅) as He by (apply map_size_empty_inv; lia).
    destruct extra; simpl; rewrite He, lookup_empty; reflexivity.
  - simpl. destruct (it_results st !! S (it_blobIndex st)) as [r|] eqn:Hr; [|reflexivity].
    apply IH. unfold schedule_next.
    assert (size (delete (S (it_blobIndex st)) (it_results st)) ≤ fuel) as Hd.
    { rewrite map_size_delete_Some by eauto. lia. }
    destruct (it_tasks _); exact Hd.
Qed.

Section IterateFacts.
Variable parseBlob : ParseOptions → LoadResult.
Variable workers : nat.
Variable blobs : list Blob.
Variable header : list ColumnStat.
Variable config : Config.
(** A task answers with the index it was given. *)
Hypothesis Hecho : ∀ o, lr_index (parseBlob o) = po_index o.
Hypothesis Hworkers : 1 ≤ workers.

Local Abbreviation tasks0 := (parse_tasks LOAD blobs header config).
Local Abbreviation rows := (map (fun o => lr_rowCount (parseBlob o)) tasks0).
Local Abbreviation inv := (consumed parseBlob workers tasks0).
Local Abbreviation sched := (scheduled (length tasks0) workers).

Lemma start_consumed :
  inv 0 (iterate_start workers blobs header config) ∧
  it_blobIndex (iterate_start workers blobs header config) = 0 ∧
  it_results (iterate_start workers blobs header config) = ∅.
Proof.
  unfold iterate_start. rewrite seed_loop. simpl.
  split; [|split; reflexivity].
  assert (∀ k o, map (fun i => tasks0 !! i) (seq 0 workers) !! k = Some (Some o) →
                 k < workers ∧ tasks0 !! k = Some o) as Hpend.
  { intros k o Hk. rewrite list_lookup_fmap in Hk.
    destruct (seq 0 workers !! k) as [i|] eqn:Hi; [|discriminate].
    apply lookup_seq in Hi as [-> Hlt]. simpl in Hk. injection Hk as Hk. auto. }
  constructor; simpl.
  - unfold scheduled. destruct (decide (workers ≤ length tasks0)).
    + rewrite Nat.min_r by lia. reflexivity.
    + rewrite Nat.min_l by lia. rewrite !drop_ge by lia. reflexivity.
  - reflexivity.
  - reflexivity.
  - intros k o Hk. apply Hpend in Hk as [Hlt Hk].
    pose proof (parse_tasks_index _ _ _ _ _ _ Hk) as Hi.
    pose proof (lookup_lt_Some _ _ _ Hk) as Hn.
    rewrite Hi. split; [assumption|]. split; [unfold scheduled; lia|apply lookup_empty].
  - intros k1 k2 o1 o2 H1 H2 Heq.
    apply Hpend in H1 as [_ H1]. apply Hpend in H2 as [_ H2].
    apply parse_tasks_index in H1, H2. lia.
  - intros i r Hi. rewrite lookup_empty in Hi. discriminate.
  - intros i Hi. unfold scheduled in Hi. left.
    destruct (lookup_lt_is_Some_2 tasks0 i ltac:(lia)) as [o Ho].
    exists i, o. split; [|eapply parse_tasks_index; eassumption].
    rewrite list_lookup_fmap, lookup_seq_lt by lia. simpl. rewrite Ho. reflexivity.
  - lia.
  - split; [discriminate|]. intros [H1 H2]. lia.
Qed.

(** Consuming the chunk at [blobIndex] from the buffer: the next task, if
    one is left, goes to the pool, and the state is that of one more chunk
    consumed. *)
Lemma consume_consumed c st r :
  inv c st → it_blobIndex st = c → it_results st !! c = Some r →
  inv (S c) (consume blobs st r) ∧
  it_blobIndex (consume blobs st r) = c ∧
  size (it_results (consume blobs st r)) = pred (size (it_results st)).
Proof.
  intros Hinv Hb Hr.
  destruct (cs_results _ _ _ _ _ Hinv c r Hr) as [[_ Hc] [o [Ho ->]]].
  assert (c < length tasks0) as Hcn by (unfold scheduled in Hc; lia).
  assert (rows !! c = Some (lr_rowCount (parseBlob o))) as Hrow
    by (rewrite list_lookup_fmap, Ho; reflexivity).
  assert (lr_index (parseBlob o) = c) as Hidx
    by (rewrite Hecho; eapply parse_tasks_index; eassumption).
  assert (it_resolved st = false) as Hres.
  { destruct (it_resolved st) eqn:E; [|reflexivity].
    apply (cs_resolved _ _ _ _ _ Hinv) in E. lia. }
  (* what the call of [invokeIterator] and the [delete] leave *)
  assert (it_calls (invokeIterator blobs st (parseBlob o))
          = expected_calls (take (S c) rows)) as Hcalls.
  { simpl. rewrite (take_S_r _ _ _ Hrow), expected_calls_snoc.
    rewrite length_take, length_map, Nat.min_l by lia.
    rewrite <- (cs_calls _ _ _ _ _ Hinv), <- (cs_index _ _ _ _ _ Hinv), Hidx.
    reflexivity. }
  assert (it_index (invokeIterator blobs st (parseBlob o))
          = length (it_calls (invokeIterator blobs st (parseBlob o)))) as Hindex.
  { simpl. rewrite length_app, length_map, length_seq, (cs_index _ _ _ _ _ Hinv).
    reflexivity. }
  assert (it_resolved (invokeIterator blobs st (parseBlob o)) = true
          ↔ 1 ≤ length tasks0 ∧ S c = length tasks0) as Hresolved.
  { simpl. rewrite Hb, Hres. rewrite parse_tasks_length in *.
    destruct (Z.of_nat (length blobs) - 1 <=? Z.of_nat c)%Z eqn:E.
    - apply Z.leb_le in E. split; [lia|reflexivity].
    - apply Z.leb_gt in E. split; [discriminate|lia]. }
  assert (∀ i r', delete c (it_results st) !! i = Some r' →
            S c ≤ i < sched c ∧ ∃ o', tasks0 !! i = Some o' ∧ r' = parseBlob o')
    as Hresults.
  { intros i r' Hi. destruct (decide (i = c)) as [->|Hne].
    - rewrite lookup_delete_eq in Hi. discriminate.
    - rewrite lookup_delete_ne in Hi by congruence.
      destruct (cs_results _ _ _ _ _ Hinv i r' Hi) as [Hi' Ho']. split; [lia|assumption]. }
  assert (∀ k o', it_pending st !! k = Some (Some o') →
            tasks0 !! po_index o' = Some o' ∧ S c ≤ po_index o' < sched c ∧
            delete c (it_results st) !! po_index o' = None) as Hpend.
  { intros k o' Hk.
    destruct (cs_pending _ _ _ _ _ Hinv k o' Hk) as (H1 & H2 & H3).
    assert (po_index o' ≠ c) by (intros E; rewrite E, Hr in H3; discriminate).
    split; [assumption|]. split; [lia|].
    rewrite lookup_delete_ne by congruence. assumption. }
  assert (size (delete c (it_results st)) = pred (size (it_results st))) as Hsize
    by (apply map_size_delete_Some; eauto).
  unfold consume. cbn [invokeIterator it_blobIndex it_results]. rewrite Hb.
  unfold schedule_next.
  change (it_tasks (set_results (delete c (it_results st))
                      (invokeIterator blobs st (parseBlob o))))
    with (it_tasks st).
  rewrite (cs_tasks _ _ _ _ _ Hinv).
  destruct (decide (c + workers < length tasks0)) as [Hmore|Hdone].
  - (* a task is left: it goes to the pool *)
    assert (sched c = c + workers) as Hs by (unfold scheduled; lia).
    assert (sched (S c) = S (c + workers)) as Hs' by (unfold scheduled; lia).
    destruct (lookup_lt_is_Some_2 tasks0 (c + workers) Hmore) as [ok Hok].
    pose proof (parse_tasks_index _ _ _ _ _ _ Hok) as Hik.
    assert (it_tasks st = ok :: drop (S (c + workers)) tasks0) as Htasks
      by (rewrite (cs_tasks _ _ _ _ _ Hinv), Hs; apply drop_S, Hok).
    rewrite Hs, (drop_S _ _ _ Hok).
    split; [|split; [exact Hb|exact Hsize]].
    constructor; cbn [schedule_shift set_results invokeIterator it_tasks it_pending
                      it_results it_calls it_index it_resolved];
      rewrite ?Htasks; cbn [head tail].
    + rewrite Hs'. reflexivity.
    + exact Hcalls.
    + exact Hindex.
    + intros k o' Hk. rewrite Hs'.
      destruct (decide (k < length (it_pending st))) as [Hlt|Hge].
      * rewrite lookup_app_l in Hk by assumption.
        destruct (Hpend k o' Hk) as (H1 & H2 & H3). split; [assumption|]. split; [lia|assumption].
      * rewrite lookup_app_r in Hk by lia.
        destruct (k - length (it_pending st)); simpl in Hk; [|discriminate].
        injection Hk as <-. rewrite Hik. split; [assumption|]. split; [lia|].
        destruct (delete c (it_results st) !! (c + workers)) as [r'|] eqn:E; [|reflexivity].
        apply Hresults in E. lia.
    + intros k1 k2 o1 o2 H1 H2 Heq.
      destruct (decide (k1 < length (it_pending st))) as [Hlt1|Hge1];
        destruct (decide (k2 < length (it_pending st))) as [Hlt2|Hge2].
      * rewrite lookup_app_l in H1, H2 by assumption.
        eapply (cs_unique _ _ _ _ _ Hinv); eassumption.
      * rewrite lookup_app_l in H1 by assumption. rewrite lookup_app_r in H2 by lia.
        destruct (k2 - length (it_pending st)); simpl in H2; [|discriminate].
        injection H2 as <-. apply Hpend in H1. lia.
      * rewrite lookup_app_l in H2 by assumption. rewrite lookup_app_r in H1 by lia.
        destruct (k1 - length (it_pending st)); simpl in H1; [|discriminate].
        injection H1 as <-. apply Hpend in H2. lia.
      * rewrite lookup_app_r in H1, H2 by lia.
        destruct (k1 - length (it_pending st)) eqn:E1; simpl in H1; [|discriminate].
        destruct (k2 - length (it_pending st)) eqn:E2; simpl in H2; [|discriminate].
        lia.
    + intros i r' Hi. rewrite Hs'. apply Hresults in Hi as [Hi Ho']. split; [lia|assumption].
    + intros i Hi. rewrite Hs' in Hi.
      destruct (decide (i = c + workers)) as [->|Hne].
      * left. exists (length (it_pending st)), ok. split; [|assumption].
        rewrite lookup_app_r, Nat.sub_diag by lia. reflexivity.
      * destruct (cs_cover _ _ _ _ _ Hinv i ltac:(lia)) as [(k & o' & Hk & Ho')|Hin].
        -- left. exists k, o'. split; [|assumption].
           rewrite lookup_app_l by (eapply lookup_lt_Some; eassumption). assumption.
        -- right. rewrite lookup_delete_ne by lia. assumption.
    + lia.
    + exact Hresolved.
  - (* no task is left *)
    assert (sched c = length tasks0) as Hs by (unfold scheduled; lia).
    assert (sched (S c) = length tasks0) as Hs' by (unfold scheduled; lia).
    rewrite Hs, drop_all.
    split; [|split; [exact Hb|exact Hsize]].
    constructor; cbn [set_results invokeIterator it_tasks it_pending it_results
                      it_calls it_index it_resolved].
    + rewrite (cs_tasks _ _ _ _ _ Hinv), Hs, Hs'. reflexivity.
    + exact Hcalls.
    + exact Hindex.
    + intros k o' Hk. rewrite Hs', <- Hs. apply (Hpend k o' Hk).
    + apply (cs_unique _ _ _ _ _ Hinv).
    + intros i r' Hi. rewrite Hs', <- Hs. apply (Hresults i r' Hi).
    + intros i Hi. rewrite Hs', <- Hs in Hi.
      destruct (cs_cover _ _ _ _ _ Hinv i ltac:(lia)) as [Hp|Hin]; [left; assumption|].
      right. rewrite lookup_delete_ne by lia. assumption.
    + lia.
    + exact Hresolved.
Qed.

Lemma set_blobIndex_consumed c b st : inv c st → inv c (set_blobIndex b st).
Proof. intros []. constructor; assumption. Qed.

(** The [while] loop, entered when the chunk at [blobIndex] has just been
    consumed, ends in a state where the chunks before [blobIndex] are
    consumed and [results] has nothing for [blobIndex]. *)
Lemma drain_consumed fuel :
  ∀ st c,
    inv (S c) st → it_blobIndex st = c → size (it_results st) ≤ fuel →
    inv (it_blobIndex (drain blobs fuel st)) (drain blobs fuel st) ∧
    it_results (drain blobs fuel st) !! it_blobIndex (drain blobs fuel st) = None.
Proof.
  induction fuel as [|fuel IH]; intros st c Hinv Hb Hsize.
  - assert (it_results st = ∅) as He by (apply map_size_empty_inv; lia).
    simpl. rewrite He, lookup_empty. simpl. rewrite He, lookup_empty, Hb.
    split; [apply set_blobIndex_consumed; assumption|reflexivity].
  - simpl. rewrite Hb.
    destruct (it_results st !! S c) as [r|] eqn:Hr.
    + change (drain blobs fuel
                (schedule_next
                   (set_results
                      (delete (it_blobIndex (invokeIterator blobs (set_blobIndex (S c) st) r))
                         (it_results (invokeIterator blobs (set_blobIndex (S c) st) r)))
                      (invokeIterator blobs (set_blobIndex (S c) st) r))))
        with (drain blobs fuel (consume blobs (set_blobIndex (S c) st) r)).
      destruct (consume_consumed (S c) (set_blobIndex (S c) st) r)
        as (Hinv' & Hb' & Hsize'); [apply set_blobIndex_consumed; assumption|reflexivity|exact Hr|].
      apply (IH _ (S c) Hinv' Hb'). simpl in Hsize'. lia.
    + simpl. rewrite Hr. split; [apply set_blobIndex_consumed; assumption|reflexivity].
Qed.

Lemma lookup_delete_Some_inv {A} (l : list A) k k' x :
  delete k l !! k' = Some x →
  l !! (if decide (k' < k) then k' else S k') = Some x.
Proof. rewrite list_lookup_delete. auto. Qed.

Lemma lookup_delete_Some_back {A} (l : list A) k k'' x :
  l !! k'' = Some x → k'' ≠ k → ∃ k', delete k l !! k' = Some x.
Proof.
  intros Hx Hne. destruct (decide (k'' < k)).
  - exists k''. rewrite list_lookup_delete_lt by assumption. assumption.
  - exists (pred k''). rewrite list_lookup_delete_ge by lia.
    replace (S (pred k'')) with k'' by lia. assumption.
Qed.

(** An answer that is not the next one is kept in [results]. *)
Lemma buffer_consumed c st k o :
  inv c st → it_pending st !! k = Some (Some o) →
  inv c (set_results (<[po_index o := parseBlob o]> (it_results st)) (drop_pending k st)).
Proof.
  intros Hinv Hk.
  destruct (cs_pending _ _ _ _ _ Hinv k o Hk) as (Hko & Hkr & Hkn).
  assert (∀ k' o', delete k (it_pending st) !! k' = Some (Some o') →
            ∃ k'', it_pending st !! k'' = Some (Some o') ∧ k'' ≠ k ∧
                   k'' = (if decide (k' < k) then k' else S k') ∧
                   po_index o' ≠ po_index o) as Hshift.
  { intros k' o' Hk'. apply lookup_delete_Some_inv in Hk'.
    eexists. split; [exact Hk'|]. split; [case_decide; lia|]. split; [reflexivity|].
    intros Heq. pose proof (cs_unique _ _ _ _ _ Hinv _ _ _ _ Hk' Hk Heq).
    case_decide; lia. }
  constructor; cbn [set_results drop_pending it_tasks it_pending it_results
                    it_calls it_index it_resolved].
  - apply (cs_tasks _ _ _ _ _ Hinv).
  - apply (cs_calls _ _ _ _ _ Hinv).
  - apply (cs_index _ _ _ _ _ Hinv).
  - intros k' o' Hk'. destruct (Hshift k' o' Hk') as (k'' & Hk'' & _ & _ & Hne).
    destruct (cs_pending _ _ _ _ _ Hinv k'' o' Hk'') as (H1 & H2 & H3).
    split; [assumption|]. split; [assumption|].
    rewrite lookup_insert_ne by congruence. assumption.
  - intros k1 k2 o1 o2 H1 H2 Heq.
    destruct (Hshift k1 o1 H1) as (k1' & H1' & _ & E1 & _).
    destruct (Hshift k2 o2 H2) as (k2' & H2' & _ & E2 & _).
    pose proof (cs_unique _ _ _ _ _ Hinv _ _ _ _ H1' H2' Heq).
    repeat case_decide; lia.
  - intros i r Hi. destruct (decide (i = po_index o)) as [->|Hne].
    + rewrite lookup_insert_eq in Hi. injection Hi as <-. eauto.
    + rewrite lookup_insert_ne in Hi by congruence.
      apply (cs_results _ _ _ _ _ Hinv i r Hi).
  - intros i Hi. destruct (decide (i = po_index o)) as [->|Hne].
    + right. rewrite lookup_insert_eq. eauto.
    + destruct (cs_cover _ _ _ _ _ Hinv i Hi) as [(k'' & o' & Hk'' & Ho')|Hin].
      * left. destruct (lookup_delete_Some_back _ k k'' _ Hk'') as [k' Hk'].
        { intros ->. rewrite Hk in Hk''. injection Hk'' as <-. congruence. }
        exists k', o'. auto.
      * right. rewrite lookup_insert_ne by congruence. assumption.
  - apply (cs_bound _ _ _ _ _ Hinv).
  - apply (cs_resolved _ _ _ _ _ Hinv).
Qed.

(** A task scheduled without options leaves the pool without a trace. *)
Lemma void_consumed c st k :
  inv c st → it_pending st !! k = Some None → inv c (drop_pending k st).
Proof.
  intros Hinv Hk.
  constructor; cbn [drop_pending it_tasks it_pending it_results
                    it_calls it_index it_resolved].
  - apply (cs_tasks _ _ _ _ _ Hinv).
  - apply (cs_calls _ _ _ _ _ Hinv).
  - apply (cs_index _ _ _ _ _ Hinv).
  - intros k' o' Hk'. apply lookup_delete_Some_inv in Hk'.
    apply (cs_pending _ _ _ _ _ Hinv _ o' Hk').
  - intros k1 k2 o1 o2 H1 H2 Heq.
    apply lookup_delete_Some_inv in H1, H2.
    pose proof (cs_unique _ _ _ _ _ Hinv _ _ _ _ H1 H2 Heq).
    repeat case_decide; lia.
  - apply (cs_results _ _ _ _ _ Hinv).
  - intros i Hi. destruct (cs_cover _ _ _ _ _ Hinv i Hi) as [(k'' & o' & Hk'' & Ho')|Hin].
    + left. destruct (lookup_delete_Some_back _ k k'' _ Hk'') as [k' Hk'].
      { intros ->. rewrite Hk in Hk''. discriminate. }
      exists k', o'. auto.
    + right. assumption.
  - apply (cs_bound _ _ _ _ _ Hinv).
  - apply (cs_resolved _ _ _ _ _ Hinv).
Qed.

Local Abbreviation quiet := (quiescent parseBlob workers tasks0).

Lemma start_quiescent : quiet (iterate_start workers blobs header config).
Proof.
  destruct start_consumed as (Hinv & Hb & Hr). unfold quiescent.
  rewrite Hb, Hr. split; [assumption|apply lookup_empty].
Qed.

Lemma answer_quiescent st k st' :
  quiet st → answer parseBlob blobs st k = Some st' → quiet st'.
Proof.
  intros [Hinv Hnone]. unfold answer.
  destruct (it_pending st !! k) as [[o|]|] eqn:Hk; [| |discriminate];
    intros H; injection H as <-.
  - pose proof (buffer_consumed _ st k o Hinv Hk) as Hbuf.
    unfold handleResult. rewrite Hecho.
    change (it_blobIndex (drop_pending k st)) with (it_blobIndex st).
    destruct (po_index o =? it_blobIndex st) eqn:E.
    + apply Nat.eqb_eq in E. rewrite E in Hbuf.
      assert (schedule_next (invokeIterator blobs (drop_pending k st) (parseBlob o))
              = consume blobs
                  (set_results (<[it_blobIndex st := parseBlob o]> (it_results st))
                     (drop_pending k st)) (parseBlob o)) as Heq.
      { unfold consume. cbn [invokeIterator set_results drop_pending it_blobIndex
                             it_results]. rewrite delete_insert_id by assumption.
        reflexivity. }
      rewrite Heq.
      destruct (consume_consumed (it_blobIndex st) _ (parseBlob o) Hbuf eq_refl)
        as (Hinv' & Hb' & _); [apply lookup_insert_eq|].
      apply (drain_consumed _ _ (it_blobIndex st) Hinv' Hb'). lia.
    + apply Nat.eqb_neq in E. split; [exact Hbuf|].
      cbn [set_results drop_pending it_results it_blobIndex].
      rewrite lookup_insert_ne by assumption. assumption.
  - split; [apply void_consumed; assumption|assumption].
Qed.

Lemma run_quiescent order :
  ∀ st st', quiet st → iterate_run parseBlob blobs st order = Some st' → quiet st'.
Proof.
  induction order as [|k order IH]; intros st st' Hq H; simpl in H.
  - injection H as <-. assumption.
  - destruct (answer parseBlob blobs st k) as [st1|] eqn:Ha; [|discriminate].
    eapply IH; [|eassumption]. eapply answer_quiescent; eassumption.
Qed.

(** While a chunk is left to consume, the task of the next chunk is with
    the pool. *)
Lemma next_is_pending st :
  quiet st → it_blobIndex st < length tasks0 →
  ∃ k o, it_pending st !! k = Some (Some o) ∧ po_index o = it_blobIndex st.
Proof.
  intros [Hinv Hnone] Hlt.
  destruct (cs_cover _ _ _ _ _ Hinv (it_blobIndex st)) as [Hp|[r Hr]].
  - unfold scheduled. lia.
  - assumption.
  - rewrite Hnone in Hr. discriminate.
Qed.

(** Every task the pool still holds is the task of a chunk not yet
    consumed. *)
Lemma pending_is_not_consumed st k o :
  quiet st → it_pending st !! k = Some (Some o) → it_blobIndex st < length tasks0.
Proof.
  intros [Hinv _] Hk.
  destruct (cs_pending _ _ _ _ _ Hinv k o Hk) as (_ & H & _).
  unfold scheduled in H. lia.
Qed.

Lemma schedule_next_unanswered st : unanswered (schedule_next st) = unanswered st.
Proof.
  unfold schedule_next. destruct (it_tasks st) as [|t ts] eqn:E; [reflexivity|].
  unfold unanswered. simpl. rewrite E, length_app. simpl. lia.
Qed.

Lemma drain_unanswered fuel : ∀ st, unanswered (drain blobs fuel st) = unanswered st.
Proof.
  induction fuel as [|fuel IH]; intros st; simpl.
  - destruct (it_results st !! S (it_blobIndex st)); reflexivity.
  - destruct (it_results st !! S (it_blobIndex st)); [|reflexivity].
    rewrite IH, schedule_next_unanswered. reflexivity.
Qed.

Lemma handleResult_unanswered st r :
  unanswered (handleResult blobs st r) = unanswered st.
Proof.
  unfold handleResult. destruct (_ =? _); [|reflexivity].
  rewrite drain_unanswered, schedule_next_unanswered. reflexivity.
Qed.

(** Each answer uses up one task. *)
Lemma answer_unanswered st k st' :
  answer parseBlob blobs st k = Some st' → unanswered st = S (unanswered st').
Proof.
  unfold answer. destruct (it_pending st !! k) as [task|] eqn:Hk; [|discriminate].
  assert (unanswered st = S (unanswered (drop_pending k st))) as Hd.
  { unfold unanswered. simpl. rewrite length_delete by eauto.
    apply lookup_lt_Some in Hk. lia. }
  destruct task as [o|]; intros H; injection H as <-; [|assumption].
  rewrite handleResult_unanswered. assumption.
Qed.

Lemma run_unanswered order :
  ∀ st st', iterate_run parseBlob blobs st order = Some st' →
            unanswered st = length order + unanswered st'.
Proof.
  induction order as [|k order IH]; intros st st' H; simpl in H.
  - injection H as <-. reflexivity.
  - destruct (answer parseBlob blobs st k) as [st1|] eqn:Ha; [|discriminate].
    rewrite (answer_unanswered _ _ _ Ha), (IH _ _ H). simpl. lia.
Qed.

Lemma start_unanswered :
  unanswered (iterate_start workers blobs header config)
  = Nat.max (length blobs) workers.
Proof.
  unfold iterate_start. rewrite seed_loop. unfold unanswered. simpl.
  rewrite length_drop, length_map, length_seq, parse_tasks_length. lia.
Qed.

End IterateFacts.

(** C1.  Whatever the number of workers, from one up, and in whatever
    order the pool answers, with tasks that answer with the index they were
    given: the calls of the row callback made so far are those of the rows
    of the chunks before [blobIndex], in source order, each with its position
    as second argument; and once the pool holds no task, they are the calls
    of all the rows of the source, each row once. *)
Theorem iterateBlobs_rows_in_source_order
    (parseBlob : ParseOptions → LoadResult) (workers : nat) (blobs : list Blob)
    (header : list ColumnStat) (config : Config) (order : list nat) (st : Iter) :
  (∀ o, lr_index (parseBlob o) = po_index o) →
  1 ≤ workers →
  iterateBlobs parseBlob workers blobs header config order = Some st →
  let rows := map (fun o => lr_rowCount (parseBlob o))
                  (parse_tasks LOAD blobs header config) in
  it_calls st = expected_calls (take (it_blobIndex st) rows) ∧
  (∀ k c, it_calls st !! k = Some c → call_index c = k) ∧
  ((∀ k o, it_pending st !! k ≠ Some (Some o)) →
   it_calls st = expected_calls rows ∧
   map (fun c => (call_chunk c, call_row c)) (it_calls st) = source_rows rows).
Proof.
  intros Hecho Hworkers Hrun rows.
  assert (quiescent parseBlob workers (parse_tasks LOAD blobs header config) st) as Hq.
  { unfold iterateBlobs in Hrun.
    eapply run_quiescent; [assumption|assumption| |exact Hrun].
    apply start_quiescent; assumption. }
  pose proof Hq as [Hinv Hnone].
  pose proof (cs_calls _ _ _ _ _ Hinv) as Hcalls. fold rows in Hcalls.
  split; [assumption|]. split.
  { intros k c Hk. rewrite Hcalls in Hk. eapply expected_calls_index; eassumption. }
  intros Hidle.
  assert (it_calls st = expected_calls rows) as Hall.
  { rewrite Hcalls. f_equal. apply take_ge.
    subst rows. rewrite length_map.
    destruct (decide (it_blobIndex st < length (parse_tasks LOAD blobs header config)))
      as [Hlt|Hge]; [|lia].
    destruct (next_is_pending parseBlob workers blobs header config Hworkers st Hq Hlt)
      as (k & o & Hk & _).
    exfalso. apply (Hidle k o Hk). }
  split; [assumption|].
  rewrite Hall. unfold expected_calls. apply list_eq. intros k.
  rewrite list_lookup_fmap, list_lookup_imap.
  destruct (source_rows rows !! k) as [[c r]|]; reflexivity.
Qed.

Lemma iterateBlobs_rows_in_source_order_witness :
  let parseBlob o := {| lr_index := po_index o;
                        lr_rowCount := Z.to_nat (blob_end (po_blob o)) |} in
  let blobs := [{| blob_start := 0; blob_end := 2 |};
                {| blob_start := 0; blob_end := 0 |};
                {| blob_start := 0; blob_end := 3 |}] in
  (∀ o, lr_index (parseBlob o) = po_index o) ∧
  1 ≤ 2 ∧
  ∃ st,
    iterateBlobs parseBlob 2 blobs [] defaultConfig [1; 0; 0] = Some st ∧
    it_calls st = expected_calls [2; 0; 3] ∧
    map (fun c => (call_chunk c, call_row c)) (it_calls st)
    = [(0, 0); (0, 1); (2, 0); (2, 1); (2, 2)].
Proof.
  intros parseBlob blobs.
  split; [reflexivity|]. split; [lia|].
  eexists. split; [reflexivity|].
  destruct (iterateBlobs_rows_in_source_order parseBlob 2 blobs [] defaultConfig
              [1; 0; 0] _ ltac:(reflexivity) ltac:(lia) eq_refl)
    as (_ & _ & Hall).
  apply Hall. intros [|k] o; discriminate.
Defined.

(** C8.  With a chunk list that is not empty and one worker or more, in
    whatever order the pool answers: [resolve] has run exactly when the
    chunks are all consumed, the calls made being then those of all the
    rows; as long as it has not, the task of the chunk at [blobIndex] is
    with the pool and can be answered, whatever [results] holds; and every
    answer uses up one of the tasks, so that a run has an end. *)
Theorem iterateBlobs_resolves
    (parseBlob : ParseOptions → LoadResult) (workers : nat) (blobs : list Blob)
    (header : list ColumnStat) (config : Config) (order : list nat) (st : Iter) :
  (∀ o, lr_index (parseBlob o) = po_index o) →
  blobs ≠ [] →
  1 ≤ workers →
  iterateBlobs parseBlob workers blobs header config order = Some st →
  (it_resolved st = true ↔ it_blobIndex st = length blobs) ∧
  (it_resolved st = true →
   it_calls st
   = expected_calls (map (fun o => lr_rowCount (parseBlob o))
                         (parse_tasks LOAD blobs header config))) ∧
  (it_resolved st = false →
   ∃ k o, it_pending st !! k = Some (Some o) ∧ po_index o = it_blobIndex st ∧
          is_Some (answer parseBlob blobs st k)) ∧
  ((∀ k o, it_pending st !! k ≠ Some (Some o)) → it_resolved st = true) ∧
  length order + unanswered st = Nat.max (length blobs) workers.
Proof.
  intros Hecho Hne Hworkers Hrun.
  assert (quiescent parseBlob workers (parse_tasks LOAD blobs header config) st) as Hq.
  { unfold iterateBlobs in Hrun.
    eapply run_quiescent; [assumption|assumption| |exact Hrun].
    apply start_quiescent; assumption. }
  pose proof Hq as [Hinv Hnone].
  pose proof (cs_resolved _ _ _ _ _ Hinv) as Hres.
  pose proof (cs_bound _ _ _ _ _ Hinv) as Hbound.
  rewrite parse_tasks_length in Hres, Hbound.
  assert (1 ≤ length blobs) as Hn by (destruct blobs; [congruence|simpl; lia]).
  assert (it_resolved st = false →
          ∃ k o, it_pending st !! k = Some (Some o) ∧ po_index o = it_blobIndex st)
    as Hnext.
  { intros Hfalse.
    apply (next_is_pending parseBlob workers blobs header config Hworkers st Hq).
    rewrite parse_tasks_length.
    destruct (decide (it_blobIndex st = length blobs)) as [E|E]; [|lia].
    assert (it_resolved st = true) by (apply Hres; auto). congruence. }
  split; [rewrite Hres; tauto|]. split.
  { intros Htrue. apply Hres in Htrue as [_ Hb].
    rewrite (cs_calls _ _ _ _ _ Hinv). f_equal. apply take_ge.
    rewrite length_map, parse_tasks_length. lia. }
  split.
  { intros Hfalse. destruct (Hnext Hfalse) as (k & o & Hk & Ho).
    exists k, o. split; [assumption|]. split; [assumption|].
    unfold answer. rewrite Hk. eauto. }
  split.
  { intros Hidle. destruct (it_resolved st) eqn:E; [reflexivity|].
    destruct (Hnext eq_refl) as (k & o & Hk & _). exfalso. apply (Hidle k o Hk). }
  unfold iterateBlobs in Hrun.
  assert (unanswered (iterate_start workers blobs header config)
          = length order + unanswered st) as Hm
    by (eapply run_unanswered; eauto).
  rewrite <- Hm. eapply start_unanswered; eauto.
Qed.

Lemma iterateBlobs_resolves_witness :
  let parseBlob o := {| lr_index := po_index o;
                        lr_rowCount := Z.to_nat (blob_end (po_blob o)) |} in
  let blobs := [{| blob_start := 0; blob_end := 2 |};
                {| blob_start := 0; blob_end := 0 |};
                {| blob_start := 0; blob_end := 3 |}] in
  (∀ o, lr_index (parseBlob o) = po_index o) ∧
  blobs ≠ [] ∧
  1 ≤ 2 ∧
  (∃ st,
     iterateBlobs parseBlob 2 blobs [] defaultConfig [1; 0] = Some st ∧
     it_resolved st = false ∧
     ∃ k o, it_pending st !! k = Some (Some o) ∧ po_index o = it_blobIndex st ∧
            is_Some (answer parseBlob blobs st k)) ∧
  (∃ st,
     iterateBlobs parseBlob 2 blobs [] defaultConfig [1; 0; 0] = Some st ∧
     it_resolved st = true ∧ it_blobIndex st = 3).
Proof.
  intros parseBlob blobs.
  split; [reflexivity|]. split; [discriminate|]. split; [lia|]. split.
  - eexists. split; [reflexivity|]. split; [reflexivity|].
    destruct (iterateBlobs_resolves parseBlob 2 blobs [] defaultConfig [1; 0] _
                ltac:(reflexivity) ltac:(discriminate) ltac:(lia) eq_refl)
      as (_ & _ & Hnext & _).
    apply Hnext. reflexivity.
  - eexists. split; [reflexivity|]. split; [reflexivity|].
    destruct (iterateBlobs_resolves parseBlob 2 blobs [] defaultConfig [1; 0; 0] _
                ltac:(reflexivity) ltac:(discriminate) ltac:(lia) eq_refl)
      as (Hres & _).
    apply Hres. reflexivity.
Defined.

(** More workers than chunks: the tasks scheduled without options stay
    with the pool, and the run resolves all the same. *)
Example iterateBlobs_more_workers_than_chunks :
  let parseBlob o := {| lr_index := po_index o;
                        lr_rowCount := Z.to_nat (blob_end (po_blob o)) |} in
  let blobs := [{| blob_start := 0; blob_end := 1 |};
                {| blob_start := 0; blob_end := 2 |}] in
  (fun st => (it_calls st, it_resolved st, it_pending st))
    <$> iterateBlobs parseBlob 4 blobs [] defaultConfig [1; 0]
  = Some ([{| call_chunk := 0; call_row := 0; call_index := 0 |};
           {| call_chunk := 1; call_row := 0; call_index := 1 |};
           {| call_chunk := 1; call_row := 1; call_index := 2 |}],
          true, [None; None]).
Proof. reflexivity. Qed.

(** * Further properties *)

(** ** combineBuffers and combineTypedArrays *)

Lemma uint8_set_fits (view source : list byte) (offset : nat) :
  offset + length source ≤ length view →
  uint8_set view source offset
  = Some (take offset view ++ source ++ drop (offset + length source) view).
Proof. intros H. unfold uint8_set. apply Nat.leb_le in H. rewrite H. reflexivity. Qed.

(** The copy loop on a target whose bytes before [off] are [done]: the
    sources end up after them, one after the other, in place of as many
    bytes of the target. *)
Lemma copy_views_spec (views : list (list byte)) :
  ∀ done rest,
    length (concat views) ≤ length rest →
    copy_views views (done ++ rest) (length done)
    = Some (done ++ concat views ++ drop (length (concat views)) rest).
Proof.
  induction views as [|v views IH]; intros done rest Hlen; simpl.
  - rewrite drop_0. reflexivity.
  - simpl in Hlen. rewrite length_app in Hlen.
    rewrite uint8_set_fits by (rewrite length_app; lia).
    rewrite take_app_length, drop_app_add.
    replace (done ++ v ++ drop (length v) rest)
      with ((done ++ v) ++ drop (length v) rest) by (rewrite <- app_assoc; reflexivity).
    replace (length done + length v) with (length (done ++ v))
      by (rewrite length_app; reflexivity).
    rewrite IH by (rewrite length_drop; lia).
    rewrite length_app, drop_drop, <- !app_assoc. reflexivity.
Qed.

Lemma foldl_add_length {A} (f : A → nat) (l : list A) :
  ∀ acc, foldl (fun n a => n + f a) acc l = acc + sum_list (map f l).
Proof.
  induction l as [|a l IH]; intros acc; simpl; [lia|]. rewrite IH. lia.
Qed.

Lemma length_concat_sum (l : list (list byte)) :
  length (concat l) = sum_list (map length l).
Proof. induction l as [|x l IH]; simpl; [reflexivity|]. rewrite length_app, IH. reflexivity. Qed.

(** X1.  [combineBuffers] never fails: it returns the bytes of the buffers
    one after the other, in the order of the list, and so as many bytes as
    the buffers have together. *)
Theorem combineBuffers_concat (buffers : list (list byte)) :
  combineBuffers buffers = Some (concat buffers) ∧
  length (concat buffers) = sum_list (map length buffers).
Proof.
  split; [|apply length_concat_sum].
  unfold combineBuffers, new_ArrayBuffer.
  rewrite (foldl_add_length length buffers 0). simpl.
  pose proof (copy_views_spec buffers []
                (replicate (sum_list (map length buffers)) x00)) as H.
  simpl in H. rewrite H by (rewrite length_replicate, length_concat_sum; lia).
  rewrite drop_ge by (rewrite length_replicate, length_concat_sum; lia).
  rewrite app_nil_r. reflexivity.
Qed.

Lemma ta_bytes_length (a : TypedArray) :
  ta_wf a → length (ta_bytes a) = ta_byteLength a.
Proof.
  unfold ta_wf, ta_bytes. intros H. rewrite length_take, length_drop. lia.
Qed.

Lemma as_Uint8Array_window (a : TypedArray) :
  ta_bytes (as_Uint8Array a) = ta_bytes a ∧
  ta_byteLength (as_Uint8Array a) = ta_byteLength a.
Proof. unfold as_Uint8Array. destruct (ta_isUint8 a); split; reflexivity. Qed.

Lemma copy_arrays_views (arrays : list TypedArray) :
  Forall ta_wf arrays →
  ∀ view off,
    copy_arrays (map as_Uint8Array arrays) view off
    = copy_views (map ta_bytes arrays) view off.
Proof.
  induction 1 as [|a arrays Ha _ IH]; intros view off; simpl; [reflexivity|].
  destruct (as_Uint8Array_window a) as [-> ->].
  destruct (uint8_set view (ta_bytes a) off); [|reflexivity].
  rewrite IH, (ta_bytes_length a Ha). reflexivity.
Qed.

(** X2.  For typed arrays that show bytes their buffers have,
    [combineTypedArrays] returns the bytes the arrays show, one array after
    the other, whatever the element type of an array and wherever its window
    lies in its buffer; the result has the [byteLength]s added up. *)
Theorem combineTypedArrays_concat (arrays : list TypedArray) :
  Forall ta_wf arrays →
  combineTypedArrays arrays = Some (concat (map ta_bytes arrays)) ∧
  length (concat (map ta_bytes arrays)) = sum_list (map ta_byteLength arrays).
Proof.
  intros Hwf.
  assert (map length (map ta_bytes arrays) = map ta_byteLength arrays) as Hlens.
  { rewrite map_map. apply map_ext_in. intros a Ha.
    apply ta_bytes_length. rewrite Forall_forall in Hwf.
    apply Hwf, list_elem_of_In, Ha. }
  assert (length (concat (map ta_bytes arrays)) = sum_list (map ta_byteLength arrays))
    as Hlen by (rewrite length_concat_sum, Hlens; reflexivity).
  split; [|exact Hlen].
  unfold combineTypedArrays, new_ArrayBuffer.
  rewrite (foldl_add_length ta_byteLength arrays 0), copy_arrays_views by assumption.
  simpl.
  pose proof (copy_views_spec (map ta_bytes arrays) []
                (replicate (sum_list (map ta_byteLength arrays)) x00)) as H.
  simpl in H. rewrite H by (rewrite length_replicate; lia).
  rewrite drop_ge by (rewrite length_replicate; lia).
  rewrite app_nil_r. reflexivity.
Qed.

Lemma combineTypedArrays_concat_witness :
  let words := {| ta_isUint8 := false; ta_buffer := [x01; x02; x03; x04; x05; x06];
                  ta_byteOffset := 2; ta_byteLength := 4 |} in
  let bytes := {| ta_isUint8 := true; ta_buffer := [x0a; x0b; x0c];
                  ta_byteOffset := 1; ta_byteLength := 1 |} in
  Forall ta_wf [words; bytes] ∧
  combineTypedArrays [words; bytes] = Some [x03; x04; x05; x06; x0b].
Proof.
  intros words bytes.
  assert (Forall ta_wf [words; bytes]) as Hwf
    by (repeat constructor; unfold ta_wf; simpl; lia).
  split; [exact Hwf|].
  exact (proj1 (combineTypedArrays_concat [words; bytes] Hwf)).
Defined.

(** ** writeOptionsToBuffer *)

Lemma Z_of_byte_of_Z (z : Z) : Z_of_byte (byte_of_Z z) = (z mod 256)%Z.
Proof.
  unfold Z_of_byte, byte_of_Z.
  assert (0 <= z mod 256 < 256)%Z as Hb by (apply Z.mod_pos_bound; lia).
  destruct (Byte.of_N (Z.to_N (z mod 256))) as [b|] eqn:E; simpl.
  - apply Byte.to_of_N in E. rewrite E. lia.
  - apply Byte.of_N_None_iff in E. lia.
Qed.

Lemma uint32_le_length (v : Z) : length (uint32_le v) = 4.
Proof. reflexivity. Qed.

(** Reading the four bytes back gives the value modulo [2^32]. *)
Lemma getUint32_le_uint32_le (v : Z) (before after : list byte) :
  getUint32_le (before ++ uint32_le v ++ after) (length before)
  = Some (v mod 2 ^ 32)%Z.
Proof.
  unfold getUint32_le. rewrite drop_app_length.
  unfold uint32_le. cbn [app take]. rewrite !Z_of_byte_of_Z.
  f_equal. change (2 ^ 8)%Z with 256%Z. change (2 ^ 16)%Z with 65536%Z.
  change (2 ^ 24)%Z with 16777216%Z. change (2 ^ 32)%Z with 4294967296%Z.
  assert (0 <= v mod 4294967296 < 4294967296)%Z as Hw by (apply Z.mod_pos_bound; lia).
  revert Hw. generalize (v mod 4294967296)%Z. intros w Hw.
  Z.to_euclidean_division_equations. lia.
Qed.

Lemma setUint32_le_fits (view : list byte) (byteOffset : nat) (value : Z) :
  byteOffset + 4 ≤ length view →
  setUint32_le view byteOffset value
  = Some (take byteOffset view ++ uint32_le value ++ drop (byteOffset + 4) view).
Proof. intros H. unfold setUint32_le. apply Nat.leb_le in H. rewrite H. reflexivity. Qed.

(** The loop when the options fit: their bytes stand one after the other
    from [ptr + offset] on, in place of as many bytes of the view. *)
Lemma write_options_spec (ptr : nat) (options : list Z) :
  ∀ view offset,
    ptr + offset + 4 * length options ≤ length view →
    write_options view ptr offset options
    = Some (take (ptr + offset) view ++ concat (map uint32_le options)
            ++ drop (ptr + offset + 4 * length options) view,
            offset + 4 * length options).
Proof.
  induction options as [|o options IH]; intros view offset Hfit.
  - simpl. rewrite Nat.add_0_r, Nat.add_0_r, take_drop. reflexivity.
  - change (length (o :: options)) with (S (length options)) in *.
    cbn [write_options]. rewrite setUint32_le_fits by lia.
    set (A := take (ptr + offset) view).
    set (B := uint32_le o).
    set (C := drop (ptr + offset + 4) view).
    assert (length A = ptr + offset) as HA by (subst A; rewrite length_take; lia).
    assert (length B = 4) as HB by reflexivity.
    assert (length C = length view - (ptr + offset + 4)) as HC
      by (subst C; apply length_drop).
    rewrite IH by (rewrite !length_app; lia).
    f_equal. f_equal; [|lia].
    change (concat (map uint32_le (o :: options)))
      with (B ++ concat (map uint32_le options)).
    replace (ptr + (offset + 4)) with (length (A ++ B)) by (rewrite length_app; lia).
    rewrite (app_assoc A B C), take_app_length, drop_app_add.
    subst C. rewrite drop_drop, <- !app_assoc.
    f_equal. f_equal. f_equal. f_equal. lia.
Qed.

(** The loop when the options do not fit: one of the writes is out of
    range. *)
Lemma write_options_overflow (ptr : nat) (options : list Z) :
  ∀ view offset,
    options ≠ [] →
    length view < ptr + offset + 4 * length options →
    write_options view ptr offset options = None.
Proof.
  induction options as [|o options IH]; intros view offset Hne Hlong; [congruence|].
  simpl in *. unfold setUint32_le.
  destruct (ptr + offset + 4 <=? length view) eqn:E; [|reflexivity].
  apply Nat.leb_le in E.
  destruct options as [|o' options']; [simpl in Hlong; lia|].
  apply IH; [discriminate|].
  rewrite !length_app, length_take, length_drop, uint32_le_length.
  simpl in *. lia.
Qed.

Lemma length_concat_uint32 (options : list Z) :
  length (concat (map uint32_le options)) = 4 * length options.
Proof. induction options as [|o options IH]; simpl; [reflexivity|]. rewrite IH. lia. Qed.

(** X3.  [writeOptionsToBuffer] succeeds exactly when there is no option or
    the options fit between [ptr] and the end of the view, four bytes each.
    It then returns four times the number of options and leaves the length
    of the view and every byte outside those it wrote as they were. *)
Theorem writeOptionsToBuffer_frame (view : list byte) (ptr : nat) (options : list Z) :
  (is_Some (writeOptionsToBuffer view ptr options)
   ↔ options = [] ∨ ptr + 4 * length options ≤ length view) ∧
  (∀ view' offset,
     writeOptionsToBuffer view ptr options = Some (view', offset) →
     offset = 4 * length options ∧
     length view' = length view ∧
     ∀ i, i < ptr ∨ ptr + offset ≤ i → view' !! i = view !! i).
Proof.
  unfold writeOptionsToBuffer.
  destruct (decide (options = [])) as [->|Hne].
  { simpl. split; [split; eauto|].
    intros view' offset H. injection H as <- <-. auto. }
  destruct (decide (ptr + 4 * length options ≤ length view)) as [Hfit|Hlong].
  - rewrite (write_options_spec ptr options view 0) by lia.
    rewrite !Nat.add_0_r. simpl. split; [split; eauto|].
    intros view' offset H. injection H as <- <-.
    pose proof (length_concat_uint32 options) as Hc.
    split; [reflexivity|]. split.
    + rewrite !length_app, length_take, length_drop, Hc. lia.
    + intros i [Hi|Hi].
      * rewrite lookup_app_l by (rewrite length_take; lia).
        apply lookup_take_lt. assumption.
      * rewrite lookup_app_r by (rewrite length_take; lia).
        rewrite lookup_app_r by (rewrite length_take, Hc; lia).
        rewrite lookup_drop, length_take, Hc. f_equal. lia.
  - rewrite (write_options_overflow ptr options view 0) by (assumption || lia).
    split; [|intros view' offset H; discriminate].
    split; [intros [x H]; discriminate|]. intros [H|H]; [congruence|lia].
Qed.

(** X4.  After [writeOptionsToBuffer], reading an unsigned 32-bit number in
    little-endian order at [ptr + 4 * i] gives option [i] modulo [2^32]. *)
Theorem writeOptionsToBuffer_read_back
    (view view' : list byte) (ptr offset : nat) (options : list Z) :
  writeOptionsToBuffer view ptr options = Some (view', offset) →
  ∀ i v, options !! i = Some v →
         getUint32_le view' (ptr + 4 * i) = Some (v mod 2 ^ 32)%Z.
Proof.
  unfold writeOptionsToBuffer. intros Hrun i v Hi.
  assert (ptr + 4 * length options ≤ length view) as Hfit.
  { destruct (decide (ptr + 4 * length options ≤ length view)) as [H|H]; [assumption|].
    rewrite (write_options_overflow ptr options view 0) in Hrun; [discriminate| |lia].
    intros ->. discriminate. }
  rewrite (write_options_spec ptr options view 0) in Hrun by lia.
  injection Hrun as <- _. rewrite (Nat.add_0_r ptr).
  match goal with
  | |- context [drop ?n view] => generalize (drop n view); intros rest
  end.
  set (P := concat (map uint32_le (take i options))).
  set (Q := concat (map uint32_le (drop (S i) options))).
  assert (concat (map uint32_le options) = P ++ uint32_le v ++ Q) as ->.
  { subst P Q. rewrite <- (take_drop_middle options i v Hi) at 1.
    rewrite map_app, concat_app. reflexivity. }
  assert (length P = 4 * i) as HP.
  { pose proof (lookup_lt_Some _ _ _ Hi) as Hlt. subst P.
    rewrite length_concat_uint32, length_take. lia. }
  replace (take ptr view ++ (P ++ uint32_le v ++ Q) ++ rest)
    with ((take ptr view ++ P) ++ uint32_le v ++ (Q ++ rest))
    by (rewrite <- !app_assoc; reflexivity).
  replace (ptr + 4 * i) with (length (take ptr view ++ P))
    by (rewrite length_app, length_take, HP; lia).
  apply getUint32_le_uint32_le.
Qed.

Lemma writeOptionsToBuffer_read_back_witness :
  let view := [x00; x00; x00; x00; x00; x00; x00; x00; x00; x00] in
  let view' := [x00; x01; x02; x00; x00; xff; xff; xff; xff; x00] in
  writeOptionsToBuffer view 1 [513; -1]%Z = Some (view', 8) ∧
  getUint32_le view' 1 = Some 513%Z ∧
  getUint32_le view' 5 = Some 4294967295%Z.
Proof.
  intros view view'.
  assert (writeOptionsToBuffer view 1 [513; -1]%Z = Some (view', 8)) as Hrun
    by reflexivity.
  split; [exact Hrun|]. split.
  - exact (writeOptionsToBuffer_read_back view view' 1 8 [513; -1]%Z Hrun 0 513%Z eq_refl).
  - exact (writeOptionsToBuffer_read_back view view' 1 8 [513; -1]%Z Hrun 1 (-1)%Z eq_refl).
Defined.

(** ** readRow *)

Lemma separated_bounds view sep (fs : list Field) :
  ∀ start next,
    separated view sep start fs = Some next →
    start ≤ next ∧
    Forall (fun f => start ≤ f_offset f ∧ f_offset f + f_length f < next) fs.
Proof.
  induction fs as [|f fs IH]; intros start next H; simpl in H.
  - injection H as <-. split; [lia|constructor].
  - destruct (f_offset f =? start) eqn:E; simpl in H; [|discriminate].
    apply Nat.eqb_eq in E.
    destruct (view !! (f_offset f + f_length f)) as [c|]; [|discriminate].
    destruct (is_code sep c); [|discriminate].
    destruct (IH _ _ H) as [Hle Hall]. split; [lia|].
    constructor; [lia|].
    eapply Forall_impl; [exact Hall|]. simpl. intros g Hg. lia.
Qed.

(** X5.  From an offset inside the view [readRow] advances: the offset it
    returns is past the one it was given and not past the end of the view;
    it leaves what the collector held in place and pushes at least one
    field, every field it pushes lying between the two offsets.  From the
    end of the view or beyond it returns the offset it was given and pushes
    nothing. *)
Theorem readRow_progress
    (view : list byte) (offset : nat) (result : list Field) (config : Config) :
  let r := readRow view offset result config in
  (offset < length view →
   offset < row_ret r ≤ length view ∧
   ∃ pushed,
     row_fields r = result ++ pushed ∧ pushed ≠ [] ∧
     Forall (fun f => offset ≤ f_offset f ∧ f_offset f + f_length f ≤ row_ret r)
            pushed) ∧
  (length view ≤ offset →
   r = {| row_ret := offset; row_fields := result; row_console := [] |}).
Proof.
  intros r. split.
  - intros Hlt. subst r. unfold readRow.
    set (sep := charCodeAt0 (separator config)).
    set (qual := charCodeAt0 (qualifier config)).
    set (lb := charCodeAt0 (linebreak config)).
    pose proof (readRow_loop_inv view sep qual lb offset result
                  (length view - offset) offset
                  {| fieldOffset := offset; isInQuotes := false;
                     collector := result; console := [] |} []) as H.
    simpl in H. rewrite app_nil_r in H.
    specialize (H ltac:(lia) ltac:(lia) eq_refl ltac:(lia) eq_refl).
    destruct (readRow_loop _ _ _ _ _ _ _) as [j [s'|ret s']].
    + destruct H as [-> (seps & Hs & Hle & Hc)].
      destruct (separated_bounds _ _ _ _ _ Hs) as [Hb Hall].
      destruct (fieldOffset s' <? length view) eqn:E; simpl.
      * apply Nat.ltb_lt in E. split; [lia|].
        exists (seps ++ [{| f_offset := fieldOffset s';
                            f_length := length view - fieldOffset s' |}]).
        rewrite Hc, app_assoc. split; [reflexivity|].
        split; [intros Hnil; apply app_eq_nil in Hnil as [_ ?]; discriminate|].
        apply Forall_app. split.
        -- eapply Forall_impl; [exact Hall|]. simpl. intros f Hf. lia.
        -- repeat constructor; simpl; lia.
      * apply Nat.ltb_ge in E. split; [lia|].
        exists seps. split; [assumption|]. split.
        -- intros ->. simpl in Hs. injection Hs as Hs. lia.
        -- eapply Forall_impl; [exact Hall|]. simpl. intros f Hf. lia.
    + destruct H as (seps & next & c & Hs & Hle & Hoj & Hc & Hlb & -> & Hcol).
      destruct (separated_bounds _ _ _ _ _ Hs) as [Hb Hall].
      apply lookup_lt_Some in Hc. simpl. split; [lia|].
      exists (seps ++ [{| f_offset := next; f_length := j - next |}]).
      split; [assumption|].
      split; [intros Hnil; apply app_eq_nil in Hnil as [_ ?]; discriminate|].
      apply Forall_app. split.
      * eapply Forall_impl; [exact Hall|]. simpl. intros f Hf. lia.
      * repeat constructor; simpl; lia.
  - intros Hge. subst r. unfold readRow.
    replace (length view - offset) with 0 by lia. simpl.
    rewrite Nat.ltb_irrefl. reflexivity.
Qed.

Section PlainRowFacts.
Variable view : list byte.
Variables sep qual lb : option N.

(** Without a qualifier byte from [i] on, quoting is never entered: the
    open field and the fields pushed hold no separator and no line-break,
    and nothing is reported. *)
Lemma readRow_loop_plain fuel :
  ∀ i s,
    (∀ j c, i ≤ j → view !! j = Some c → is_code qual c = false) →
    isInQuotes s = false → console s = [] → fieldOffset s ≤ i →
    (∀ k c, fieldOffset s ≤ k < i → view !! k = Some c →
            is_code sep c = false ∧ is_code lb c = false) →
    Forall (plain_field view sep lb) (collector s) →
    match readRow_loop view sep qual lb fuel i s with
    | (j, Continue s') =>
        console s' = [] ∧ fieldOffset s' ≤ j ∧
        (∀ k c, fieldOffset s' ≤ k < j → view !! k = Some c →
                is_code sep c = false ∧ is_code lb c = false) ∧
        Forall (plain_field view sep lb) (collector s')
    | (_, Return _ s') =>
        console s' = [] ∧ Forall (plain_field view sep lb) (collector s')
    end.
Proof.
  induction fuel as [|fuel IH]; intros i s Hq Hin Hcon Hfo Hopen Hall; simpl.
  - auto.
  - destruct (view !! i) as [c|] eqn:Hc; [|auto].
    assert (plain_field view sep lb
              {| f_offset := fieldOffset s; f_length := i - fieldOffset s |}) as Hpush.
    { intros k c' Hk Hc'. simpl in Hk. apply (Hopen k c'); [lia|assumption]. }
    unfold readRow_body. rewrite (Hq i c (le_n _) Hc), Hin. simpl.
    destruct (is_code sep c) eqn:Hs; simpl.
    { apply IH; simpl; auto.
      - intros j c' Hj. apply Hq. lia.
      - lia.
      - intros k c' Hk. lia.
      - apply Forall_app. split; [assumption|].
      constructor; [exact Hpush|constructor]. }
    destruct (is_code lb c) eqn:Hl; simpl.
    { split; [assumption|].
      apply Forall_app. split; [assumption|].
      constructor; [exact Hpush|constructor]. }
    apply IH; auto.
    + intros j c' Hj. apply Hq. lia.
    + intros k c' Hk Hc'. destruct (decide (k = i)) as [->|Hne].
      * rewrite Hc in Hc'. injection Hc' as <-. auto.
      * apply (Hopen k c'); [lia|assumption].
Qed.

(** Inside quotes a byte that is no qualifier changes nothing, separator
    and line-break included. *)
Lemma readRow_loop_quoted n :
  ∀ fuel i s,
    isInQuotes s = true →
    (∀ j, i ≤ j < i + n → ∃ c, view !! j = Some c ∧ is_code qual c = false) →
    readRow_loop view sep qual lb (n + fuel) i s
    = readRow_loop view sep qual lb fuel (i + n) s.
Proof.
  induction n as [|n IH]; intros fuel i s Hin H.
  - rewrite Nat.add_0_r. reflexivity.
  - destruct (H i ltac:(lia)) as [c [Hc Hq]].
    simpl. rewrite Hc. unfold readRow_body. rewrite Hq, Hin, !andb_false_r.
    rewrite IH by (auto; intros j Hj; apply H; lia).
    f_equal. lia.
Qed.

End PlainRowFacts.

Lemma elem_of_field_bytes view f c :
  c ∈ field_bytes view f →
  ∃ k, f_offset f ≤ k < f_offset f + f_length f ∧ view !! k = Some c.
Proof.
  unfold field_bytes. intros H. apply list_elem_of_lookup in H as [j Hj].
  apply lookup_take_Some in Hj as [Hj Hlt]. rewrite lookup_drop in Hj.
  exists (f_offset f + j). split; [lia|assumption].
Qed.

(** X6.  On a view with no qualifier byte from the offset on, [readRow]
    cuts at every separator and at the first line-break: no field it pushes
    holds a separator or a line-break byte, and it reports nothing. *)
Theorem readRow_plain_row (view : list byte) (offset : nat) (config : Config) :
  let sep := charCodeAt0 (separator config) in
  let qual := charCodeAt0 (qualifier config) in
  let lb := charCodeAt0 (linebreak config) in
  (∀ j c, offset ≤ j → view !! j = Some c → is_code qual c = false) →
  let r := readRow view offset [] config in
  row_console r = [] ∧
  ∀ f c, f ∈ row_fields r → c ∈ field_bytes view f →
         is_code sep c = false ∧ is_code lb c = false.
Proof.
  intros sep qual lb Hq r.
  assert (row_console r = [] ∧ Forall (plain_field view sep lb) (row_fields r))
    as [Hcon Hall].
  { subst r. unfold readRow. fold sep qual lb.
    pose proof (readRow_loop_plain view sep qual lb (length view - offset) offset
                  {| fieldOffset := offset; isInQuotes := false;
                     collector := []; console := [] |}) as H.
    simpl in H.
    specialize (H Hq eq_refl eq_refl (le_n _) ltac:(intros; lia) ltac:(constructor)).
    destruct (readRow_loop _ _ _ _ _ _ _) as [j [s'|ret s']].
    - destruct H as (Hc & Hfo & Hopen & Hall).
      destruct (fieldOffset s' <? j) eqn:E; simpl; split; auto.
      apply Forall_app. split; [assumption|]. constructor; [|constructor].
      intros k c Hk Hc'. simpl in Hk. apply Nat.ltb_lt in E.
      apply (Hopen k c); [lia|assumption].
    - destruct H as [Hc Hall]. simpl. auto. }
  split; [assumption|].
  intros f c Hf Hc. rewrite Forall_forall in Hall.
  apply elem_of_field_bytes in Hc as (k & Hk & Hc).
  exact (Hall f Hf k c Hk Hc).
Qed.

Lemma readRow_plain_row_witness :
  let view := [x61; x62; x2c; x2c; x63; x0a; x64] in
  (∀ j c, 0 ≤ j → view !! j = Some c → is_code (Some 34%N) c = false) ∧
  row_fields (readRow view 0 [] defaultConfig)
  = [{| f_offset := 0; f_length := 2 |}; {| f_offset := 3; f_length := 0 |};
     {| f_offset := 4; f_length := 1 |}] ∧
  row_console (readRow view 0 [] defaultConfig) = [].
Proof.
  intros view.
  assert (∀ j c, 0 ≤ j → view !! j = Some c → is_code (Some 34%N) c = false) as Hq.
  { intros j c _ Hc. do 7 (destruct j as [|j]; [injection Hc as <-; reflexivity|]).
    discriminate. }
  split; [exact Hq|]. split; [reflexivity|].
  exact (proj1 (readRow_plain_row view 0 defaultConfig Hq)).
Defined.

(** X7.  Inside a quoted field separators and line-breaks are content: a
    qualifier, bytes that are no qualifiers, a qualifier and a line-break
    make one row of one field, from the opening to the closing qualifier,
    whatever follows the line-break; nothing is reported. *)
Theorem readRow_quoted_field_keeps_delimiters
    (config : Config) (q l : byte) (body rest : list byte) :
  let sep := charCodeAt0 (separator config) in
  let qual := charCodeAt0 (qualifier config) in
  let lb := charCodeAt0 (linebreak config) in
  is_code qual q = true →
  is_code lb l = true → is_code qual l = false → is_code sep l = false →
  Forall (fun c => is_code qual c = false) body →
  let view := q :: body ++ [q; l] ++ rest in
  readRow view 0 [] config
  = {| row_ret := length body + 3;
       row_fields := [{| f_offset := 0; f_length := length body + 2 |}];
       row_console := [] |} ∧
  field_bytes view {| f_offset := 0; f_length := length body + 2 |}
  = q :: body ++ [q].
Proof.
  intros sep qual lb Hq Hl Hlq Hls Hbody view.
  assert (length view = S (length body + (2 + length rest))) as Hlen.
  { subst view. simpl. rewrite length_app. simpl. lia. }
  assert (view !! 0 = Some q) as Hv0 by reflexivity.
  assert (view !! S (length body) = Some q) as Hvq.
  { subst view. simpl. rewrite lookup_app_r by lia.
    rewrite Nat.sub_diag. reflexivity. }
  assert (view !! S (S (length body)) = Some l) as Hvl.
  { subst view. simpl. rewrite lookup_app_r by lia.
    replace (S (length body) - length body) with 1 by lia. reflexivity. }
  split.
  - unfold readRow. fold sep qual lb.
    rewrite Hlen, Nat.sub_0_r. cbn [readRow_loop]. rewrite Hv0.
    assert (readRow_body view sep qual lb 0 q
              {| fieldOffset := 0; isInQuotes := false;
                 collector := []; console := [] |}
            = Continue {| fieldOffset := 0; isInQuotes := true;
                          collector := []; console := [] |}) as ->
      by (unfold readRow_body; rewrite Hq; reflexivity).
    rewrite (readRow_loop_quoted view sep qual lb (length body) _ 1);
      [|reflexivity|].
    2:{ intros j Hj. destruct j as [|j]; [lia|].
        rewrite Forall_lookup in Hbody.
        destruct (lookup_lt_is_Some_2 body j ltac:(lia)) as [c Hc].
        exists c. split; [|eauto].
        subst view. simpl. rewrite lookup_app_l by lia. assumption. }
    cbn [readRow_loop Nat.add]. rewrite Hvq.
    assert (readRow_body view sep qual lb (S (length body)) q
              {| fieldOffset := 0; isInQuotes := true;
                 collector := []; console := [] |}
            = Continue {| fieldOffset := 0; isInQuotes := false;
                          collector := []; console := [] |}) as ->.
    { unfold readRow_body.
      replace (S (length body) + 1) with (S (S (length body))) by lia.
      rewrite Hq, Hvl, Hlq. reflexivity. }
    rewrite Hvl, (readRow_body_linebreak view sep qual lb _ l) by auto.
    simpl. f_equal; [lia|]. repeat f_equal. lia.
  - unfold field_bytes. subst view. simpl.
    replace (length body + 2) with (S (length (body ++ [q])))
      by (rewrite length_app; simpl; lia).
    simpl. f_equal.
    replace (body ++ q :: l :: rest) with ((body ++ [q]) ++ l :: rest)
      by (rewrite <- app_assoc; reflexivity).
    apply take_app_length.
Qed.

Lemma readRow_quoted_field_keeps_delimiters_witness :
  let view := [x22; x61; x2c; x0a; x62; x22; x0a; x63] in
  readRow view 0 [] defaultConfig
  = {| row_ret := 7;
       row_fields := [{| f_offset := 0; f_length := 6 |}];
       row_console := [] |} ∧
  field_bytes view {| f_offset := 0; f_length := 6 |}
  = [x22; x61; x2c; x0a; x62; x22].
Proof.
  apply (readRow_quoted_field_keeps_delimiters defaultConfig x22 x0a
           [x61; x2c; x0a; x62] [x63]); try reflexivity.
  repeat constructor.
Defined.

(** ** readHeader *)

Lemma readRow_ret_le view offset result config :
  offset ≤ length view →
  row_ret (readRow view offset result config) ≤ length view.
Proof.
  intros Hle. unfold readRow.
  set (sep := charCodeAt0 (separator config)).
  set (qual := charCodeAt0 (qualifier config)).
  set (lb := charCodeAt0 (linebreak config)).
  pose proof (readRow_loop_inv view sep qual lb offset result
                (length view - offset) offset
                {| fieldOffset := offset; isInQuotes := false;
                   collector := result; console := [] |} []) as H.
  simpl in H. rewrite app_nil_r in H.
  specialize (H ltac:(lia) ltac:(lia) eq_refl ltac:(lia) eq_refl).
  destruct (readRow_loop _ _ _ _ _ _ _) as [j [s'|ret s']].
  - destruct H as [-> _]. destruct (_ <? _); simpl; lia.
  - destruct H as (seps & next & c & _ & _ & _ & Hc & _ & -> & _).
    apply lookup_lt_Some in Hc. simpl. lia.
Qed.

Lemma load_prefix file (m : Z) :
  load file (file_slice file 0 (Z.min m (file_size file)))
  = take (Z.to_nat m) (file_bytes file).
Proof.
  unfold load, file_slice, file_size. simpl. rewrite Nat.sub_0_r.
  change (Z.to_nat 0) with 0. rewrite drop_0.
  destruct (decide (Z.to_nat m ≤ length (file_bytes file))) as [Hle|Hgt].
  - f_equal. lia.
  - rewrite !take_ge by lia. reflexivity.
Qed.

(** X8.  [readHeader] looks at the first [maxRowSize] bytes of the file
    and at nothing else: two files that agree on them get the same header
    and the same offset, or the same SyntaxError, and an offset returned is
    never past these bytes nor past the end of the file. *)
Theorem readHeader_reads_prefix
    (RegExp_replace : list ascii → option (list ascii → list ascii))
    (file file' : File) (config : Config) :
  (0 <= maxRowSize config)%Z →
  take (Z.to_nat (maxRowSize config)) (file_bytes file)
  = take (Z.to_nat (maxRowSize config)) (file_bytes file') →
  readHeader RegExp_replace file config = readHeader RegExp_replace file' config ∧
  ∀ h, readHeader RegExp_replace file config = Some h →
       (Z.of_nat (hr_offset h) <= Z.min (maxRowSize config) (file_size file))%Z.
Proof.
  intros Hpos Hsame. unfold readHeader. rewrite !load_prefix, Hsame. split.
  - reflexivity.
  - rewrite <- Hsame.
    set (view := take (Z.to_nat (maxRowSize config)) (file_bytes file)).
    assert (Z.of_nat (length view) = Z.min (maxRowSize config) (file_size file))
      as <- by (subst view; rewrite length_take; unfold file_size; lia).
    destruct (new_RegExp RegExp_replace (qualifier config)); [|discriminate].
    intros h H. injection H as <-. simpl.
    destruct (firstRowHeader config); [|lia].
    pose proof (readRow_ret_le view 0 [] config ltac:(lia)). lia.
Qed.

Lemma readHeader_reads_prefix_witness :
  let config := {| separator := separator defaultConfig;
                   qualifier := qualifier defaultConfig;
                   linebreak := linebreak defaultConfig;
                   firstRowHeader := true;
                   maxRowSize := 4;
                   chunkSize := chunkSize defaultConfig;
                   maxLoadedChunks := maxLoadedChunks defaultConfig;
                   encoding := encoding defaultConfig;
                   output := output defaultConfig |} in
  let file := {| file_bytes := [x61; x2c; x62; x0a; x31; x2c; x32; x0a] |} in
  let file' := {| file_bytes := [x61; x2c; x62; x0a; x39] |} in
  let engine (source : list ascii) : option (list ascii → list ascii) := None in
  readHeader engine file config = readHeader engine file' config ∧
  ∃ h, readHeader engine file config = Some h ∧ (Z.of_nat (hr_offset h) <= 4)%Z.
Proof.
  intros config file file' engine.
  destruct (readHeader_reads_prefix engine file file' config)
    as [Hsame Hoff]; [simpl; lia|reflexivity|].
  split; [exact Hsame|].
  eexists. split; [reflexivity|]. apply Hoff. reflexivity.
Defined.

(** ** sliceFile *)

Lemma sliceFile_returns calculateOffsets fuel file start config ws :
  (∀ o, or_index (calculateOffsets o) = oo_index o) →
  tentative_windows fuel (file_size file) (chunkSize config) start = Some ws →
  ∃ blobs,
    sliceFile calculateOffsets fuel file start config = Some blobs ∧
    length blobs = length ws.
Proof.
  intros Hecho Hws. unfold sliceFile. rewrite Hws.
  destruct (apply_offsets_spec
              (map calculateOffsets (offsets_tasks file config ws)) ws)
    as [ws' (Happ & Hlen & _)].
  { apply Forall_forall. intros r Hr. apply list_elem_of_fmap in Hr as [t [-> Ht]].
    apply list_elem_of_lookup in Ht as [k Hk].
    apply offsets_tasks_lookup in Hk as (Hlt & Hi & _). rewrite Hecho, Hi. lia. }
  rewrite Happ. eexists. split; [reflexivity|]. rewrite length_map. assumption.
Qed.

(** X9.  With a positive [chunkSize] and a boundary task that answers with
    the index it was given, [sliceFile] returns as many blobs as chunks of
    [chunkSize] bytes are needed to reach the end of the file from [start],
    the last one possibly short; it returns none when [start] is at the end
    of the file or past it. *)
Theorem sliceFile_blob_count
    (calculateOffsets : OffsetsOptions → OffsetsResult)
    (file : File) (start : Z) (config : Config) :
  (∀ o, or_index (calculateOffsets o) = oo_index o) →
  (0 < chunkSize config)%Z →
  ∃ fuel blobs,
    (∀ extra, sliceFile calculateOffsets (fuel + extra) file start config
              = Some blobs) ∧
    ((file_size file <= start)%Z → blobs = []) ∧
    ((start < file_size file)%Z →
     (start + (Z.of_nat (length blobs) - 1) * chunkSize config < file_size file
      <= start + Z.of_nat (length blobs) * chunkSize config)%Z).
Proof.
  intros Hecho Hcs.
  set (fuel := Z.to_nat (file_size file - start)).
  destruct (tentative_windows_spec (file_size file) (chunkSize config) Hcs fuel start
              ltac:(lia)) as [ws (Hws & _)].
  destruct (sliceFile_returns calculateOffsets fuel file start config ws Hecho Hws)
    as [blobs [Hblobs Hlen]].
  destruct (tentative_windows_count _ _ Hcs _ _ _ Hws) as [Hnil Hcount].
  exists fuel, blobs. split; [|split].
  - intros extra.
    destruct (sliceFile_returns calculateOffsets (fuel + extra) file start config ws
                Hecho (tentative_windows_more_fuel _ _ _ extra _ _ Hws))
      as [blobs' [Hblobs' Hlen']].
    rewrite Hblobs'. f_equal.
    unfold sliceFile in Hblobs, Hblobs'.
    rewrite (tentative_windows_more_fuel _ _ _ extra _ _ Hws) in Hblobs'.
    rewrite Hws in Hblobs. congruence.
  - intros Hle. specialize (Hnil Hle). subst ws.
    destruct blobs; [reflexivity|discriminate].
  - intros Hlt. rewrite Hlen. auto.
Qed.

Lemma sliceFile_blob_count_witness :
  let calculateOffsets o := {| or_index := oo_index o; or_offset := 1 |} in
  let file := {| file_bytes := replicate 10 x61 |} in
  let config := {| separator := separator defaultConfig;
                   qualifier := qualifier defaultConfig;
                   linebreak := linebreak defaultConfig;
                   firstRowHeader := true;
                   maxRowSize := maxRowSize defaultConfig;
                   chunkSize := 4;
                   maxLoadedChunks := maxLoadedChunks defaultConfig;
                   encoding := encoding defaultConfig;
                   output := output defaultConfig |} in
  ∃ fuel blobs,
    (∀ extra, sliceFile calculateOffsets (fuel + extra) file 1 config = Some blobs) ∧
    length blobs = 3.
Proof.
  intros calculateOffsets file config.
  destruct (sliceFile_blob_count calculateOffsets file 1 config
              ltac:(reflexivity) ltac:(reflexivity))
    as (fuel & blobs & Hrun & _ & Hcount).
  exists fuel, blobs. split; [exact Hrun|].
  specialize (Hcount ltac:(reflexivity)).
  change (file_size file) with 10%Z in Hcount.
  change (chunkSize config) with 4%Z in Hcount. lia.
Defined.

(** X10.  With a [chunkSize] that is not positive and a [start] before the
    end of the file the loop of [sliceFile] does not end: no amount of fuel
    gives a list of blobs. *)
Theorem sliceFile_nonpositive_chunkSize_diverges
    (calculateOffsets : OffsetsOptions → OffsetsResult)
    (fuel : nat) (file : File) (start : Z) (config : Config) :
  (chunkSize config <= 0)%Z →
  (start < file_size file)%Z →
  tentative_windows fuel (file_size file) (chunkSize config) start = None ∧
  sliceFile calculateOffsets fuel file start config = None.
Proof.
  intros Hcs Hlt. unfold sliceFile.
  rewrite tentative_windows_diverges by assumption. auto.
Qed.

Lemma sliceFile_nonpositive_chunkSize_diverges_witness :
  let config := {| separator := separator defaultConfig;
                   qualifier := qualifier defaultConfig;
                   linebreak := linebreak defaultConfig;
                   firstRowHeader := true;
                   maxRowSize := maxRowSize defaultConfig;
                   chunkSize := 0;
                   maxLoadedChunks := maxLoadedChunks defaultConfig;
                   encoding := encoding defaultConfig;
                   output := output defaultConfig |} in
  sliceFile (fun o => {| or_index := oo_index o; or_offset := 0 |}) 1000 {| file_bytes := [x61] |} 0 config = None.
Proof.
  intros config.
  apply (sliceFile_nonpositive_chunkSize_diverges (fun o => {| or_index := oo_index o; or_offset := 0 |}) 1000
           {| file_bytes := [x61] |} 0 config); reflexivity.
Defined.

(** X11.  When what is left of the file from [start] fits in one chunk,
    [sliceFile] returns the one blob from [start] to the end of the file
    and schedules no boundary task: the answer does not depend on the
    worker. *)
Theorem sliceFile_single_chunk
    (calculateOffsets : OffsetsOptions → OffsetsResult)
    (fuel : nat) (file : File) (start : Z) (config : Config) :
  (0 < chunkSize config)%Z →
  (start < file_size file <= start + chunkSize config)%Z →
  offsets_tasks file config
    [{| w_start := start; w_end := file_size file |}] = [] ∧
  sliceFile calculateOffsets (S fuel) file start config
  = Some [file_slice file start (file_size file)].
Proof.
  intros Hcs [Hlt Hle]. split; [reflexivity|].
  unfold sliceFile. cbn [tentative_windows].
  apply Z.ltb_lt in Hlt. rewrite Hlt.
  assert (tentative_windows fuel (file_size file) (chunkSize config)
            (start + chunkSize config) = Some []) as ->.
  { assert ((start + chunkSize config <? file_size file)%Z = false) as E
      by (apply Z.ltb_ge; lia).
    destruct fuel; simpl; rewrite E; reflexivity. }
  simpl. rewrite Z.min_r by lia. reflexivity.
Qed.

Lemma sliceFile_single_chunk_witness :
  sliceFile (fun o => {| or_index := oo_index o; or_offset := 0 |}) 1 {| file_bytes := [x61; x0a; x62] |} 0 defaultConfig
  = Some [{| blob_start := 0; blob_end := 3 |}].
Proof.
  apply (sliceFile_single_chunk (fun o => {| or_index := oo_index o; or_offset := 0 |}) 0
           {| file_bytes := [x61; x0a; x62] |} 0 defaultConfig).
  - reflexivity.
  - split; [reflexivity|]. apply Z.leb_le. reflexivity.
Defined.

(** ** analyzeBlobs *)

Lemma fold_result_chunks blobs config (rs : list AnalyzeResult) :
  ∀ a base,
    (∀ k r, rs !! k = Some r → ar_index r = base + k) →
    length (an_header (foldl (fold_result blobs config) a rs))
    = length (an_header a) ∧
    ∀ i,
      an_chunks (foldl (fold_result blobs config) a rs) !! i
      = if decide (base ≤ i < base + length rs)
        then option_map
               (fun r => {| dc_blob := blobs !! i;
                            dc_columnCount := length (an_header a);
                            dc_rowCount := rowCount (ar_stats r);
                            dc_config := config |})
               (rs !! (i - base))
        else an_chunks a !! i.
Proof.
  induction rs as [|r rs IH]; intros a base Hidx.
  - split; [reflexivity|]. intros i. simpl.
    destruct (decide _) as [H|H]; [lia|reflexivity].
  - pose proof (Hidx 0 r eq_refl) as Hr. rewrite Nat.add_0_r in Hr.
    destruct (IH (fold_result blobs config a r) (S base)) as [Hlen Hch].
    { intros k r' Hk. rewrite (Hidx (S k) r' Hk). lia. }
    assert (length (an_header (fold_result blobs config a r)) = length (an_header a))
      as Hl by (simpl; apply length_imap).
    cbn [foldl]. split; [congruence|].
    intros i. rewrite Hch, Hl. simpl length.
    destruct (decide (S base ≤ i < S base + length rs)) as [H1|H1];
      destruct (decide (base ≤ i < base + S (length rs))) as [H2|H2]; try lia.
    + replace (i - base) with (S (i - S base)) by lia. reflexivity.
    + assert (i = base) as -> by lia. rewrite Nat.sub_diag. simpl.
      rewrite Hr, lookup_insert_eq. reflexivity.
    + simpl. rewrite Hr. apply lookup_insert_ne. lia.
Qed.

(** X12.  With a worker that answers with the index it was given, the
    [chunks] array [analyzeBlobs] returns holds at every place [i] the
    chunk of blob [i], made with the number of columns of the header and
    the row count the task of that blob reported, and nothing at any other
    place. *)
Theorem analyzeBlobs_chunks
    (parseBlob : ParseOptions → AnalyzeResult)
    (blobs : list Blob) (header : list ColumnStat) (config : Config) :
  (∀ o, ar_index (parseBlob o) = po_index o) →
  ∀ i,
    an_chunks (analyzeBlobs parseBlob blobs header config) !! i
    = option_map
        (fun o => {| dc_blob := Some (po_blob o);
                     dc_columnCount := length header;
                     dc_rowCount := rowCount (ar_stats (parseBlob o));
                     dc_config := config |})
        (parse_tasks ANALYZE blobs header config !! i).
Proof.
  intros Hecho i. unfold analyzeBlobs, fold_results.
  set (tasks := parse_tasks ANALYZE blobs header config).
  destruct (fold_result_chunks blobs config (map parseBlob tasks)
              {| an_chunks := ∅;
                 an_meta := {| rowCount := 0; malformedRows := 0 |};
                 an_header := header |} 0) as [_ H].
  { intros k r Hk. rewrite list_lookup_fmap in Hk.
    destruct (tasks !! k) as [o|] eqn:Ho; [|discriminate].
    injection Hk as <-. rewrite Hecho. apply (parse_tasks_index _ _ _ _ _ _ Ho). }
  rewrite H, length_map, Nat.sub_0_r, list_lookup_fmap. simpl.
  destruct (tasks !! i) as [o|] eqn:Ho; simpl.
  - pose proof (lookup_lt_Some _ _ _ Ho) as Hlt.
    destruct (decide (0 ≤ i < length tasks)) as [Hi|Hi]; [|lia].
    subst tasks. unfold parse_tasks in Ho. rewrite list_lookup_imap in Ho.
    destruct (blobs !! i) as [b|]; [|discriminate].
    injection Ho as <-. reflexivity.
  - destruct (decide (0 ≤ i < length tasks)); [reflexivity|apply lookup_empty].
Qed.

Lemma analyzeBlobs_chunks_witness :
  let parseBlob o :=
    {| ar_index := po_index o;
       ar_stats := {| rowCount := 7; malformedRows := 0 |};
       ar_columns := [] |} in
  let blobs := [{| blob_start := 0; blob_end := 4 |};
                {| blob_start := 4; blob_end := 9 |}] in
  an_chunks (analyzeBlobs parseBlob blobs [] defaultConfig) !! 1
  = Some {| dc_blob := Some {| blob_start := 4; blob_end := 9 |};
            dc_columnCount := 0; dc_rowCount := 7; dc_config := defaultConfig |}.
Proof.
  intros parseBlob blobs.
  apply (analyzeBlobs_chunks parseBlob blobs [] defaultConfig). reflexivity.
Defined.

Section NumberFolds.
Variable op : num → num → num.
Hypothesis op_Some : ∀ a b, is_Some (op a b) ↔ is_Some a ∧ is_Some b.

Lemma foldl_numbers (l : list num) :
  ∀ a, is_Some (foldl op a l) ↔ is_Some a ∧ Forall is_Some l.
Proof.
  induction l as [|x l IH]; intros a; simpl.
  - split; [intros H; split; [assumption|constructor]|tauto].
  - rewrite IH, op_Some, Forall_cons. tauto.
Qed.

End NumberFolds.

Lemma js_min_numbers a b : is_Some (js_min a b) ↔ is_Some a ∧ is_Some b.
Proof.
  destruct a, b; simpl; split; intros H; try (split; eauto);
    try (destruct H as [[? H] [? H']]; discriminate); eauto.
Qed.

Lemma js_max_numbers a b : is_Some (js_max a b) ↔ is_Some a ∧ is_Some b.
Proof.
  destruct a, b; simpl; split; intros H; try (split; eauto);
    try (destruct H as [[? H] [? H']]; discriminate); eauto.
Qed.

Lemma js_add_numbers a b : is_Some (js_add a b) ↔ is_Some a ∧ is_Some b.
Proof.
  destruct a, b; simpl; split; intros H; try (split; eauto);
    try (destruct H as [[? H] [? H']]; discriminate); eauto.
Qed.

Lemma reduced_column_numbers (results : list AnalyzeResult) ii c :
  column_numbers c →
  (column_numbers (reduced_column results ii c) ↔
   Forall (fun r => 6 * ii + 6 ≤ length (ar_columns r)) results).
Proof.
  intros (H0 & H1 & H5 & H4 & H2 & H3).
  unfold column_numbers, reduced_column. cbn [minLength maxLength emptyCount
    stringCount intCount floatCount].
  rewrite (foldl_numbers js_min js_min_numbers),
          (foldl_numbers js_max js_max_numbers),
          !(foldl_numbers js_add js_add_numbers).
  rewrite !Forall_fmap, !Forall_forall. split.
  - intros (_ & _ & [_ H] & _) r Hr. specialize (H r Hr). simpl in H.
    apply lookup_lt_is_Some in H. lia.
  - intros H.
    assert (∀ k, k < 6 →
              ∀ r, r ∈ results → is_Some (ar_columns r !! (6 * ii + k))) as Hk.
    { intros k Hk r Hr. apply lookup_lt_is_Some. specialize (H r Hr). lia. }
    repeat split; try assumption; intros r Hr; simpl; apply Hk; auto; lia.
Qed.

(** X13.  Starting from a header whose statistics are numbers, those
    [analyzeBlobs] leaves in it are all numbers exactly when the
    [columns] array of every result has six entries for every column; a
    shorter one turns statistics into [NaN] for good. *)
Theorem analyzeBlobs_numbers
    (blobs : list Blob) (header : list ColumnStat) (config : Config)
    (results : list AnalyzeResult) :
  Forall column_numbers header →
  (Forall column_numbers (an_header (fold_results blobs header config results)) ↔
   Forall (fun r => 6 * length header ≤ length (ar_columns r)) results).
Proof.
  intros Hheader. unfold fold_results.
  destruct (foldl_fold_result_reduced blobs config results
              {| an_chunks := ∅;
                 an_meta := {| rowCount := 0; malformedRows := 0 |};
                 an_header := header |}) as [-> _].
  simpl an_header. rewrite Forall_lookup in Hheader. split.
  - intros H. rewrite Forall_lookup in H.
    destruct (decide (length header = 0)) as [E|E].
    { rewrite E. apply Forall_forall. intros; lia. }
    destruct (lookup_lt_is_Some_2 header (length header - 1) ltac:(lia)) as [c Hc].
    specialize (H (length header - 1) (reduced_column results (length header - 1) c)).
    rewrite list_lookup_imap, Hc in H. specialize (H eq_refl).
    apply reduced_column_numbers in H; [|eauto].
    eapply Forall_impl; [exact H|]. simpl. intros r Hr. lia.
  - intros H. apply Forall_lookup. intros i c' Hi.
    rewrite list_lookup_imap in Hi.
    destruct (header !! i) as [c|] eqn:Hc; [|discriminate].
    injection Hi as <-. apply reduced_column_numbers; [eauto|].
    apply lookup_lt_Some in Hc.
    eapply Forall_impl; [exact H|]. simpl. intros r Hr. lia.
Qed.

Lemma analyzeBlobs_numbers_witness :
  let r := {| ar_index := 0; ar_stats := {| rowCount := 1; malformedRows := 0 |};
              ar_columns := [1; 1; 1; 0; 0; 0]%Z |} in
  Forall column_numbers
    (an_header (fold_results [] [new_ColumnStat "a"] defaultConfig [r])).
Proof.
  intros r.
  apply (analyzeBlobs_numbers [] [new_ColumnStat "a"] defaultConfig [r]).
  - repeat constructor; simpl; eauto.
  - repeat constructor; simpl; lia.
Defined.

(** ** iterateBlobs *)

Lemma schedule_next_in_flight st :
  in_flight (schedule_next st) ≤ S (in_flight st).
Proof.
  unfold in_flight, schedule_next. destruct (it_tasks st); simpl; [lia|].
  rewrite length_app. simpl. lia.
Qed.

Lemma drain_in_flight blobs fuel :
  ∀ st, in_flight (drain blobs fuel st) ≤ in_flight st.
Proof.
  induction fuel as [|fuel IH]; intros st; simpl.
  - destruct (it_results st !! S (it_blobIndex st)); unfold in_flight; simpl; lia.
  - destruct (it_results st !! S (it_blobIndex st)) as [r|] eqn:Hr;
      [|unfold in_flight; simpl; lia].
    etransitivity; [apply IH|].
    etransitivity; [apply schedule_next_in_flight|].
    unfold in_flight. simpl.
    rewrite map_size_delete_Some by eauto.
    assert (size (it_results st) ≠ 0) as Hne.
    { intros He. apply map_size_empty_inv in He. rewrite He, lookup_empty in Hr.
      discriminate. }
    lia.
Qed.

Lemma handleResult_in_flight blobs st r :
  in_flight (handleResult blobs st r) ≤ S (in_flight st).
Proof.
  unfold handleResult. destruct (lr_index r =? it_blobIndex st).
  - etransitivity; [apply drain_in_flight|].
    etransitivity; [apply schedule_next_in_flight|].
    unfold in_flight. simpl. lia.
  - unfold in_flight. simpl.
    destruct (it_results st !! lr_index r) as [r'|] eqn:Hr.
    + rewrite map_size_insert_Some by eauto. lia.
    + rewrite map_size_insert_None by assumption. lia.
Qed.

Lemma answer_in_flight parseBlob blobs st k st' :
  answer parseBlob blobs st k = Some st' → in_flight st' ≤ in_flight st.
Proof.
  unfold answer. destruct (it_pending st !! k) as [task|] eqn:Hk; [|discriminate].
  assert (S (in_flight (drop_pending k st)) = in_flight st) as Hdrop.
  { unfold in_flight. simpl. rewrite length_delete by eauto.
    apply lookup_lt_Some in Hk. lia. }
  destruct task as [o|]; intros H; injection H as <-.
  - pose proof (handleResult_in_flight blobs (drop_pending k st) (parseBlob o)). lia.
  - lia.
Qed.

Lemma run_in_flight parseBlob blobs order :
  ∀ st st', iterate_run parseBlob blobs st order = Some st' →
            in_flight st' ≤ in_flight st.
Proof.
  induction order as [|k order IH]; intros st st' H; simpl in H.
  - injection H as <-. lia.
  - destruct (answer parseBlob blobs st k) as [st1|] eqn:Ha; [|discriminate].
    apply answer_in_flight in Ha. apply IH in H. lia.
Qed.

(** X14.  Whatever the worker answers and in whatever order, the tasks
    [iterateBlobs] has with the pool and the results it keeps for later
    are together never more than there are workers. *)
Theorem iterateBlobs_in_flight_bound
    (parseBlob : ParseOptions → LoadResult) (workers : nat) (blobs : list Blob)
    (header : list ColumnStat) (config : Config) (order : list nat) (st : Iter) :
  iterateBlobs parseBlob workers blobs header config order = Some st →
  length (it_pending st) + size (it_results st) ≤ workers.
Proof.
  intros Hrun. apply run_in_flight in Hrun.
  unfold iterate_start in Hrun. rewrite seed_loop in Hrun.
  unfold in_flight in Hrun. simpl in Hrun.
  rewrite length_map, length_seq, map_size_empty in Hrun. lia.
Qed.

Lemma iterateBlobs_in_flight_bound_witness :
  let parseBlob o := {| lr_index := po_index o; lr_rowCount := 2 |} in
  let blobs := replicate 4 {| blob_start := 0; blob_end := 1 |} in
  ∃ st, iterateBlobs parseBlob 2 blobs [] defaultConfig [1; 0] = Some st ∧
        length (it_pending st) + size (it_results st) ≤ 2.
Proof.
  intros parseBlob blobs. eexists. split; [reflexivity|].
  apply (iterateBlobs_in_flight_bound parseBlob 2 blobs [] defaultConfig [1; 0]).
  reflexivity.
Defined.

(** X15.  With a worker that answers with the index it was given and one
    worker or more, a result [iterateBlobs] keeps for later is the answer to
    the task of a chunk after the one it waits for and fewer than
    [workers] chunks ahead of it. *)
Theorem iterateBlobs_buffer_window
    (parseBlob : ParseOptions → LoadResult) (workers : nat) (blobs : list Blob)
    (header : list ColumnStat) (config : Config) (order : list nat) (st : Iter) :
  (∀ o, lr_index (parseBlob o) = po_index o) →
  1 ≤ workers →
  iterateBlobs parseBlob workers blobs header config order = Some st →
  ∀ i r, it_results st !! i = Some r →
    it_blobIndex st < i < it_blobIndex st + workers ∧ i < length blobs ∧
    ∃ o, parse_tasks LOAD blobs header config !! i = Some o ∧ r = parseBlob o.
Proof.
  intros Hecho Hworkers Hrun i r Hi.
  assert (quiescent parseBlob workers (parse_tasks LOAD blobs header config) st)
    as [Hinv Hnone].
  { unfold iterateBlobs in Hrun.
    eapply run_quiescent; [assumption|assumption| |exact Hrun].
    apply start_quiescent; assumption. }
  destruct (cs_results _ _ _ _ _ Hinv i r Hi) as [Hrange Ho].
  unfold scheduled in Hrange. rewrite parse_tasks_length in Hrange.
  assert (i ≠ it_blobIndex st) by (intros ->; congruence).
  split; [lia|]. split; [lia|assumption].
Qed.

Lemma iterateBlobs_buffer_window_witness :
  let parseBlob o := {| lr_index := po_index o; lr_rowCount := 2 |} in
  let blobs := replicate 4 {| blob_start := 0; blob_end := 1 |} in
  ∃ st, iterateBlobs parseBlob 3 blobs [] defaultConfig [2; 1] = Some st ∧
        it_blobIndex st = 0 ∧
        ∀ i r, it_results st !! i = Some r → 0 < i < 3.
Proof.
  intros parseBlob blobs. eexists. split; [reflexivity|]. split; [reflexivity|].
  intros i r Hi.
  apply (iterateBlobs_buffer_window parseBlob 3 blobs [] defaultConfig [2; 1] _
           ltac:(reflexivity) ltac:(lia) eq_refl i r Hi).
Defined.

Lemma answer_idle parseBlob blobs st k st' :
  idle st → answer parseBlob blobs st k = Some st' → idle st'.
Proof.
  intros (Hres & Hcalls & Htasks & Hpend). unfold answer.
  destruct (it_pending st !! k) as [task|] eqn:Hk; [|discriminate].
  rewrite Forall_lookup in Hpend. rewrite (Hpend k task Hk).
  intros H. injection H as <-. unfold idle. simpl.
  repeat split; try assumption.
  apply Forall_delete, Forall_lookup. assumption.
Qed.

Lemma run_idle parseBlob blobs order :
  ∀ st st', idle st → iterate_run parseBlob blobs st order = Some st' → idle st'.
Proof.
  induction order as [|k order IH]; intros st st' Hidle H; simpl in H.
  - injection H as <-. assumption.
  - destruct (answer parseBlob blobs st k) as [st1|] eqn:Ha; [|discriminate].
    eapply IH; [|eassumption]. eapply answer_idle; eassumption.
Qed.

(** X16.  With no chunk [iterateBlobs] never resolves and never calls the
    row callback: [resolve] is called from [invokeIterator] only, which
    needs a result, and the pool was handed tasks without options only. *)
Theorem iterateBlobs_no_blobs_never_resolves
    (parseBlob : ParseOptions → LoadResult) (workers : nat)
    (header : list ColumnStat) (config : Config) (order : list nat) (st : Iter) :
  iterateBlobs parseBlob workers [] header config order = Some st →
  it_resolved st = false ∧ it_calls st = [].
Proof.
  intros Hrun. unfold iterateBlobs in Hrun.
  apply run_idle in Hrun; [destruct Hrun as (? & ? & _); auto|].
  unfold iterate_start. rewrite seed_loop. unfold idle. simpl.
  repeat split; [apply drop_nil|].
  apply Forall_fmap, Forall_forall. intros i _. reflexivity.
Qed.

Lemma iterateBlobs_no_blobs_never_resolves_witness :
  let parseBlob o := {| lr_index := po_index o; lr_rowCount := 2 |} in
  ∃ st, iterateBlobs parseBlob 2 [] [] defaultConfig [1; 0] = Some st ∧
        it_pending st = [] ∧ it_resolved st = false ∧ it_calls st = [].
Proof.
  intros parseBlob. eexists. split; [reflexivity|]. split; [reflexivity|].
  apply (iterateBlobs_no_blobs_never_resolves parseBlob 2 [] defaultConfig [1; 0]).
  reflexivity.
Defined.

(** ** binaryChunksFromBlobs *)

Lemma initial_names_snoc (header : list ColumnStat) (c : ColumnStat) :
  initial_names (header ++ [c])
  = object_set (initial_names header) (name c) (length header).
Proof.
  unfold initial_names. rewrite imap_app, foldl_app. simpl.
  rewrite Nat.add_0_r. reflexivity.
Qed.

Lemma lookup_object_set (names : gmap string nat) key value s :
  object_set names key value !! s
  = if decide (key = s ∧ key ≠ "__proto__") then Some value else names !! s.
Proof.
  unfold object_set.
  destruct (decide (key = "__proto__")) as [Hp|Hp];
    destruct (decide (key = s ∧ key ≠ "__proto__")) as [[He Hn]|Hne];
    try contradiction; try reflexivity.
  - rewrite He. apply lookup_insert_eq.
  - apply lookup_insert_ne. intros He. apply Hne. auto.
Qed.

Lemma initial_names_spec (header : list ColumnStat) :
  ∀ s i,
    initial_names header !! s = Some i ↔
    s ≠ "__proto__" ∧
    (∃ c, header !! i = Some c ∧ name c = s) ∧
    (∀ j c, header !! j = Some c → name c = s → j ≤ i).
Proof.
  induction header as [|c header IH] using rev_ind; intros s i.
  - unfold initial_names. simpl. rewrite lookup_empty. split; [discriminate|].
    intros (_ & [c [Hc _]] & _). discriminate.
  - rewrite initial_names_snoc, lookup_object_set.
    destruct (decide (name c = s ∧ name c ≠ "__proto__")) as [[E Hp]|Hne].
    + split.
      * intros H. injection H as <-. split; [congruence|]. split.
        -- exists c. rewrite lookup_app_r, Nat.sub_diag by lia. auto.
        -- intros j c' Hj _. apply lookup_lt_Some in Hj.
           rewrite length_app in Hj. simpl in Hj. lia.
      * intros (_ & [c' [Hc' _]] & Hmax).
        apply lookup_lt_Some in Hc'. rewrite length_app in Hc'. simpl in Hc'.
        assert (length header ≤ i).
        { apply (Hmax (length header) c); [|assumption].
          rewrite lookup_app_r, Nat.sub_diag by lia. reflexivity. }
        f_equal. lia.
    + rewrite IH. split.
      * intros (Hs & [c' [Hc' Hn]] & Hmax). split; [assumption|].
        assert (name c ≠ s) as E by (intros E; apply Hne; split; congruence).
        split.
        -- exists c'. rewrite lookup_app_l by (eapply lookup_lt_Some; eassumption). auto.
        -- intros j c'' Hj Hn'.
           destruct (decide (j < length header)) as [Hlt|Hge].
           ++ rewrite lookup_app_l in Hj by assumption. eauto.
           ++ rewrite lookup_app_r in Hj by lia.
              destruct (j - length header) as [|[|?]]; simpl in Hj; try discriminate.
              injection Hj as <-. contradiction.
      * intros (Hs & [c' [Hc' Hn]] & Hmax). split; [assumption|].
        assert (name c ≠ s) as E by (intros E; apply Hne; split; congruence).
        assert (i < length header) as Hlt.
        { destruct (decide (i < length header)) as [?|Hge]; [assumption|].
          rewrite lookup_app_r in Hc' by lia.
          destruct (i - length header) as [|[|?]]; simpl in Hc'; try discriminate.
          injection Hc' as <-. contradiction. }
        rewrite lookup_app_l in Hc' by assumption. split; [eauto|].
        intros j c'' Hj Hn'. apply (Hmax j c''); [|assumption].
        rewrite lookup_app_l by (eapply lookup_lt_Some; eassumption). assumption.
Qed.

Lemma widen_columns_Some (lengths : list N) (columns : list BinaryColumn) :
  ∀ ii columns',
    widen_columns lengths ii columns = Some columns' →
    length columns ≤ length lengths - ii ∧
    map bc_name columns' = map bc_name columns.
Proof.
  induction columns as [|c columns IH]; intros ii columns' H; simpl in H.
  - injection H as <-. split; [simpl; lia|reflexivity].
  - destruct (lengths !! ii) as [w|] eqn:Hw; [|discriminate].
    destruct (widen_columns lengths (S ii) columns) as [cs|] eqn:Hcs; [|discriminate].
    injection H as <-. destruct (IH _ _ Hcs) as [Hlen Hnames].
    apply lookup_lt_Some in Hw. simpl. split; [lia|]. f_equal. assumption.
Qed.

Lemma foldl_measure_result_Some (rs : list BinaryResult) :
  ∀ m m',
    foldl measure_result (Some m) rs = Some m' →
    map bc_name (ms_columns m') = map bc_name (ms_columns m) ∧
    Forall (fun r => length (ms_columns m) ≤ length (ch_lengths (br_header r))) rs.
Proof.
  induction rs as [|r rs IH]; intros m m' H; simpl in H.
  - injection H as <-. split; [reflexivity|constructor].
  - destruct (widen_columns _ 0 (ms_columns m)) as [cols|] eqn:Hw;
      [|rewrite foldl_measure_result_None in H; discriminate].
    apply widen_columns_Some in Hw as [Hlen Hnames].
    destruct (IH _ _ H) as [Hn Hall]. simpl in Hn, Hall.
    assert (length cols = length (ms_columns m)) as Hl
      by (rewrite <- (length_map bc_name cols), Hnames; apply length_map).
    split; [congruence|]. constructor; [simpl in Hlen; lia|].
    rewrite Hl in Hall. assumption.
Qed.

Lemma foldl_layout_step_None results l : foldl (layout_step results) None l = None.
Proof. induction l as [|i l IH]; simpl; [reflexivity|assumption]. Qed.

Lemma foldl_layout_step_Some results (l : list nat) :
  ∀ cols o cols' o',
    foldl (layout_step results) (Some (cols, o)) l = Some (cols', o') →
    map bc_name cols' = map bc_name cols ∧
    (l ≠ [] → is_Some (results !! 0)) ∧
    ∀ i first, i ∈ l → results !! 0 = Some first →
      ∃ k, ch_order (br_header first) !! i = Some k ∧ k < length cols.
Proof.
  induction l as [|i l IH]; intros cols o cols' o' H; simpl in H.
  - injection H as <- <-. split; [reflexivity|]. split; [congruence|].
    intros i first Hi. apply elem_of_nil in Hi. contradiction.
  - destruct (results !! 0) as [first|] eqn:Hfirst;
      [|rewrite foldl_layout_step_None in H; discriminate].
    destruct (ch_order (br_header first) !! i) as [k|] eqn:Hk;
      [|rewrite foldl_layout_step_None in H; discriminate].
    destruct (cols !! k) as [c|] eqn:Hc;
      [|rewrite foldl_layout_step_None in H; discriminate].
    destruct (IH _ _ _ _ H) as (Hnames & _ & Hall).
    assert (map bc_name (<[k := set_offset o c]> cols) = map bc_name cols) as Hins.
    { rewrite list_fmap_insert. apply list_insert_id.
      rewrite list_lookup_fmap, Hc. reflexivity. }
    split; [congruence|]. split; [eauto|].
    intros i' first' Hi' Hf'. injection Hf' as <-.
    apply elem_of_cons in Hi' as [->|Hi'].
    + exists k. split; [assumption|]. eapply lookup_lt_Some; eassumption.
    + destruct (Hall i' first Hi' eq_refl) as [k' [Hk' Hlt]].
      exists k'. split; [assumption|]. rewrite length_insert in Hlt. assumption.
Qed.

Lemma initial_columns_names header results cols0 :
  initial_columns header results = Some cols0 →
  map bc_name cols0 = map name header.
Proof.
  unfold initial_columns. destruct header as [|c header].
  - intros H. injection H as <-. reflexivity.
  - destruct (results !! 0) as [first|]; [|discriminate].
    intros H. injection H as <-. simpl. f_equal.
    apply list_eq. intros i. rewrite !list_lookup_fmap, list_lookup_imap.
    destruct (header !! i); reflexivity.
Qed.

Lemma binary_header_column_names header results h ordered :
  binary_header header results = Some (h, ordered) →
  map bc_name (bh_columns h) = map name header ∧
  bh_names h = initial_names header.
Proof.
  unfold binary_header. intros H.
  destruct (initial_columns header results) as [cols0|] eqn:H0; [|discriminate].
  destruct (foldl measure_result _ results) as [m|] eqn:Hm; [|discriminate].
  destruct (foldl (layout_step results) _ _) as [[cols o]|] eqn:Hl; [|discriminate].
  injection H as <- <-. simpl. split; [|reflexivity].
  apply foldl_layout_step_Some in Hl as [Hl _].
  apply foldl_measure_result_Some in Hm as [Hm _]. simpl in Hm.
  apply initial_columns_names in H0. congruence.
Qed.

(** X17.  In the header [binaryChunksFromBlobs] returns, [names] has as
    its own properties the names of the columns other than [__proto__],
    each with the place of the last column of that name: the column there
    carries the name and no column after it does.  A name no column carries
    is no own property, and neither is [__proto__], whose assignment the
    prototype's setter ignores.  With two columns of one name the first
    cannot be found by name. *)
Theorem binary_header_names
    (header : list ColumnStat) (results : list BinaryResult)
    (h : BinaryHeader) (ordered : gmap nat BinaryResult) :
  binary_header header results = Some (h, ordered) →
  (∀ s i,
     bh_names h !! s = Some i ↔
     s ≠ "__proto__" ∧
     (∃ c, bh_columns h !! i = Some c ∧ bc_name c = s) ∧
     (∀ j c, bh_columns h !! j = Some c → bc_name c = s → j ≤ i)) ∧
  bh_names h !! "__proto__" = None.
Proof.
  intros H.
  destruct (binary_header_column_names _ _ _ _ H) as [Hcols ->].
  assert (∀ s j, (∃ c, bh_columns h !! j = Some c ∧ bc_name c = s) ↔
                 (∃ c, header !! j = Some c ∧ name c = s)) as Hsame.
  { intros s j.
    assert (map bc_name (bh_columns h) !! j = map name header !! j) as Hj
      by (rewrite Hcols; reflexivity).
    rewrite !list_lookup_fmap in Hj.
    destruct (bh_columns h !! j) as [c|], (header !! j) as [c'|];
      simpl in Hj; try discriminate.
    - injection Hj as Hj. split; intros [? [E <-]]; injection E as <-; eauto.
    - split; intros [? [E _]]; discriminate. }
  split.
  - intros s i. rewrite initial_names_spec, Hsame.
    split; intros (Hs & Hex & Hmax); (split; [assumption|split; [assumption|]]).
    + intros j c Hj Hn.
      destruct (proj1 (Hsame s j) (ex_intro _ c (conj Hj Hn))) as [c' [Hc' Hn']].
      eauto.
    + intros j c Hj Hn.
      destruct (proj2 (Hsame s j) (ex_intro _ c (conj Hj Hn))) as [c' [Hc' Hn']].
      eauto.
  - destruct (initial_names header !! "__proto__") as [i|] eqn:E; [|reflexivity].
    apply initial_names_spec in E as [Hs _]. contradiction.
Qed.

Lemma binary_header_names_witness :
  let first := {| br_index := 0;
                  br_header := {| ch_rowCount := 1; ch_lengths := [1; 2; 3; 4]%N;
                                  ch_types := []; ch_order := [0; 1; 2; 3] |};
                  br_data := [] |} in
  let header := [new_ColumnStat "a"; new_ColumnStat "b"; new_ColumnStat "a";
                 new_ColumnStat "__proto__"] in
  ∃ h ordered,
    binary_header header [first] = Some (h, ordered) ∧
    bh_names h !! "a" = Some 2 ∧ bh_names h !! "__proto__" = None.
Proof.
  intros first header. do 2 eexists. split; [reflexivity|].
  destruct (binary_header_names header [first] _ _ eq_refl) as [Hnames Hproto].
  split; [|exact Hproto].
  apply Hnames. split; [discriminate|]. split.
  - eexists. split; reflexivity.
  - intros j c Hj Hn.
    do 3 (destruct j as [|j]; [lia|]).
    destruct j as [|j]; [injection Hj as <-; discriminate|discriminate].
Defined.

Lemma foldl_measure_result_ordered (rs : list BinaryResult) :
  ∀ m m' base,
    foldl measure_result (Some m) rs = Some m' →
    (∀ k r, rs !! k = Some r → br_index r = base + k) →
    ∀ i, ms_ordered m' !! i
         = if decide (base ≤ i < base + length rs)
           then rs !! (i - base) else ms_ordered m !! i.
Proof.
  induction rs as [|r rs IH]; intros m m' base H Hidx i; simpl in H.
  - injection H as <-. simpl. destruct (decide _); [lia|reflexivity].
  - destruct (widen_columns _ 0 (ms_columns m)) as [cols|] eqn:Hw;
      [|rewrite foldl_measure_result_None in H; discriminate].
    pose proof (Hidx 0 r eq_refl) as Hr. rewrite Nat.add_0_r in Hr.
    rewrite (IH _ _ (S base) H) by
      (intros k r' Hk; rewrite (Hidx (S k) r' Hk); lia).
    simpl length. simpl ms_ordered.
    destruct (decide (S base ≤ i < S base + length rs)) as [H1|H1];
      destruct (decide (base ≤ i < base + S (length rs))) as [H2|H2]; try lia.
    + replace (i - base) with (S (i - S base)) by lia. reflexivity.
    + assert (i = base) as -> by lia.
      rewrite Nat.sub_diag, Hr, lookup_insert_eq. reflexivity.
    + rewrite Hr. apply lookup_insert_ne. lia.
Qed.

(** Results that carry their places as indices are kept at their places. *)
Lemma binary_header_ordered header results h ordered :
  binary_header header results = Some (h, ordered) →
  (∀ k r, results !! k = Some r → br_index r = k) →
  ∀ i, ordered !! i = results !! i.
Proof.
  unfold binary_header. intros H Hidx i.
  destruct (initial_columns header results) as [cols0|]; [|discriminate].
  destruct (foldl measure_result _ results) as [m|] eqn:Hm; [|discriminate].
  destruct (foldl (layout_step results) _ _) as [[cols o]|]; [|discriminate].
  injection H as _ <-.
  rewrite (foldl_measure_result_ordered _ _ _ 0 Hm) by exact Hidx.
  rewrite Nat.sub_0_r. simpl.
  destruct (decide (0 ≤ i < length results)) as [Hi|Hi]; [reflexivity|].
  rewrite lookup_empty. symmetry. apply lookup_ge_None. lia.
Qed.

(** X18.  With a worker that answers with the index it was given, the
    [chunks] array [binaryChunksFromBlobs] returns holds at every place [i]
    the answer to the task of blob [i], and nothing at any other place. *)
Theorem binaryChunksFromBlobs_chunks
    (parseBlob : ParseOptions → BinaryResult)
    (blobs : list Blob) (header : list ColumnStat) (config : Config)
    (h : BinaryHeader) (ordered : gmap nat BinaryResult) :
  (∀ o, br_index (parseBlob o) = po_index o) →
  binaryChunksFromBlobs parseBlob blobs header config = Some (h, ordered) →
  ∀ i, ordered !! i
       = option_map parseBlob (parse_tasks BINARY blobs header config !! i).
Proof.
  intros Hecho H i. unfold binaryChunksFromBlobs, binary_header in H.
  set (tasks := parse_tasks BINARY blobs header config) in *.
  destruct (initial_columns header _) as [cols0|]; [|discriminate].
  destruct (foldl measure_result _ _) as [m|] eqn:Hm; [|discriminate].
  destruct (foldl (layout_step _) _ _) as [[cols o]|]; [|discriminate].
  injection H as _ <-.
  rewrite (foldl_measure_result_ordered _ _ _ 0 Hm).
  - rewrite length_map, Nat.sub_0_r, list_lookup_fmap. simpl.
    destruct (tasks !! i) as [t|] eqn:Ht; simpl.
    + apply lookup_lt_Some in Ht. destruct (decide _); [reflexivity|lia].
    + destruct (decide _); [reflexivity|apply lookup_empty].
  - intros k r Hk. rewrite list_lookup_fmap in Hk.
    destruct (tasks !! k) as [t|] eqn:Ht; [|discriminate].
    injection Hk as <-. rewrite Hecho. apply (parse_tasks_index _ _ _ _ _ _ Ht).
Qed.

Lemma binaryChunksFromBlobs_chunks_witness :
  let parseBlob o :=
    {| br_index := po_index o;
       br_header := {| ch_rowCount := 2; ch_lengths := [3]%N;
                       ch_types := [StringType]; ch_order := [0] |};
       br_data := [] |} in
  let blobs := [{| blob_start := 0; blob_end := 4 |};
                {| blob_start := 4; blob_end := 9 |}] in
  let header := [new_ColumnStat "a"] in
  ∃ h ordered,
    binaryChunksFromBlobs parseBlob blobs header defaultConfig = Some (h, ordered) ∧
    option_map br_index (ordered !! 1) = Some 1 ∧ ordered !! 2 = None.
Proof.
  intros parseBlob blobs header. do 2 eexists. split; [reflexivity|].
  split.
  - rewrite (binaryChunksFromBlobs_chunks parseBlob blobs header defaultConfig _ _
               ltac:(reflexivity) eq_refl 1). reflexivity.
  - rewrite (binaryChunksFromBlobs_chunks parseBlob blobs header defaultConfig _ _
               ltac:(reflexivity) eq_refl 2). reflexivity.
Defined.

Lemma foldl_layout_step_is_Some results first (l : list nat) :
  results !! 0 = Some first →
  ∀ cols o,
    (∀ i, i ∈ l →
          ∃ k, ch_order (br_header first) !! i = Some k ∧ k < length cols) →
    is_Some (foldl (layout_step results) (Some (cols, o)) l).
Proof.
  intros Hfirst. induction l as [|i l IH]; intros cols o H; simpl.
  - eauto.
  - rewrite Hfirst.
    destruct (H i ltac:(left)) as [k [Hk Hlt]]. rewrite Hk.
    destruct (lookup_lt_is_Some_2 cols k Hlt) as [c Hc]. rewrite Hc.
    apply IH. intros i' Hi'. rewrite length_insert. apply H. right. assumption.
Qed.

(** X19.  [binaryChunksFromBlobs] builds its header without a TypeError
    and without [NaN] in the layout exactly when the header has no column,
    or there is a first result, every result gives a width for every
    column, and the packing order of the first result names a column at
    each of its first places, one per column. *)
Theorem binary_header_succeeds_iff
    (header : list ColumnStat) (results : list BinaryResult) :
  is_Some (binary_header header results) ↔
  header = [] ∨
  ∃ first,
    results !! 0 = Some first ∧
    Forall (fun r => length header ≤ length (ch_lengths (br_header r))) results ∧
    ∀ i, i < length header →
         ∃ k, ch_order (br_header first) !! i = Some k ∧ k < length header.
Proof.
  split.
  - intros [[h ordered] H].
    destruct header as [|c0 header0] eqn:Eh; [left; reflexivity|right].
    rewrite <- Eh in *.
    unfold binary_header in H.
    destruct (initial_columns header results) as [cols0|] eqn:H0; [|discriminate].
    destruct (foldl measure_result _ results) as [m|] eqn:Hm; [|discriminate].
    destruct (foldl (layout_step results) _ _) as [[cols o]|] eqn:Hl; [|discriminate].
    assert (length cols0 = length header) as Hlen0.
    { apply initial_columns_names in H0.
      rewrite <- (length_map bc_name cols0), H0. apply length_map. }
    destruct (results !! 0) as [first|] eqn:Hfirst.
    2:{ unfold initial_columns in H0. rewrite Eh, Hfirst in H0. discriminate. }
    exists first. split; [reflexivity|].
    apply foldl_measure_result_Some in Hm as [Hnames Hall]. simpl in Hnames, Hall.
    rewrite Hlen0 in Hall. split; [assumption|].
    apply foldl_layout_step_Some in Hl as (_ & _ & Hl).
    intros i Hi. destruct (Hl i first) as [k [Hk Hlt]];
      [apply elem_of_seq; lia|assumption|].
    exists k. split; [assumption|].
    rewrite <- Hlen0, <- (length_map bc_name cols0), <- Hnames, length_map.
    assumption.
  - intros H. unfold binary_header.
    assert (∃ cols0, initial_columns header results = Some cols0 ∧
                     length cols0 = length header) as [cols0 [H0 Hlen0]].
    { unfold initial_columns. destruct header as [|c0 header0]; [eauto|].
      destruct H as [?|[first [-> _]]]; [discriminate|].
      eexists. split; [reflexivity|]. apply length_imap. }
    rewrite H0.
    destruct (measure_results_spec (length header) results) with
      (m := {| ms_rowCount := 0; ms_columns := cols0; ms_ordered := ∅ |})
      as [m (Hm & _ & Hcols)]; [|assumption|].
    { destruct H as [->|[first (_ & Hall & _)]]; [|assumption].
      apply Forall_forall. intros; simpl; lia. }
    rewrite Hm.
    assert (length (ms_columns m) = length header) as Hlen
      by (rewrite Hcols, length_imap; assumption).
    destruct H as [->|[first (Hfirst & _ & Horder)]].
    + simpl. eauto.
    + destruct (foldl_layout_step_is_Some results first (seq 0 (length header))
                  Hfirst (ms_columns m) 0%N) as [[cols o] Hl].
      { intros i Hi. apply elem_of_seq in Hi. rewrite Hlen. apply Horder. lia. }
      rewrite Hl. eauto.
Qed.

(** ** binaryChunksFromBlobs and mergeChunksIntoBuffer *)

(** X20.  With a worker that answers with the index it was given, the
    [chunks] array [binaryChunksFromBlobs] returns has no hole; given that
    array and the header built with it, and no output buffer,
    [mergeChunksIntoBuffer] on the shared-memory path allocates a shared
    buffer of the header's [dataLength] bytes, changes nothing in the
    header, schedules one task per blob, and hands the task of every chunk
    an offset that leaves the rows of the chunk, [rowLength] bytes each,
    inside that buffer. *)
Theorem merge_offsets_within_buffer
    (parseBlob : ParseOptions → BinaryResult)
    (blobs : list Blob) (header : list ColumnStat) (config : Config)
    (h : BinaryHeader) (ordered : gmap nat BinaryResult)
    (chunks : list BinaryResult) :
  (∀ o, br_index (parseBlob o) = po_index o) →
  binaryChunksFromBlobs parseBlob blobs header config = Some (h, ordered) →
  (∀ i, chunks !! i = ordered !! i) →
  (∀ out, output config = Some out → out_buffer out = None) →
  let m := mergeChunksIntoBuffer true chunks h config in
  mg_header m = h ∧
  mg_buffer m = SharedArrayBuffer (bh_dataLength h) ∧
  length (mg_tasks m) = length blobs ∧
  ∀ i chunk, ordered !! i = Some chunk →
    ∃ dataOffset,
      mg_tasks m !! i = Some (mergeIntoBuffer (mg_buffer m) h dataOffset chunk) ∧
      (dataOffset + ch_rowCount (br_header chunk) * bh_rowLength h
       <= bh_dataLength h)%N.
Proof.
  intros Hecho H Hchunks Hout m. unfold binaryChunksFromBlobs in H.
  set (results := map parseBlob (parse_tasks BINARY blobs header config)) in *.
  assert (chunks = results) as ->.
  { apply list_eq. intros i. rewrite Hchunks.
    apply (binary_header_ordered _ _ _ _ H).
    intros k r Hk. subst results. rewrite list_lookup_fmap in Hk.
    destruct (parse_tasks BINARY blobs header config !! k) as [t|] eqn:Ht;
      [|discriminate].
    injection Hk as <-. rewrite Hecho. apply (parse_tasks_index _ _ _ _ _ _ Ht). }
  assert (m = {| mg_header := h; mg_buffer := SharedArrayBuffer (bh_dataLength h);
                 mg_tasks := merge_tasks (SharedArrayBuffer (bh_dataLength h)) h
                               (bh_dataOffset h) results |}) as ->.
  { subst m. unfold mergeChunksIntoBuffer.
    destruct (output config) as [[[b|] off]|] eqn:Ho; [|reflexivity|reflexivity].
    specialize (Hout _ eq_refl). discriminate. }
  destruct (binary_header_data_length _ _ _ _ H) as [Hlen Hoff].
  simpl. split; [reflexivity|]. split; [reflexivity|].
  split.
  { rewrite merge_tasks_length. subst results.
    rewrite length_map. apply parse_tasks_length. }
  intros i chunk Hi. rewrite <- Hchunks in Hi.
  rewrite (merge_tasks_lookup _ _ _ _ _ _ Hi). eexists. split; [reflexivity|].
  rewrite Hoff, Hlen, <- bytes_before_all, N.add_0_l.
  rewrite <- (bytes_before_S _ _ _ _ Hi).
  apply bytes_before_mono. apply lookup_lt_Some in Hi. lia.
Qed.

Lemma merge_offsets_within_buffer_witness :
  let parseBlob o :=
    {| br_index := po_index o;
       br_header := {| ch_rowCount := 2 + N.of_nat (po_index o);
                       ch_lengths := [3]%N;
                       ch_types := [StringType]; ch_order := [0] |};
       br_data := [] |} in
  let blobs := [{| blob_start := 0; blob_end := 4 |};
                {| blob_start := 4; blob_end := 9 |}] in
  let header := [new_ColumnStat "a"] in
  let chunks := map parseBlob (parse_tasks BINARY blobs header defaultConfig) in
  ∃ h ordered,
    binaryChunksFromBlobs parseBlob blobs header defaultConfig = Some (h, ordered) ∧
    option_map br_index (ordered !! 1) = Some 1 ∧
    mg_buffer (mergeChunksIntoBuffer true chunks h defaultConfig)
    = SharedArrayBuffer 15 ∧
    length (mg_tasks (mergeChunksIntoBuffer true chunks h defaultConfig)) = 2.
Proof.
  intros parseBlob blobs header chunks. do 2 eexists.
  split; [reflexivity|]. split; [reflexivity|].
  destruct (merge_offsets_within_buffer parseBlob blobs header defaultConfig _ _
              chunks ltac:(reflexivity) eq_refl) as (_ & Hb & Hl & _).
  - intros i. symmetry. apply (binary_header_ordered header chunks _ _ eq_refl).
    intros k r Hk. destruct k as [|[|k]]; try discriminate;
      injection Hk as <-; reflexivity.
  - intros out Hout. discriminate.
  - split; [exact Hb|exact Hl].
Defined.
